(** * Linewise broadcast engine of RAFT: a shallow embedding and its properties

    The development embeds [cpp/include/raft/matrix/detail/linewise_op.cuh]:
    the device functions [Linewise::vectorCols], [Linewise::vectorRows] and
    [Linewise::loadVec], the four kernels built on them, the host functions
    [matrixLinewiseVecCols] / [matrixLinewiseVecRows] that split the matrix
    into an unaligned head, an aligned body and an unaligned tail, and the
    width-narrowing dispatcher [MatrixLinewiseOp::run].  It also embeds
    the integer helpers, [forEach] and the warp and block reductions of
    [cpp/include/raft/cuda_utils.cuh], the in-place transpose of
    [raft/linalg/detail/transpose.cuh], and the column sums of
    [cpp/include/raft/stats/detail/sum.cuh].

    Conventions of the model.
    - [IdxType] is a signed index type whose arithmetic does not overflow
      (the documented precondition of the engine); it is modelled by [Z],
      with C++ [/] and [%] being [Z.quot] and [Z.rem].  Arithmetic that the
      source performs in [uint] keeps its wrap-around modulo [2^32].
    - A pointer into the input or output matrix is the element offset from
      the caller's [in] / [out] pointer; the byte addresses [in_addr] and
      [out_addr] of these two pointers enter the alignment computations and
      the alignment requirement of every wide load and store.
    - A kernel launch is the list of the scalar stores its threads perform;
      a wide access at a misaligned address is a fault, and so is a loop
      that exhausts its fuel.
    - Shared memory is a function from slot to value; a barrier separates
      the phase in which every thread of the block writes its slots from
      the phase in which the threads read. *)

From Stdlib Require Import ZArith List Lia Bool Permutation.
From Equations Require Import Equations.
Import ListNotations.
Local Open Scope Z_scope.

(** ** Faults and results *)

Inductive fault : Type :=
| Misaligned
| OutOfFuel.

Inductive result (A : Type) : Type :=
| Ok (a : A)
| Err (f : fault).

Arguments Ok {A} a.
Arguments Err {A} f.

Definition bind {A B : Type} (r : result A) (k : A -> result B) : result B :=
  match r with
  | Ok a => k a
  | Err f => Err f
  end.

Notation "x <- r ;; k" := (bind r (fun x => k))
  (at level 61, r at next level, right associativity).
Notation "' pat <- r ;; k" := (bind r (fun x => match x with pat => k end))
  (at level 61, pat pattern, r at next level, right associativity).

(** Results of the threads of a block, or of the blocks of a grid, put
    together; the first fault wins. *)
Fixpoint collect {A : Type} (rs : list (result (list A))) : result (list A) :=
  match rs with
  | [] => Ok []
  | r :: rs' =>
      x <- r ;;
      xs <- collect rs' ;;
      Ok (x ++ xs)
  end.

(** The indices [0, 1, ..., n-1]. *)
Definition zseq (n : Z) : list Z := map Z.of_nat (seq 0 (Z.to_nat n)).

(** Memory after a list of scalar stores, performed from left to right. *)
Definition store_all {V : Type} (ws : list (Z * V)) (m : Z -> V) : Z -> V :=
  fold_left (fun m' w => fun a => if a =? fst w then snd w else m' a) ws m.

Definition b2z (b : bool) : Z := if b then 1 else 0.

(** ** [raft/cuda_utils.cuh] and the grid-size helper *)

Module Raft.

(** A value converted to [uint]. *)
Definition uint (x : Z) : Z := x mod 2 ^ 32.

(** [ceildiv<IntType>(a, b) = (a + b - 1) / b]; [wrap] is the conversion
    to [IntType] ([uint] for [ceildiv<uint>], the identity for
    [ceildiv<IdxType>]). *)
Definition ceildiv (wrap : Z -> Z) (a b : Z) : Z :=
  wrap (Z.quot (wrap (a + b - 1)) b).

Definition WarpSize : Z := 32.

(** Modelled from the spec: [raft::gcd] is declared in a header that is
    not part of the sources at hand; it is the greatest common divisor. *)
Definition gcd (a b : Z) : Z := Z.gcd a b.

Definition OptimalSmOccupancy : Z := 16.

(** [getOptimalGridSize<BlockSize>()]; the two device attributes it
    queries are arguments. *)
Definition getOptimalGridSize (smCount maxBlockSize BlockSize : Z) : Z :=
  uint (OptimalSmOccupancy * uint (Z.quot (smCount * maxBlockSize) BlockSize)).

End Raft.

(** ** [raft::Pow2<W>] *)

Module Pow2.

(** Modelled from the spec: [raft/pow2_utils.cuh] is not part of the
    sources at hand.  For a power of two [W], [roundUp] / [roundDown]
    give the nearest multiple of [W] at or after / before an address,
    [areSameAlignOffsets] compares the remainders modulo [W], and [mod_] /
    [div] are remainder and quotient by [W]. *)
Definition Value (W : Z) : Z := W.
Definition mod_ (W x : Z) : Z := x mod W.
Definition div (W x : Z) : Z := x / W.
Definition roundDown (W a : Z) : Z := W * (a / W).
Definition roundUp (W a : Z) : Z := W * ((a + W - 1) / W).
Definition areSameAlignOffsets (W a b : Z) : bool := (a mod W) =? (b mod W).

End Pow2.

(** ** Sample data *)

Module Scenario.

(** [op = subtract]: the matrix element minus the entry of the one
    vector. *)
Definition subtract (a : Z) (bs : list Z) : Z :=
  match bs with
  | b :: _ => a - b
  | [] => a
  end.


(** The row-major matrix [[1,2,3,4],[5,6,7,8],[9,10,11,12]], the vector
    [10, 20, 30] and the output expected of them. *)
Definition matrix (i : Z) : Z :=
  nth (Z.to_nat i) [1; 2; 3; 4; 5; 6; 7; 8; 9; 10; 11; 12] 0.

Definition per_row (i : Z) : Z := nth (Z.to_nat i) [10; 20; 30] 0.

Definition expected : list Z :=
  [-9; -8; -7; -6; -15; -14; -13; -12; -21; -20; -19; -18].

(** A vector of three entries per position within the row. *)
Definition per_col (i : Z) : Z := nth (Z.to_nat i) [100; 200; 300] 0.

Definition zeros (i : Z) : Z := 0.

End Scenario.

(** ** More of [raft/cuda_utils.cuh]: integer helpers, [forEach], warp and
    block reductions *)

Module CudaUtils.

(** [alignTo<IntType>(a, b) = ceildiv(a, b) * b]; [wrap] is the conversion
    to [IntType], as for [Raft.ceildiv]. *)
Definition alignTo (wrap : Z -> Z) (a b : Z) : Z :=
  wrap (Raft.ceildiv wrap a b * b).

(** [alignDown<IntType>(a, b) = (a / b) * b]. *)
Definition alignDown (wrap : Z -> Z) (a b : Z) : Z :=
  wrap (wrap (Z.quot a b) * b).

(** An integer used as a condition. *)
Definition truthy (x : Z) : bool := negb (x =? 0).

(** [isPo2(num) = (num && !(num & (num - 1)))], for an integer type in
    which [num - 1] does not overflow; [&] on two's complement numbers is
    [Z.land]. *)
Definition isPo2 (num : Z) : bool :=
  truthy num && negb (truthy (Z.land num (num - 1))).

(** [log2(num, ret) = num <= 1 ? ret : log2(num >> 1, ++ret)]. *)
Equations? log2 (num ret : Z) : Z by wf (Z.to_nat num) lt :=
  log2 num ret :=
    if Z_le_gt_dec num 1 then ret else log2 (Z.shiftr num 1) (ret + 1).
Proof.
  rewrite Z.shiftr_div_pow2 by lia. change (2 ^ 1) with 2.
  assert (num / 2 < num) by (apply Z.div_lt; lia).
  assert (0 <= num / 2) by (apply Z.div_pos; lia).
  lia.
Qed.





(** [forEach<ItemsPerThread>(num, lambda)] in one thread: the calls
    [lambda(idx, itr)] it makes, in order.  The loop runs [ItemsPerThread]
    times whatever [num] is. *)
Fixpoint forEach_loop (n : nat) (itr idx numThreads num : Z) : list (Z * Z) :=
  match n with
  | O => []
  | S n' =>
      (if idx <? num then [(idx, itr)] else [])
        ++ forEach_loop n' (itr + 1) (idx + numThreads) numThreads num
  end.

Definition forEach (ItemsPerThread blockDim gridDim blockIdx threadIdx num : Z)
  : list (Z * Z) :=
  let idx := blockDim * blockIdx + threadIdx in
  let numThreads := blockDim * gridDim in
  forEach_loop (Z.to_nat ItemsPerThread) 0 idx numThreads num.

(** The calls made by all the threads of a one-dimensional grid. *)
Definition forEach_grid (ItemsPerThread blockDim gridDim num : Z) : list (Z * Z) :=
  flat_map (fun b =>
    flat_map (fun t => forEach ItemsPerThread blockDim gridDim b t num)
      (zseq blockDim))
    (zseq gridDim).

Section Reductions.

Variable T : Type.
Variable add : T -> T -> T.
Variable zero : T.

(** The values held by the lanes of a warp: a function of the lane.
    [shfl_xor(val, laneMask)] gives a lane the value held by the lane
    whose number differs from its own by [laneMask] (bitwise xor). *)
Definition shfl_xor (val : Z -> T) (laneMask : Z) : Z -> T :=
  fun lane => val (Z.lxor lane laneMask).

(** The loop of [warpReduce]:
    [for (i = WarpSize / 2; i > 0; i >>= 1) val += shfl_xor(val, i)]. *)
Equations? warpReduce_loop (i : Z) (val : Z -> T) : Z -> T by wf (Z.to_nat i) lt :=
  warpReduce_loop i val :=
    if Z_gt_le_dec i 0 then
      warpReduce_loop (Z.shiftr i 1)
        (fun lane => let tmp := shfl_xor val i lane in add (val lane) tmp)
    else val.
Proof.
  rewrite Z.shiftr_div_pow2 by lia. change (2 ^ 1) with 2.
  assert (i / 2 < i) by (apply Z.div_lt; lia).
  assert (0 <= i / 2) by (apply Z.div_pos; lia).
  lia.
Qed.

Definition warpReduce (val : Z -> T) : Z -> T :=
  warpReduce_loop (Z.quot Raft.WarpSize 2) val.

(** [blockReduce(val, smem)] for a one-dimensional block: [val] gives the
    value each thread enters with, the result the value each thread
    returns with.  Lane 0 of every warp stores the warp's sum in
    [sTemp[wid]]; after the barrier the lanes below [nWarps] pick one
    slot each, the others zero, and every warp reduces once more. *)
Definition blockReduce (blockDim : Z) (val : Z -> T) (smem : Z -> T) : Z -> T :=
  let nWarps := Z.quot (blockDim + Raft.WarpSize - 1) Raft.WarpSize in
  let lid := fun t => Z.rem t Raft.WarpSize in
  let wid := fun t => Z.quot t Raft.WarpSize in
  let val1 := fun t =>
    warpReduce (fun lane => val (wid t * Raft.WarpSize + lane)) (lid t) in
  let sTemp :=
    store_all
      (map (fun t => (wid t, val1 t))
         (filter (fun t => lid t =? 0) (zseq blockDim)))
      smem in
  fun t =>
    warpReduce (fun lane => if lane <? nWarps then sTemp lane else zero) (lid t).

(** Sum of [f 0], ..., [f (n-1)]. *)
Definition sum_upto (n : Z) (f : Z -> T) : T :=
  fold_right add zero (map f (zseq n)).

End Reductions.

End CudaUtils.

(** ** [raft/linalg/detail/transpose.cuh]: the in-place transpose *)

Module Linalg.

(** The device lambda of [transpose(inout, n, stream)], run for one
    [idx]: it exchanges the cells [(s_row, s_col)] and [(s_col, s_row)]
    when [s_row < s_col], and does nothing otherwise. *)
Definition transpose_body {T : Type} (m : Z) (d_inout : Z -> T) (idx : Z) : Z -> T :=
  let s_row := Z.rem idx m in
  let s_col := Z.quot idx m in
  let d_row := s_col in
  let d_col := s_row in
  if s_row <? s_col then
    let temp := d_inout (d_col * m + d_row) in
    store_all [ (d_col * m + d_row, d_inout (s_col * m + s_row));
                (s_col * m + s_row, temp) ] d_inout
  else d_inout.

(** [thrust::for_each] over the counting range [0, size): the function is
    applied once to every index, in an order [sched] that the execution
    policy is free to choose. *)
Definition for_each {S : Type} (sched : list Z) (f : S -> Z -> S) (s : S) : S :=
  fold_left f sched s.

Definition transpose {T : Type} (sched : list Z) (inout : Z -> T) (n : Z) : Z -> T :=
  let m := n in
  for_each sched (transpose_body m) inout.

(** The cells that the lambda reads or writes at [idx]. *)
Definition transpose_cells (m idx : Z) : list Z :=
  let s_row := Z.rem idx m in
  let s_col := Z.quot idx m in
  if s_row <? s_col then [s_row * m + s_col; s_col * m + s_row] else [].

(** The index at whose turn the cell [(i, j)] is exchanged with its
    mirror image. *)
Definition turn_of (m i j : Z) : Z := if i <? j then j * m + i else i * m + j.

(** What the matrix holds once the indices of [l] have had their turn,
    in terms of what it held at the start. *)
Definition transposed_on {T : Type} (m : Z) (l : list Z) (inout mem : Z -> T) : Prop :=
  (forall i j, 0 <= i < m -> 0 <= j < m ->
     mem (i * m + j) =
       if in_dec Z.eq_dec (turn_of m i j) l then
         (if i =? j then inout (i * m + j) else inout (j * m + i))
       else inout (i * m + j)) /\
  (forall p, ~ 0 <= p < m * m -> mem p = inout p).

End Linalg.

(** ** [raft/stats/detail/sum.cuh]: the sums of the columns of a matrix *)

Module Stats.

(** The results of the threads of a block, one value per thread in the
    order of the threads; the first fault wins. *)
Fixpoint gather {A : Type} (rs : list (result A)) : result (list A) :=
  match rs with
  | [] => Ok []
  | r :: rs' =>
      x <- r ;;
      xs <- gather rs' ;;
      Ok (x :: xs)
  end.

Section Sum.

Variable T : Type.
Variable add : T -> T -> T.
Variable zero : T.

(** What a kernel does to global memory: a plain store, or an atomic
    addition [myAtomicAdd(address, val)], which reads, adds and writes in
    one indivisible step. *)
Inductive effect : Type :=
| Store (address : Z) (val : T)
| AtomicAdd (address : Z) (val : T).

Definition myAtomicAdd (mem : Z -> T) (address : Z) (val : T) : Z -> T :=
  fun a => if a =? address then add (mem a) val else mem a.

(** Memory after a list of effects, performed from left to right. *)
Definition apply_effects (es : list effect) (mem : Z -> T) : Z -> T :=
  fold_left
    (fun m e =>
       match e with
       | Store address val => fun a => if a =? address then val else m a
       | AtomicAdd address val => myAtomicAdd m address val
       end)
    es mem.

(** [for (IdxType i = rowId; i < N; i += stride)
       thread_data += (colId < D) ? data[i * D + colId] : Type(0);] *)
Fixpoint sumKernelRowMajor_loop (fuel : nat) (data : Z -> T)
    (D N colId stride i : Z) (thread_data : T) : result T :=
  match fuel with
  | O => Err OutOfFuel
  | S fuel' =>
      if i <? N then
        sumKernelRowMajor_loop fuel' data D N colId stride (i + stride)
          (add thread_data (if colId <? D then data (i * D + colId) else zero))
      else Ok thread_data
  end.

(** [sumKernelRowMajor<Type, IdxType, TPB, ColsPerBlk>], one block of a
    two-dimensional grid.  [smu] is the block's shared array, [smu0] what
    it holds when the block starts, and [sched] the order in which the
    threads of the block get their turn at the atomic additions to it.
    The result is the atomic additions to [mu] that the block makes. *)
Definition sumKernelRowMajor (TPB ColsPerBlk : Z) (sched : list Z) (smu0 : Z -> T)
    (data : Z -> T) (D N : Z) (gridDim_x blockIdx_x blockIdx_y : Z)
  : result (list (Z * T)) :=
  let RowsPerBlkPerIter := Z.quot TPB ColsPerBlk in
  let thisColId := fun threadIdx => Z.rem threadIdx ColsPerBlk in
  let thisRowId := fun threadIdx => Z.quot threadIdx ColsPerBlk in
  let colId := fun threadIdx => thisColId threadIdx + blockIdx_y * ColsPerBlk in
  let rowId := fun threadIdx => thisRowId threadIdx + blockIdx_x * RowsPerBlkPerIter in
  let stride := RowsPerBlkPerIter * gridDim_x in
  tds <- gather (map (fun threadIdx =>
                        sumKernelRowMajor_loop (S (Z.to_nat N)) data D N
                          (colId threadIdx) stride (rowId threadIdx) zero)
                     (zseq TPB)) ;;
  let thread_data := fun threadIdx => nth (Z.to_nat threadIdx) tds zero in
  (* if (threadIdx.x < ColsPerBlk) smu[threadIdx.x] = Type(0); __syncthreads(); *)
  let smu1 :=
    store_all (map (fun threadIdx => (threadIdx, zero))
                   (filter (fun threadIdx => threadIdx <? ColsPerBlk) (zseq TPB)))
              smu0 in
  (* raft::myAtomicAdd(smu + thisColId, thread_data); __syncthreads(); *)
  let smu2 :=
    fold_left (fun m threadIdx =>
                 myAtomicAdd m (thisColId threadIdx) (thread_data threadIdx))
              sched smu1 in
  (* if (threadIdx.x < ColsPerBlk) raft::myAtomicAdd(mu + colId, smu[thisColId]); *)
  Ok (map (fun threadIdx => (colId threadIdx, smu2 (thisColId threadIdx)))
          (filter (fun threadIdx => threadIdx <? ColsPerBlk) (zseq TPB))).

(** [for (IdxType i = threadIdx.x; i < N; i += TPB)
       { IdxType idx = colStart + i; thread_data += data[idx]; }] *)
Fixpoint sumKernelColMajor_loop (fuel : nat) (data : Z -> T)
    (N TPB colStart i : Z) (thread_data : T) : result T :=
  match fuel with
  | O => Err OutOfFuel
  | S fuel' =>
      if i <? N then
        let idx := colStart + i in
        sumKernelColMajor_loop fuel' data N TPB colStart (i + TPB)
          (add thread_data (data idx))
      else Ok thread_data
  end.

(** [cub::BlockReduce<Type, TPB>(temp_storage).Sum(thread_data)]: the sum
    of the values of all the threads of the block, which thread 0
    receives. *)
Definition BlockReduce_Sum (thread_data : list T) : T :=
  fold_right add zero thread_data.

(** [sumKernelColMajor<Type, IdxType, TPB>], one block: the store of
    thread 0. *)
Definition sumKernelColMajor (TPB : Z) (data : Z -> T) (D N : Z) (blockIdx : Z)
  : result (list (Z * T)) :=
  let colStart := N * blockIdx in
  tds <- gather (map (fun threadIdx =>
                        sumKernelColMajor_loop (S (Z.to_nat N)) data N TPB colStart
                                               threadIdx zero)
                     (zseq TPB)) ;;
  let acc := BlockReduce_Sum tds in
  Ok (map (fun _ => (blockIdx, acc)) (filter (fun threadIdx => threadIdx =? 0) (zseq TPB))).

(** [cudaMemset(output, 0, sizeof(Type) * D)], for a type whose zero is
    all zero bytes. *)
Definition memset_zero (output : Z -> T) (D : Z) : Z -> T :=
  fun a => if (0 <=? a) && (a <? D) then zero else output a.

(** [sum(output, input, D, N, rowMajor, stream)]: the content of [output]
    when the kernel is launched, and the effects of the kernel on it.
    [sched bx by] is the order of the shared atomic additions in block
    [(bx, by)].  CUDA launches a grid only if it has a block in every
    dimension; the model shows an empty grid as a launch without
    effects. *)
Definition sum (sched : Z -> Z -> list Z) (smu0 : Z -> T)
    (output input : Z -> T) (D N : Z) (rowMajor : bool)
  : result ((Z -> T) * list effect) :=
  let TPB := 256 in
  if rowMajor then
    let RowsPerThread := 4 in
    let ColsPerBlk := 32 in
    let RowsPerBlk := Z.quot TPB ColsPerBlk * RowsPerThread in
    let grid_x := Raft.ceildiv (fun x => x) N RowsPerBlk in
    let grid_y := Raft.ceildiv (fun x => x) D ColsPerBlk in
    let output1 := memset_zero output D in
    reqs <- collect (map (fun blockIdx_y =>
                       collect (map (fun blockIdx_x =>
                                  sumKernelRowMajor TPB ColsPerBlk
                                    (sched blockIdx_x blockIdx_y) smu0
                                    input D N grid_x blockIdx_x blockIdx_y)
                                (zseq grid_x)))
                    (zseq grid_y)) ;;
    Ok (output1, map (fun r => AtomicAdd (fst r) (snd r)) reqs)
  else
    ws <- collect (map (sumKernelColMajor TPB input D N) (zseq D)) ;;
    Ok (output, map (fun w => Store (fst w) (snd w)) ws).

End Sum.

End Stats.


(** ** The engine *)

Section Linewise.

(** [Type], [sizeof(Type)] and the operator [op(matrix element, vector
    elements...)]. *)
Variable T : Type.
Variable sizeofT : Z.
Variable op : T -> list T -> T.

(** The input matrix [in[i]], the pack of argument vectors, the byte
    addresses of [in] and [out], the two device attributes and the
    content of shared memory when a block starts. *)
Variable inm : Z -> T.
Variable vecs : list (Z -> T).
Variables in_addr out_addr : Z.
Variables smCount maxBlockSize : Z.
Variable shm0 : Z -> T.

(** [Linewise::VecElems = VecBytes / sizeof(Type)]. *)
Definition VecElems (VecBytes : Z) : Z := VecBytes / sizeofT.

(** Modelled from the spec: [raft::TxN_t<Type, VecElems>] is declared in
    [raft/vectorized.cuh], which is not part of the sources at hand.  A
    [Vec] holds [VecElems] contiguous scalars ([val.data[k]]) that are
    read or written in one transaction ([val.internal]), at an address
    that is a multiple of the transaction width. *)
Definition Vec : Type := Z -> T.

Definition io_aligned (VecBytes addr : Z) : bool :=
  addr mod (VecElems VecBytes * sizeofT) =? 0.

(** [v.val.internal = __ldcv(in)] *)
Definition ldcv (VecBytes inp : Z) : result Vec :=
  if io_aligned VecBytes (in_addr + inp * sizeofT)
  then Ok (fun k => inm (inp + k))
  else Err Misaligned.

(** The alignment requirement of the wide store to [out]. *)
Definition store_io (VecBytes outp : Z) : result unit :=
  if io_aligned VecBytes (out_addr + outp * sizeofT)
  then Ok tt
  else Err Misaligned.

(** [((args[l] = vecs[rowDiv], l++), ...)] *)
Definition fetch (rowDiv : Z) : list T := map (fun v => v rowDiv) vecs.

(** One application of [op] in [vectorCols]: the output offset it is
    computed for, the loop's [(rowDiv, rowMod)] at that moment, and the
    value that the wide store then writes at that offset. *)
Record event : Type := mk_event
  { ev_pos : Z; ev_rowDiv : Z; ev_rowMod : Z; ev_val : T }.

Definition writes_of (es : list event) : list (Z * T) :=
  map (fun e => (ev_pos e, ev_val e)) es.

(** *** [Linewise::vectorCols] *)

(** [while (rowMod >= rowLen) { rowMod -= rowLen; rowDiv++; update = true; }] *)
Fixpoint vectorCols_while (fuel : nat) (rowLen rowDiv rowMod : Z) (update : bool)
  : result (Z * Z * bool) :=
  match fuel with
  | O => Err OutOfFuel
  | S fuel' =>
      if rowLen <=? rowMod
      then vectorCols_while fuel' rowLen (rowDiv + 1) (rowMod - rowLen) true
      else Ok (rowDiv, rowMod, update)
  end.

(** [for (int k = 0; k < VecElems; k++, rowMod++)]; [n] counts the
    iterations that remain. *)
Fixpoint vectorCols_inner (n : nat) (k outp : Z) (v : Vec)
    (rowLen rowDiv rowMod : Z) (args : list T)
  : (Z * Z * list T) * list event :=
  match n with
  | O => ((rowDiv, rowMod, args), [])
  | S n' =>
      let '(rowDiv1, rowMod1, args1) :=
        if rowMod =? rowLen
        then (rowDiv + 1, 0, fetch (rowDiv + 1))
        else (rowDiv, rowMod, args) in
      let e := mk_event (outp + k) rowDiv1 rowMod1 (op (v k) args1) in
      let '(st, es) :=
        vectorCols_inner n' (k + 1) outp v rowLen rowDiv1 (rowMod1 + 1) args1 in
      (st, e :: es)
  end.

(** [for (; in < in_end; in += AlignWarp::Value, out += AlignWarp::Value,
    rowMod += warpPad)]; [in] and [out] are pointers to [Vec::io_t], so
    that one step moves them by [WarpSize * VecElems] scalars. *)
Fixpoint vectorCols_loop (fuel : nat) (VecBytes outp inp in_end rowLen rowDiv rowMod : Z)
    (args : list T) (update : bool) : result (list event) :=
  match fuel with
  | O => Err OutOfFuel
  | S fuel' =>
      if inp <? in_end then
        v <- ldcv VecBytes inp ;;
        ' (rowDiv1, rowMod1, update1) <-
           vectorCols_while (S (Z.to_nat rowMod)) rowLen rowDiv rowMod update ;;
        let args1 := if update1 then fetch rowDiv1 else args in
        let '((rowDiv2, rowMod2, args2), es) :=
          vectorCols_inner (Z.to_nat (VecElems VecBytes)) 0 outp v
                           rowLen rowDiv1 rowMod1 args1 in
        _ <- store_io VecBytes outp ;;
        rest <- vectorCols_loop fuel' VecBytes
                  (outp + Pow2.Value Raft.WarpSize * VecElems VecBytes)
                  (inp + Pow2.Value Raft.WarpSize * VecElems VecBytes)
                  in_end rowLen rowDiv2
                  (rowMod2 + (Pow2.Value Raft.WarpSize - 1) * VecElems VecBytes)
                  args2 false ;;
        Ok (es ++ rest)
      else Ok []
  end.

(** [args] is uninitialised when the function starts and [update] is
    [true]. *)
Definition vectorCols (VecBytes outp inp in_end rowLen rowDiv rowMod : Z)
  : result (list event) :=
  vectorCols_loop (S (Z.to_nat (in_end - inp))) VecBytes outp inp in_end
                  rowLen rowDiv rowMod [] true.

(** *** [Linewise::vectorRows] *)

(** [for (IdxType i = threadIdx.x + blockIdx.x * BlockSize; i < len; i += d)] *)
Fixpoint vectorRows_loop (fuel : nat) (VecBytes outp inp len d i : Z)
    (args : list Vec) : result (list (Z * T)) :=
  match fuel with
  | O => Err OutOfFuel
  | S fuel' =>
      if i <? len then
        v <- ldcv VecBytes (inp + i * VecElems VecBytes) ;;
        let w := fun k => op (v k) (map (fun a : Vec => a k) args) in
        _ <- store_io VecBytes (outp + i * VecElems VecBytes) ;;
        rest <- vectorRows_loop fuel' VecBytes outp inp len d (i + d) args ;;
        Ok (map (fun k => (outp + i * VecElems VecBytes + k, w k))
                (zseq (VecElems VecBytes)) ++ rest)
      else Ok []
  end.

Definition vectorRows (VecBytes BlockSize gridDim blockIdx threadIdx : Z)
    (outp inp len : Z) (args : list Vec) : result (list (Z * T)) :=
  let d := BlockSize * gridDim in
  vectorRows_loop (S (Z.to_nat len)) VecBytes outp inp len d
                  (threadIdx + blockIdx * BlockSize) args.

(** *** [Linewise::loadVec] *)

(** [while (j >= rowLen) j -= rowLen;] *)
Fixpoint loadVec_while (fuel : nat) (rowLen j : Z) : result Z :=
  match fuel with
  | O => Err OutOfFuel
  | S fuel' =>
      if rowLen <=? j then loadVec_while fuel' rowLen (j - rowLen) else Ok j
  end.

(** The stores to shared memory of one thread, before the barrier:
    [for (int k = threadIdx.x; k < VecElems * BlockSize;
          k += BlockSize, j += BlockSize) { ...; shm[k] = p[j]; }] *)
Fixpoint loadVec_fill (fuel : nat) (VecBytes BlockSize shm : Z) (p : Z -> T)
    (rowLen k j : Z) : result (list (Z * T)) :=
  match fuel with
  | O => Err OutOfFuel
  | S fuel' =>
      if k <? VecElems VecBytes * BlockSize then
        j1 <- loadVec_while (S (Z.to_nat j)) rowLen j ;;
        rest <- loadVec_fill fuel' VecBytes BlockSize shm p rowLen
                  (k + BlockSize) (j1 + BlockSize) ;;
        Ok ((shm + k, p j1) :: rest)
      else Ok []
  end.

Definition loadVec_thread (VecBytes BlockSize shm : Z) (p : Z -> T)
    (blockOffset rowLen threadIdx : Z) : result (list (Z * T)) :=
  loadVec_fill (S (Z.to_nat (VecElems VecBytes))) VecBytes BlockSize shm p rowLen
               threadIdx (blockOffset + threadIdx).

(** After the barrier:
    [out.val.internal = reinterpret_cast<Vec::io_t*>(shm)[threadIdx.x]] *)
Definition loadVec_read (VecBytes shm : Z) (mem : Z -> T) (threadIdx : Z) : Vec :=
  fun k => mem (shm + threadIdx * VecElems VecBytes + k).

(** [loadVec] for a whole block: every thread stores, the block
    synchronises, every thread reads its chunk.  The result is the shared
    memory after the call and the chunk that each thread holds. *)
Definition loadVec (VecBytes BlockSize : Z) (mem : Z -> T) (shm : Z) (p : Z -> T)
    (blockOffset rowLen : Z) : result ((Z -> T) * (Z -> Vec)) :=
  ws <- collect (map (loadVec_thread VecBytes BlockSize shm p blockOffset rowLen)
                     (zseq BlockSize)) ;;
  let mem' := store_all ws mem in
  Ok (mem', loadVec_read VecBytes shm mem').

(** The pack expansion
    [(workOffset ^= workSize, L::loadVec(shm + workOffset, vecs, ...))...]:
    one [loadVec] per argument vector, the region of shared memory
    alternating between offset [0] and offset [workSize].  A region is
    written again only two barriers after it was read. *)
Fixpoint loadVecs (VecBytes BlockSize workSize : Z) (ps : list (Z -> T))
    (workOffset : Z) (mem : Z -> T) (blockOffset rowLen : Z)
  : result (list (Z -> Vec)) :=
  match ps with
  | [] => Ok []
  | p :: ps' =>
      let workOffset1 := Z.lxor workOffset workSize in
      ' (mem1, chunk) <- loadVec VecBytes BlockSize mem workOffset1 p blockOffset rowLen ;;
      rest <- loadVecs VecBytes BlockSize workSize ps' workOffset1 mem1 blockOffset rowLen ;;
      Ok (chunk :: rest)
  end.

(** *** The kernels *)

(** [matrixLinewiseVecColsMainKernel], one thread. *)
Definition matrixLinewiseVecColsMainKernel (VecBytes BlockSize : Z)
    (arrOffset rowLen len elemsPerThread : Z) (blockIdx threadIdx : Z)
  : result (list event) :=
  let t0 := Pow2.mod_ Raft.WarpSize threadIdx in
  let t := arrOffset + elemsPerThread * (blockIdx * BlockSize + threadIdx - t0)
           + t0 * VecElems VecBytes in
  vectorCols VecBytes t t
             (Z.min (t + elemsPerThread * Pow2.Value Raft.WarpSize) len)
             rowLen (Z.quot t rowLen) (Z.rem t rowLen).

(** [matrixLinewiseVecColsTailKernel], one thread; [L::VecElems == 1]. *)
Definition matrixLinewiseVecColsTailKernel
    (arrOffset arrTail rowLen len : Z) (blockIdx threadIdx : Z)
  : result (list event) :=
  let '(threadOffset, elemsPerWarp) :=
    if blockIdx =? 0
    then (threadIdx, b2z (threadIdx <? arrOffset))
    else (arrTail + threadIdx, b2z (arrTail + threadIdx <? len)) in
  let rowDiv := Z.quot threadOffset rowLen in
  let rowMod := Z.rem threadOffset rowLen in
  vectorCols sizeofT threadOffset threadOffset (threadOffset + elemsPerWarp)
             rowLen rowDiv rowMod.

(** [matrixLinewiseVecRowsMainKernel], one block; [outp] and [inp] are
    the start of the aligned part. *)
Definition matrixLinewiseVecRowsMainKernel (VecBytes BlockSize gridDim : Z)
    (outp inp arrOffset rowLen len : Z) (blockIdx : Z) : result (list (Z * T)) :=
  let workSize := VecElems VecBytes * BlockSize in
  let workOffset := workSize in
  let blockOffset := Z.rem (arrOffset + BlockSize * VecElems VecBytes * blockIdx) rowLen in
  chunks <- loadVecs VecBytes BlockSize workSize vecs workOffset shm0 blockOffset rowLen ;;
  collect (map (fun threadIdx =>
                  vectorRows VecBytes BlockSize gridDim blockIdx threadIdx
                             outp inp (Pow2.div (VecElems VecBytes) len)
                             (map (fun c : Z -> Vec => c threadIdx) chunks))
               (zseq BlockSize)).

(** [matrixLinewiseVecRowsTailKernel], one block of the two;
    [L::VecElems == 1] and the block size is [MaxOffset]. *)
Definition matrixLinewiseVecRowsTailKernel (MaxOffset : Z)
    (arrOffset arrTail rowLen len : Z) (blockIdx : Z) : result (list (Z * T)) :=
  let workSize := MaxOffset in
  let workOffset := workSize in
  if blockIdx =? 0 then
    chunks <- loadVecs sizeofT MaxOffset workSize vecs workOffset shm0 0 rowLen ;;
    collect (map (fun threadIdx =>
                    vectorRows sizeofT MaxOffset 2 blockIdx threadIdx
                               0 0 arrOffset
                               (map (fun c : Z -> Vec => c threadIdx) chunks))
                 (zseq MaxOffset))
  else
    chunks <- loadVecs sizeofT MaxOffset workSize vecs workOffset shm0
                (Z.rem arrTail rowLen) rowLen ;;
    collect (map (fun threadIdx =>
                    vectorRows sizeofT MaxOffset 2 blockIdx threadIdx
                               (arrTail - MaxOffset) (arrTail - MaxOffset)
                               (len - arrTail + MaxOffset)
                               (map (fun c : Z -> Vec => c threadIdx) chunks))
                 (zseq MaxOffset)).

(** *** Launches *)

(** A kernel launch [<<<gs, bs, 0, stream>>>] and the stores it performs. *)
Record launch : Type := mk_launch
  { l_grid : Z; l_block : Z; l_writes : list (Z * T) }.

(** A grid of [gs] blocks of [bs] threads that run independently. *)
Definition launch_threads (gs bs : Z) (kernel : Z -> Z -> result (list event))
  : result launch :=
  es <- collect (map (fun blockIdx => collect (map (kernel blockIdx) (zseq bs)))
                     (zseq gs)) ;;
  Ok (mk_launch gs bs (writes_of es)).

(** A grid of [gs] blocks whose threads cooperate through shared memory. *)
Definition launch_blocks (gs bs : Z) (kernel : Z -> result (list (Z * T)))
  : result launch :=
  ws <- collect (map kernel (zseq gs)) ;;
  Ok (mk_launch gs bs ws).

(** [std::max(std::size_t(raft::WarpSize), VecBytes)] *)
Definition MaxOffset (VecBytes : Z) : Z := Z.max Raft.WarpSize VecBytes.

(** The part of the two host functions that locates the aligned body. *)
Definition alignedOff (VecBytes : Z) : Z :=
  Z.quot (Pow2.roundUp VecBytes in_addr - in_addr) sizeofT.

Definition alignedEnd (VecBytes totalLen : Z) : Z :=
  Z.quot (Pow2.roundDown VecBytes (in_addr + totalLen * sizeofT) - in_addr) sizeofT.

(** The grid size of the main kernel of [matrixLinewiseVecCols]. *)
Definition vecCols_grid (VecBytes BlockSize alignedLen : Z) : Z :=
  let occupy := Raft.getOptimalGridSize smCount maxBlockSize BlockSize in
  let maxBlocks :=
    Raft.ceildiv Raft.uint (Raft.uint alignedLen)
                 (Raft.uint (BlockSize * VecElems VecBytes)) in
  Z.min maxBlocks occupy.

(** [matrixLinewiseVecCols]: the launches it enqueues, in stream order. *)
Definition matrixLinewiseVecCols (VecBytes BlockSize rowLen nRows : Z)
  : result (list launch) :=
  let totalLen := rowLen * nRows in
  let aOff := alignedOff VecBytes in
  let aEnd := alignedEnd VecBytes totalLen in
  let alignedLen := aEnd - aOff in
  main <-
    (if 0 <? alignedLen then
       let gs := vecCols_grid VecBytes BlockSize alignedLen in
       let elemsPerThread :=
         Raft.ceildiv (fun x => x) alignedLen (gs * VecElems VecBytes * BlockSize)
         * VecElems VecBytes in
       l <- launch_threads gs BlockSize
              (matrixLinewiseVecColsMainKernel VecBytes BlockSize
                 aOff rowLen alignedLen elemsPerThread) ;;
       Ok [l]
     else Ok []) ;;
  tail <-
    (if alignedLen <? totalLen then
       l <- launch_threads 2 (MaxOffset VecBytes)
              (matrixLinewiseVecColsTailKernel aOff aEnd rowLen totalLen) ;;
       Ok [l]
     else Ok []) ;;
  Ok (main ++ tail).

(** The grid size of the main kernel of [matrixLinewiseVecRows]. *)
Definition block_work_size (VecBytes BlockSize : Z) : Z :=
  Raft.uint (BlockSize * Raft.uint (VecElems VecBytes)).

Definition expected_grid_size (VecBytes BlockSize rowLen : Z) : Z :=
  Raft.uint (Z.quot rowLen
               (Raft.gcd (block_work_size VecBytes BlockSize) (Raft.uint rowLen))).

Definition vecRows_grid (VecBytes BlockSize rowLen nRows : Z) : Z :=
  let totalLen := rowLen * nRows in
  let occupy := Raft.getOptimalGridSize smCount maxBlockSize BlockSize in
  Z.min
    (Raft.ceildiv Raft.uint (Raft.uint totalLen) (block_work_size VecBytes BlockSize))
    (Raft.uint
       (Raft.ceildiv Raft.uint occupy (expected_grid_size VecBytes BlockSize rowLen)
        * expected_grid_size VecBytes BlockSize rowLen)).

(** [matrixLinewiseVecRows]: the launches it enqueues, in stream order. *)
Definition matrixLinewiseVecRows (VecBytes BlockSize rowLen nRows : Z)
  : result (list launch) :=
  let totalLen := rowLen * nRows in
  let aOff := alignedOff VecBytes in
  let aEnd := alignedEnd VecBytes totalLen in
  let alignedLen := aEnd - aOff in
  main <-
    (if 0 <? alignedLen then
       let gs := vecRows_grid VecBytes BlockSize rowLen nRows in
       l <- launch_blocks gs BlockSize
              (matrixLinewiseVecRowsMainKernel VecBytes BlockSize gs
                 aOff aOff aOff rowLen alignedLen) ;;
       Ok [l]
     else Ok []) ;;
  tail <-
    (if alignedLen <? totalLen then
       l <- launch_blocks 2 (MaxOffset VecBytes)
              (matrixLinewiseVecRowsTailKernel (MaxOffset VecBytes)
                 aOff aEnd rowLen totalLen) ;;
       Ok [l]
     else Ok []) ;;
  Ok (main ++ tail).

(** *** [MatrixLinewiseOp<VecBytes, BlockSize>::run] *)

(** The recursion over the template argument [VecBytes]; [dispatch] is
    what the function does once the width is settled. *)
Fixpoint run_with {R : Type} (fuel : nat) (dispatch : Z -> result R) (VecBytes : Z)
  : result R :=
  match fuel with
  | O => Err OutOfFuel
  | S fuel' =>
      if sizeofT <? VecBytes then
        if negb (Pow2.areSameAlignOffsets VecBytes in_addr out_addr)
        then run_with fuel' dispatch (Z.max (Z.shiftr VecBytes 1) sizeofT)
        else dispatch VecBytes
      else dispatch VecBytes
  end.

(** A bound on the depth of the template recursion: every step at least
    halves a width above [sizeof(Type)]. *)
Definition run_fuel (VecBytes : Z) : nat := S (Z.to_nat VecBytes).

(** The width at which [run] calls one of the two host functions. *)
Definition run_width (VecBytes : Z) : result Z :=
  run_with (run_fuel VecBytes) Ok VecBytes.

Definition run (VecBytes BlockSize lineLen nLines : Z) (alongLines : bool)
  : result (list launch) :=
  run_with (run_fuel VecBytes)
    (fun W =>
       if alongLines
       then matrixLinewiseVecRows W BlockSize lineLen nLines
       else matrixLinewiseVecCols W BlockSize lineLen nLines)
    VecBytes.

(** The stores of a call, in stream order, and the output matrix after
    them. *)
Definition all_writes (ls : list launch) : list (Z * T) :=
  flat_map l_writes ls.

(** What the engine is to compute for the element at offset [i]: the
    operator applied to the element and to the entry of every vector
    that belongs to it, the row of [i] when the vectors run across the
    lines and the position of [i] within its row when they run along. *)
Definition index_of (alongLines : bool) (rowLen i : Z) : Z :=
  if alongLines then i mod rowLen else i / rowLen.

Definition spec_out (alongLines : bool) (rowLen i : Z) : T :=
  op (inm i) (map (fun v => v (index_of alongLines rowLen i)) vecs).

(** The application of [op] in [vectorCols] as division would have it:
    for the element at offset [pin] of the input, stored at [pout]. *)
Definition event_at (rowLen pout pin : Z) : event :=
  mk_event pout (pin / rowLen) (pin mod rowLen)
           (op (inm pin) (fetch (pin / rowLen))).

(** ** Lists of indices, collected results, stores *)

Lemma in_zseq (n k : Z) : In k (zseq n) <-> 0 <= k < n.
Proof.
  unfold zseq. rewrite in_map_iff. split.
  - intros (i & <- & Hi). apply in_seq in Hi. lia.
  - intros Hk. exists (Z.to_nat k). split; [lia|]. apply in_seq. lia.
Qed.

Lemma zseq_nil (n : Z) : n <= 0 -> zseq n = [].
Proof.
  intros Hn. unfold zseq. replace (Z.to_nat n) with O by lia. reflexivity.
Qed.

Lemma length_zseq (n : Z) : length (zseq n) = Z.to_nat n.
Proof. unfold zseq. rewrite length_map, length_seq. reflexivity. Qed.

Lemma bind_ok {A B : Type} (r : result A) (k : A -> result B) (b : B) :
  bind r k = Ok b <-> exists a, r = Ok a /\ k a = Ok b.
Proof.
  destruct r as [a|f]; simpl; split.
  - intros H. exists a. auto.
  - intros (a' & Ha & Hk). injection Ha as ->. exact Hk.
  - discriminate.
  - intros (a' & Ha & _). discriminate.
Qed.

(** Collected results are the results of the members, all of which have
    to be there. *)
Lemma collect_ok {A B : Type} (f : B -> result (list A)) (g : B -> list A) (l : list B) :
  (forall b, In b l -> f b = Ok (g b)) ->
  collect (map f l) = Ok (flat_map g l).
Proof.
  induction l as [|b l IH]; intros H; simpl.
  - reflexivity.
  - rewrite (H b (or_introl eq_refl)). simpl.
    rewrite IH by (intros b' Hb'; apply H; right; exact Hb').
    reflexivity.
Qed.

Lemma collect_exists {A B : Type} (f : B -> result (list A)) (l : list B) :
  (forall b, In b l -> exists x, f b = Ok x) ->
  exists xs, collect (map f l) = Ok xs /\
    forall a, In a xs <-> exists b x, In b l /\ f b = Ok x /\ In a x.
Proof.
  induction l as [|b l IH]; intros H; simpl.
  - exists []. split; [reflexivity|]. intros a. split; [intros []|].
    intros (b & x & [] & _).
  - destruct (H b (or_introl eq_refl)) as (x & Hx).
    destruct IH as (xs & Hxs & Hin); [intros b' Hb'; apply H; right; exact Hb'|].
    exists (x ++ xs). rewrite Hx, Hxs. simpl. split; [reflexivity|].
    intros a. rewrite in_app_iff, Hin. split.
    + intros [Ha | (b' & x' & Hb' & Hf & Ha)].
      * exists b, x. auto.
      * exists b', x'. auto.
    + intros (b' & x' & [<- | Hb'] & Hf & Ha).
      * left. rewrite Hx in Hf. injection Hf as ->. exact Ha.
      * right. exists b', x'. auto.
Qed.

Lemma store_all_app {V : Type} (ws1 ws2 : list (Z * V)) (m : Z -> V) :
  store_all (ws1 ++ ws2) m = store_all ws2 (store_all ws1 m).
Proof. unfold store_all. apply fold_left_app. Qed.

Lemma store_all_notin {V : Type} (ws : list (Z * V)) (m : Z -> V) (a : Z) :
  ~ In a (map fst ws) -> store_all ws m a = m a.
Proof.
  revert m. induction ws as [|[b v] ws IH]; intros m Ha.
  - reflexivity.
  - cbn [map fst In] in Ha. cbn [store_all fold_left fst snd].
    fold (store_all ws (fun a0 => if a0 =? b then v else m a0)).
    rewrite IH by (intros H; apply Ha; right; exact H).
    destruct (Z.eqb_spec a b) as [E | E]; [|reflexivity].
    exfalso. apply Ha. left. symmetry. exact E.
Qed.

(** When all the stores to an address carry the same value, the order of
    the stores does not matter for what the address holds at the end. *)
Lemma store_all_determined {V : Type} (ws : list (Z * V)) (m : Z -> V) (a : Z) (x : V) :
  (forall v, In (a, v) ws -> v = x) ->
  In a (map fst ws) ->
  store_all ws m a = x.
Proof.
  revert m. induction ws as [|[b v] ws IH]; intros m Hval Hin.
  - destruct Hin.
  - cbn [map fst In] in Hin. cbn [store_all fold_left fst snd].
    fold (store_all ws (fun a0 => if a0 =? b then v else m a0)).
    destruct (in_dec Z.eq_dec a (map fst ws)) as [Hi | Hni].
    + apply IH; [|exact Hi]. intros v' Hv'. apply Hval. right. exact Hv'.
    + rewrite store_all_notin by exact Hni.
      destruct Hin as [Hb | Hi]; [|exfalso; apply Hni; exact Hi].
      rewrite Hb, Z.eqb_refl.
      apply Hval. left. rewrite Hb. reflexivity.
Qed.

(** ** The width that [run] settles on *)

Lemma run_with_settles (fuel : nat) (W : Z) :
  1 <= sizeofT <= W ->
  (Z.to_nat W < fuel)%nat ->
  exists W',
    sizeofT <= W' <= W /\
    (Pow2.areSameAlignOffsets W' in_addr out_addr = true \/ W' = sizeofT) /\
    forall (R : Type) (dispatch : Z -> result R),
      run_with fuel dispatch W = dispatch W'.
Proof.
  revert W. induction fuel as [|fuel IH]; intros W Hs Hfuel; [lia|].
  cbn [run_with].
  destruct (Z.ltb_spec sizeofT W) as [Hlt | Hge].
  - destruct (Pow2.areSameAlignOffsets W in_addr out_addr) eqn:Hsame; cbn [negb].
    + exists W. split; [lia|]. split; [left; exact Hsame|]. reflexivity.
    + assert (Hhalf : Z.shiftr W 1 < W).
      { rewrite Z.shiftr_div_pow2 by lia. change (2 ^ 1) with 2.
        apply Z.div_lt; lia. }
      destruct (IH (Z.max (Z.shiftr W 1) sizeofT)) as (W' & HW' & Hal & Hrun);
        [lia | lia |].
      exists W'. split; [lia|]. split; [exact Hal|]. exact Hrun.
  - exists W. split; [lia|]. split; [right; lia|]. reflexivity.
Qed.

(** C4.  Whatever the addresses of [in] and [out] and the size of the
    scalar type (not above the configured width), the recursion of
    [MatrixLinewiseOp::run] over the vector width ends; the width [W] at
    which it calls the host function lies between [sizeof(Type)] and the
    configured width, and either [in] and [out] have the same remainder
    modulo [W] or [W] is [sizeof(Type)], the scalar width being the
    narrowest the recursion can reach. *)
Theorem run_dispatch_width (VecBytes BlockSize lineLen nLines : Z) (alongLines : bool) :
  1 <= sizeofT <= VecBytes ->
  exists W,
    run_width VecBytes = Ok W /\
    run VecBytes BlockSize lineLen nLines alongLines =
      (if alongLines
       then matrixLinewiseVecRows W BlockSize lineLen nLines
       else matrixLinewiseVecCols W BlockSize lineLen nLines) /\
    sizeofT <= W <= VecBytes /\
    (Pow2.areSameAlignOffsets W in_addr out_addr = true \/ W = sizeofT).
Proof.
  intros Hs.
  destruct (run_with_settles (run_fuel VecBytes) VecBytes Hs) as (W & HW & Hal & Hrun).
  { unfold run_fuel. lia. }
  exists W. unfold run_width, run. rewrite !Hrun. auto.
Qed.

(** ** [loadVec]: staging a slice of a vector through shared memory *)

Lemma loadVec_while_spec (fuel : nat) (rowLen j : Z) :
  1 <= rowLen ->
  (Z.to_nat j < fuel)%nat ->
  loadVec_while fuel rowLen j = Ok (if j <? 0 then j else j mod rowLen).
Proof.
  intros Hr. revert j. induction fuel as [|fuel IH]; intros j Hfuel; [lia|].
  cbn [loadVec_while]. destruct (Z.leb_spec rowLen j) as [Hge | Hlt].
  - rewrite IH by lia.
    destruct (Z.ltb_spec (j - rowLen) 0); [lia|].
    destruct (Z.ltb_spec j 0); [lia|].
    f_equal. replace j with ((j - rowLen) + 1 * rowLen) at 2 by lia.
    rewrite Z.mod_add by lia. reflexivity.
  - destruct (Z.ltb_spec j 0); [reflexivity|].
    rewrite Z.mod_small by lia. reflexivity.
Qed.

Lemma loadVec_fill_step (fuel : nat) (VecBytes BlockSize shm : Z) (p : Z -> T)
    (rowLen k j : Z) :
  loadVec_fill (S fuel) VecBytes BlockSize shm p rowLen k j =
  if k <? VecElems VecBytes * BlockSize then
    j1 <- loadVec_while (S (Z.to_nat j)) rowLen j ;;
    rest <- loadVec_fill fuel VecBytes BlockSize shm p rowLen
              (k + BlockSize) (j1 + BlockSize) ;;
    Ok ((shm + k, p j1) :: rest)
  else Ok [].
Proof. reflexivity. Qed.

Section LoadVecThread.

Variables (VecBytes BlockSize shm blockOffset rowLen threadIdx : Z).
Variable p : Z -> T.
Hypothesis rowLen_pos : 1 <= rowLen.
Hypothesis thread_in_block : 0 <= threadIdx < BlockSize.

(** The stores of a thread from the iteration [m] on: one per slot
    [threadIdx + m' * BlockSize], each with the element of the vector
    that the slot stands for. *)
Lemma loadVec_fill_spec (n : nat) (m j : Z) :
  0 <= m ->
  Z.of_nat n = Z.max 0 (VecElems VecBytes - m) ->
  j mod rowLen = (blockOffset + (threadIdx + m * BlockSize)) mod rowLen ->
  exists ws,
    loadVec_fill (S n) VecBytes BlockSize shm p rowLen (threadIdx + m * BlockSize) j
      = Ok ws /\
    (forall m', m <= m' < VecElems VecBytes ->
                In (shm + (threadIdx + m' * BlockSize)) (map fst ws)) /\
    (forall a v, In (a, v) ws ->
       exists m', m <= m' < VecElems VecBytes /\
                  a = shm + (threadIdx + m' * BlockSize) /\
                  (0 <= j ->
                   v = p ((blockOffset + (threadIdx + m' * BlockSize)) mod rowLen))).
Proof.
  revert m j. induction n as [|n IH]; intros m j Hm Hn Hj.
  - rewrite loadVec_fill_step.
    destruct (Z.ltb_spec (threadIdx + m * BlockSize) (VecElems VecBytes * BlockSize));
      [nia|].
    exists []. split; [reflexivity|]. split.
    + intros m' Hm'. lia.
    + intros a v [].
  - rewrite loadVec_fill_step.
    destruct (Z.ltb_spec (threadIdx + m * BlockSize) (VecElems VecBytes * BlockSize));
      [|nia].
    rewrite loadVec_while_spec by lia. cbn [bind].
    set (j1 := if j <? 0 then j else j mod rowLen).
    assert (Hj1 : j1 mod rowLen = j mod rowLen).
    { unfold j1. destruct (j <? 0); [reflexivity|]. apply Z.mod_mod. lia. }
    destruct (IH (m + 1) (j1 + BlockSize)) as (ws & Hws & Hcov & Hval).
    { lia. }
    { lia. }
    { rewrite <- Z.add_mod_idemp_l, Hj1, Hj, Z.add_mod_idemp_l by lia.
      f_equal. ring. }
    replace (threadIdx + (m + 1) * BlockSize)
      with (threadIdx + m * BlockSize + BlockSize) in Hws by ring.
    rewrite Hws. cbn [bind].
    eexists. split; [reflexivity|]. split.
    + intros m' Hm'. cbn [map fst].
      destruct (Z.eq_dec m' m) as [-> | Hne]; [left; reflexivity|].
      right. apply Hcov. lia.
    + intros a v [Heq | Hin].
      * injection Heq as <- <-. exists m. split; [lia|]. split; [reflexivity|].
        intros Hj0. unfold j1. destruct (Z.ltb_spec j 0); [lia|].
        rewrite Hj. reflexivity.
      * destruct (Hval a v Hin) as (m' & Hm' & Ha & Hv).
        exists m'. split; [lia|]. split; [exact Ha|].
        intros Hj0. apply Hv. unfold j1.
        destruct (Z.ltb_spec j 0); [lia|].
        pose proof (Z.mod_pos_bound j rowLen). lia.
Qed.

Lemma loadVec_thread_spec :
  exists ws,
    loadVec_thread VecBytes BlockSize shm p blockOffset rowLen threadIdx = Ok ws /\
    (forall m, 0 <= m < VecElems VecBytes ->
               In (shm + (threadIdx + m * BlockSize)) (map fst ws)) /\
    (forall a v, In (a, v) ws ->
       exists m, 0 <= m < VecElems VecBytes /\
                 a = shm + (threadIdx + m * BlockSize) /\
                 (0 <= blockOffset + threadIdx ->
                  v = p ((blockOffset + (threadIdx + m * BlockSize)) mod rowLen))).
Proof.
  unfold loadVec_thread.
  destruct (loadVec_fill_spec (Z.to_nat (VecElems VecBytes)) 0 (blockOffset + threadIdx))
    as (ws & Hws & Hcov & Hval).
  { lia. }
  { lia. }
  { f_equal. ring. }
  replace (threadIdx + 0 * BlockSize) with threadIdx in Hws by ring.
  exists ws. auto.
Qed.

End LoadVecThread.

(** The chunk that a thread reads after the barrier; the slot
    [threadIdx * VecElems + k] was written by the thread
    [(threadIdx * VecElems + k) mod BlockSize] of the block. *)
Lemma loadVec_spec (VecBytes BlockSize : Z) (mem : Z -> T) (shm : Z) (p : Z -> T)
    (blockOffset rowLen : Z) :
  1 <= rowLen ->
  0 < BlockSize ->
  exists mem' chunk,
    loadVec VecBytes BlockSize mem shm p blockOffset rowLen = Ok (mem', chunk) /\
    forall t k,
      0 <= t < BlockSize -> 0 <= k < VecElems VecBytes ->
      0 <= blockOffset + (t * VecElems VecBytes + k) mod BlockSize ->
      chunk t k = p ((blockOffset + t * VecElems VecBytes + k) mod rowLen).
Proof.
  intros Hr Hb. unfold loadVec.
  destruct (collect_exists
              (loadVec_thread VecBytes BlockSize shm p blockOffset rowLen)
              (zseq BlockSize)) as (ws & Hws & Hin).
  { intros t Ht. apply in_zseq in Ht.
    destruct (loadVec_thread_spec VecBytes BlockSize shm blockOffset rowLen t p Hr Ht)
      as (x & Hx & _). exists x. exact Hx. }
  rewrite Hws. cbn [bind]. do 2 eexists. split; [reflexivity|].
  intros t k Ht Hk Hoff. unfold loadVec_read.
  set (q := t * VecElems VecBytes + k).
  assert (Hq : 0 <= q < VecElems VecBytes * BlockSize) by (unfold q; nia).
  pose proof (Z.mod_pos_bound q BlockSize Hb) as Hqm.
  pose proof (Z.div_mod q BlockSize ltac:(lia)) as Hqd.
  assert (Hqq : 0 <= q / BlockSize < VecElems VecBytes).
  { split; [apply Z.div_pos; lia|]. apply Z.div_lt_upper_bound; lia. }
  replace (shm + t * VecElems VecBytes + k) with (shm + q) by (unfold q; ring).
  replace (blockOffset + t * VecElems VecBytes + k) with (blockOffset + q)
    by (unfold q; ring).
  apply store_all_determined.
  - intros v Hv. apply Hin in Hv. destruct Hv as (t' & x & Ht' & Hx & Hv).
    apply in_zseq in Ht'.
    destruct (loadVec_thread_spec VecBytes BlockSize shm blockOffset rowLen t' p Hr Ht')
      as (x' & Hx' & _ & Hval).
    rewrite Hx in Hx'. injection Hx' as <-.
    destruct (Hval _ _ Hv) as (m & Hm & Ha & Hpv).
    assert (Hqe : q = t' + m * BlockSize) by lia.
    assert (Ht'q : t' = q mod BlockSize).
    { rewrite Hqe, Z.mod_add, Z.mod_small by lia. reflexivity. }
    rewrite Hqe. apply Hpv. rewrite Ht'q. exact Hoff.
  - destruct (loadVec_thread_spec VecBytes BlockSize shm blockOffset rowLen
                (q mod BlockSize) p Hr Hqm) as (x & Hx & Hcov & _).
    specialize (Hcov (q / BlockSize) Hqq).
    replace (shm + (q mod BlockSize + q / BlockSize * BlockSize)) with (shm + q)
      in Hcov by lia.
    apply in_map_iff in Hcov. destruct Hcov as ([a v] & Ha & Hav).
    simpl in Ha. subst a.
    apply in_map_iff. exists (shm + q, v). split; [reflexivity|].
    apply Hin. exists (q mod BlockSize), x. split; [apply in_zseq; lia|]. auto.
Qed.

(** C5.  For a vector of [rowLen >= 1] elements, any offset of the block
    into it and any thread [t] of the block, [loadVec] ends without a
    fault and the chunk it gives to thread [t] holds, in its [k]-th
    scalar, [p[(blockOffset + t * VecElems + k) mod rowLen]]: the striped
    scalar stores with wrap-around, the barrier and the contiguous wide
    read together hand each thread the slice it needs, whatever shared
    memory held before. *)
Theorem loadVec_chunk (VecBytes BlockSize : Z) (mem : Z -> T) (shm : Z) (p : Z -> T)
    (blockOffset rowLen : Z) :
  1 <= rowLen ->
  0 <= blockOffset ->
  0 < BlockSize ->
  exists mem' chunk,
    loadVec VecBytes BlockSize mem shm p blockOffset rowLen = Ok (mem', chunk) /\
    forall t k,
      0 <= t < BlockSize -> 0 <= k < VecElems VecBytes ->
      chunk t k = p ((blockOffset + t * VecElems VecBytes + k) mod rowLen).
Proof.
  intros Hr Ho Hb.
  destruct (loadVec_spec VecBytes BlockSize mem shm p blockOffset rowLen Hr Hb)
    as (mem' & chunk & Hl & Hc).
  exists mem', chunk. split; [exact Hl|].
  intros t k Ht Hk. apply Hc; [exact Ht | exact Hk |].
  pose proof (Z.mod_pos_bound (t * VecElems VecBytes + k) BlockSize Hb). lia.
Qed.

(** ** [vectorCols]: the running pair [(rowDiv, rowMod)] *)

Lemma vectorCols_loop_step (fuel : nat) (VecBytes outp inp in_end rowLen rowDiv rowMod : Z)
    (args : list T) (update : bool) :
  vectorCols_loop (S fuel) VecBytes outp inp in_end rowLen rowDiv rowMod args update =
  if inp <? in_end then
    v <- ldcv VecBytes inp ;;
    ' (rowDiv1, rowMod1, update1) <-
       vectorCols_while (S (Z.to_nat rowMod)) rowLen rowDiv rowMod update ;;
    let args1 := if update1 then fetch rowDiv1 else args in
    let '((rowDiv2, rowMod2, args2), es) :=
      vectorCols_inner (Z.to_nat (VecElems VecBytes)) 0 outp v
                       rowLen rowDiv1 rowMod1 args1 in
    _ <- store_io VecBytes outp ;;
    rest <- vectorCols_loop fuel VecBytes
              (outp + Pow2.Value Raft.WarpSize * VecElems VecBytes)
              (inp + Pow2.Value Raft.WarpSize * VecElems VecBytes)
              in_end rowLen rowDiv2
              (rowMod2 + (Pow2.Value Raft.WarpSize - 1) * VecElems VecBytes)
              args2 false ;;
    Ok (es ++ rest)
  else Ok [].
Proof. reflexivity. Qed.

(** The [while] loop leaves the position [rowDiv * rowLen + rowMod]
    unchanged, brings [rowMod] below [rowLen], and raises [update] when
    it moved to another row. *)
Lemma vectorCols_while_spec (fuel : nat) (rowLen rowDiv rowMod : Z) (update : bool) :
  1 <= rowLen ->
  (Z.to_nat rowMod < fuel)%nat ->
  exists rowDiv1 rowMod1 update1,
    vectorCols_while fuel rowLen rowDiv rowMod update = Ok (rowDiv1, rowMod1, update1) /\
    rowDiv1 * rowLen + rowMod1 = rowDiv * rowLen + rowMod /\
    rowMod1 < rowLen /\
    (0 <= rowMod -> 0 <= rowMod1) /\
    (update1 = true \/ (rowDiv1 = rowDiv /\ rowMod1 = rowMod /\ update1 = update)).
Proof.
  intros Hr. revert rowDiv rowMod update.
  induction fuel as [|fuel IH]; intros rowDiv rowMod update Hfuel; [lia|].
  cbn [vectorCols_while]. destruct (Z.leb_spec rowLen rowMod) as [Hge | Hlt].
  - destruct (IH (rowDiv + 1) (rowMod - rowLen) true) as (d & m & u & Hw & Hpos & Hm & Hnn & Hu);
      [lia|].
    exists d, m, u. split; [exact Hw|]. split; [lia|]. split; [exact Hm|].
    split; [lia|]. left. destruct Hu as [Hu | (_ & _ & Hu)]; exact Hu.
  - exists rowDiv, rowMod, update. repeat split; try lia. right. auto.
Qed.

(** The inner loop over the scalars of one wide chunk, entered at the
    scalar [k] with [rowDiv * rowLen + rowMod] being the offset of that
    scalar: every application of [op] sees the pair that division gives,
    however many row boundaries the chunk crosses. *)
Lemma vectorCols_inner_spec (n : nat) (k outp inp rowLen rowDiv rowMod : Z)
    (args : list T) :
  1 <= rowLen ->
  rowDiv * rowLen + rowMod = inp + k ->
  0 <= rowMod <= rowLen ->
  args = fetch rowDiv ->
  exists rowDiv2 rowMod2 args2,
    vectorCols_inner n k outp (fun i => inm (inp + i)) rowLen rowDiv rowMod args
      = ((rowDiv2, rowMod2, args2),
         map (fun i => event_at rowLen (outp + (k + Z.of_nat i)) (inp + (k + Z.of_nat i)))
             (seq 0 n)) /\
    rowDiv2 * rowLen + rowMod2 = inp + k + Z.of_nat n /\
    0 <= rowMod2 <= rowLen /\
    args2 = fetch rowDiv2.
Proof.
  intros Hr. revert k rowDiv rowMod args.
  induction n as [|n IH]; intros k rowDiv rowMod args Hpos Hm Hargs.
  - exists rowDiv, rowMod, args. cbn [vectorCols_inner seq map].
    repeat split; try lia. exact Hargs.
  - cbn [vectorCols_inner].
    set (st := if rowMod =? rowLen
               then (rowDiv + 1, 0, fetch (rowDiv + 1))
               else (rowDiv, rowMod, args)).
    assert (Hst : exists d m a, st = (d, m, a) /\ d * rowLen + m = inp + k /\
                                0 <= m < rowLen /\ a = fetch d).
    { unfold st. destruct (Z.eqb_spec rowMod rowLen) as [He | Hne].
      - exists (rowDiv + 1), 0, (fetch (rowDiv + 1)). repeat split; lia.
      - exists rowDiv, rowMod, args. repeat split; try lia. exact Hargs. }
    destruct Hst as (d & m & a & -> & Hdm & Hmr & ->).
    destruct (IH (k + 1) d (m + 1) (fetch d)) as (d2 & m2 & a2 & Hin & Hpos2 & Hm2 & Ha2);
      [lia | lia | reflexivity |].
    rewrite Hin. exists d2, m2, a2. split.
    + f_equal. cbn [seq map]. f_equal.
      * unfold event_at.
        assert (Hd : (inp + k) / rowLen = d).
        { symmetry. apply (Z.div_unique_pos _ _ d m); lia. }
        assert (Hmm : (inp + k) mod rowLen = m).
        { symmetry. apply (Z.mod_unique_pos _ _ d m); lia. }
        replace (k + Z.of_nat 0) with k by lia.
        rewrite Hd, Hmm. reflexivity.
      * rewrite <- seq_shift, map_map. apply map_ext. intros i.
        f_equal; lia.
    + split; [lia|]. split; [exact Hm2 | exact Ha2].
Qed.

Lemma io_aligned_next (VecBytes a n : Z) :
  io_aligned VecBytes a = true ->
  io_aligned VecBytes (a + n * VecElems VecBytes * sizeofT) = true.
Proof.
  unfold io_aligned. intros H. apply Z.eqb_eq in H. apply Z.eqb_eq.
  replace (a + n * VecElems VecBytes * sizeofT)
    with (a + n * (VecElems VecBytes * sizeofT)) by ring.
  destruct (Z.eq_dec (VecElems VecBytes * sizeofT) 0) as [E | E].
  - rewrite E in *. rewrite Z.mul_0_r, Z.add_0_r. exact H.
  - rewrite Z.mod_add by exact E. exact H.
Qed.

(** The outer loop of [vectorCols] from a state in which the running pair
    stands for the offset [inp]: the function ends without a fault, and
    it applies [op] exactly to the scalars of the chunks at
    [inp + j * WarpSize * VecElems] below [in_end], each with the row
    that division gives. *)
Lemma vectorCols_loop_spec (fuel : nat) (VecBytes outp inp in_end rowLen rowDiv rowMod : Z)
    (args : list T) (update : bool) :
  1 <= rowLen ->
  1 <= VecElems VecBytes ->
  io_aligned VecBytes (in_addr + inp * sizeofT) = true ->
  io_aligned VecBytes (out_addr + outp * sizeofT) = true ->
  rowDiv * rowLen + rowMod = inp ->
  0 <= rowMod ->
  (update = false -> args = fetch rowDiv) ->
  (Z.to_nat (in_end - inp) < fuel)%nat ->
  exists es,
    vectorCols_loop fuel VecBytes outp inp in_end rowLen rowDiv rowMod args update = Ok es /\
    forall e, In e es <->
      exists j k, 0 <= j /\ inp + j * (32 * VecElems VecBytes) < in_end /\
                  0 <= k < VecElems VecBytes /\
                  e = event_at rowLen (outp + j * (32 * VecElems VecBytes) + k)
                                      (inp + j * (32 * VecElems VecBytes) + k).
Proof.
  intros Hr Hve. revert outp inp rowDiv rowMod args update.
  induction fuel as [|fuel IH];
    intros outp inp rowDiv rowMod args update Hain Haout Hpos Hm Hargs Hfuel; [lia|].
  rewrite vectorCols_loop_step.
  destruct (Z.ltb_spec inp in_end) as [Hlt | Hge].
  2:{ exists []. split; [reflexivity|]. intros e. split; [intros []|].
      intros (j & k & Hj & Hb & _). nia. }
  unfold ldcv. rewrite Hain. cbn [bind].
  destruct (vectorCols_while_spec (S (Z.to_nat rowMod)) rowLen rowDiv rowMod update Hr)
    as (d1 & m1 & u1 & Hw & Hpos1 & Hm1 & Hnn1 & Hu1); [lia|].
  rewrite Hw. cbn [bind].
  set (args1 := if u1 then fetch d1 else args).
  assert (Hargs1 : args1 = fetch d1).
  { unfold args1. destruct Hu1 as [-> | (-> & _ & ->)]; [reflexivity|].
    destruct update; [reflexivity|]. apply Hargs. reflexivity. }
  destruct (vectorCols_inner_spec (Z.to_nat (VecElems VecBytes)) 0 outp inp
              rowLen d1 m1 args1 Hr)
    as (d2 & m2 & a2 & Hin & Hpos2 & Hm2 & Ha2); [lia | lia | exact Hargs1 |].
  rewrite Hin. unfold store_io. rewrite Haout. cbn [bind].
  unfold Pow2.Value, Raft.WarpSize.
  destruct (IH (outp + 32 * VecElems VecBytes) (inp + 32 * VecElems VecBytes)
               d2 (m2 + (32 - 1) * VecElems VecBytes) a2 false)
    as (rest & Hrest & Hinrest).
  { replace ((inp + 32 * VecElems VecBytes) * sizeofT)
      with (inp * sizeofT + 32 * VecElems VecBytes * sizeofT) by ring.
    rewrite Z.add_assoc. apply io_aligned_next. exact Hain. }
  { replace ((outp + 32 * VecElems VecBytes) * sizeofT)
      with (outp * sizeofT + 32 * VecElems VecBytes * sizeofT) by ring.
    rewrite Z.add_assoc. apply io_aligned_next. exact Haout. }
  { lia. }
  { lia. }
  { intros _. exact Ha2. }
  { lia. }
  rewrite Hrest. cbn [bind]. eexists. split; [reflexivity|].
  intros e. rewrite in_app_iff, in_map_iff, Hinrest. split.
  - intros [(i & <- & Hi) | (j & k & Hj & Hb & Hk & ->)].
    + apply in_seq in Hi. exists 0, (Z.of_nat i).
      split; [lia|]. split; [lia|]. split; [lia|]. f_equal; lia.
    + exists (j + 1), k. split; [lia|]. split; [lia|]. split; [lia|]. f_equal; lia.
  - intros (j & k & Hj & Hb & Hk & ->).
    destruct (Z.eq_dec j 0) as [-> | Hne].
    + left. exists (Z.to_nat k). split; [f_equal; lia|]. apply in_seq. lia.
    + right. exists (j - 1), k. split; [lia|]. split; [lia|]. split; [lia|].
      f_equal; lia.
Qed.

(** The offset at which a thread of the main kernel of the blocked
    arrangement starts. *)
Lemma mainKernel_start_nonneg (BlockSize arrOffset elemsPerThread VE blockIdx threadIdx : Z) :
  0 <= BlockSize -> 0 <= arrOffset -> 0 <= elemsPerThread -> 0 <= VE ->
  0 <= blockIdx -> 0 <= threadIdx ->
  arrOffset <=
  arrOffset + elemsPerThread * (blockIdx * BlockSize + threadIdx - threadIdx mod 32)
  + threadIdx mod 32 * VE.
Proof.
  intros. pose proof (Z.mod_pos_bound threadIdx 32 ltac:(lia)).
  pose proof (Z.mod_le threadIdx 32 ltac:(lia) ltac:(lia)). nia.
Qed.

Lemma matrixLinewiseVecColsMainKernel_spec
    (VecBytes BlockSize arrOffset rowLen len elemsPerThread c blockIdx threadIdx : Z) :
  1 <= rowLen ->
  1 <= VecElems VecBytes ->
  0 <= BlockSize -> 0 <= arrOffset -> 0 <= c ->
  elemsPerThread = c * VecElems VecBytes ->
  0 <= blockIdx -> 0 <= threadIdx ->
  io_aligned VecBytes (in_addr + arrOffset * sizeofT) = true ->
  io_aligned VecBytes (out_addr + arrOffset * sizeofT) = true ->
  let t := arrOffset + elemsPerThread * (blockIdx * BlockSize + threadIdx - threadIdx mod 32)
           + threadIdx mod 32 * VecElems VecBytes in
  exists es,
    matrixLinewiseVecColsMainKernel VecBytes BlockSize arrOffset rowLen len
                                    elemsPerThread blockIdx threadIdx = Ok es /\
    forall e, In e es <->
      exists j k, 0 <= j /\
                  t + j * (32 * VecElems VecBytes) < Z.min (t + elemsPerThread * 32) len /\
                  0 <= k < VecElems VecBytes /\
                  e = event_at rowLen (t + j * (32 * VecElems VecBytes) + k)
                                      (t + j * (32 * VecElems VecBytes) + k).
Proof.
  intros Hr Hve Hbs Hoff Hc Hept Hb Ht Hain Haout t.
  assert (Ht0 : arrOffset <= t)
    by (apply mainKernel_start_nonneg; nia).
  assert (Hteq : t * sizeofT = arrOffset * sizeofT
                 + (c * (blockIdx * BlockSize + threadIdx - threadIdx mod 32)
                    + threadIdx mod 32) * VecElems VecBytes * sizeofT).
  { unfold t. rewrite Hept. ring. }
  unfold matrixLinewiseVecColsMainKernel, vectorCols, Pow2.mod_, Pow2.Value, Raft.WarpSize.
  fold t.
  apply vectorCols_loop_spec; try assumption.
  - rewrite Hteq, Z.add_assoc. apply io_aligned_next. exact Hain.
  - rewrite Hteq, Z.add_assoc. apply io_aligned_next. exact Haout.
  - rewrite Z.quot_div_nonneg, Z.rem_mod_nonneg by lia.
    pose proof (Z.div_mod t rowLen ltac:(lia)). lia.
  - apply Z.rem_nonneg; lia.
  - discriminate.
  - lia.
Qed.

(** C3.  In every thread of the main kernel of the blocked arrangement
    [vectorCols] ends without a fault, and at each application of [op] the
    incrementally maintained [(rowDiv, rowMod)] is the pair
    [(p / rowLen, p % rowLen)] of the flattened offset [p] of the element
    and the vector entries combined with the element are [vecs[p / rowLen]];
    [rowLen] is any positive length, in particular one below [VecElems],
    where a wide chunk crosses several row boundaries. *)
Theorem vectorCols_pair_is_division
    (VecBytes BlockSize arrOffset rowLen len elemsPerThread c blockIdx threadIdx : Z) :
  1 <= rowLen ->
  1 <= VecElems VecBytes ->
  0 <= BlockSize -> 0 <= arrOffset -> 0 <= c ->
  elemsPerThread = c * VecElems VecBytes ->
  0 <= blockIdx -> 0 <= threadIdx ->
  io_aligned VecBytes (in_addr + arrOffset * sizeofT) = true ->
  io_aligned VecBytes (out_addr + arrOffset * sizeofT) = true ->
  exists es,
    matrixLinewiseVecColsMainKernel VecBytes BlockSize arrOffset rowLen len
                                    elemsPerThread blockIdx threadIdx = Ok es /\
    forall e, In e es ->
      ev_rowDiv e = Z.quot (ev_pos e) rowLen /\
      ev_rowMod e = Z.rem (ev_pos e) rowLen /\
      ev_val e = op (inm (ev_pos e))
                    (map (fun v => v (Z.quot (ev_pos e) rowLen)) vecs).
Proof.
  intros Hr Hve Hbs Hoff Hc Hept Hb Ht Hain Haout.
  destruct (matrixLinewiseVecColsMainKernel_spec VecBytes BlockSize arrOffset rowLen len
              elemsPerThread c blockIdx threadIdx Hr Hve Hbs Hoff Hc Hept Hb Ht Hain Haout)
    as (es & Hes & Hin).
  exists es. split; [exact Hes|].
  intros e He. apply Hin in He. destruct He as (j & k & Hj & _ & Hk & ->).
  cbn [event_at ev_pos ev_rowDiv ev_rowMod ev_val].
  pose proof (mainKernel_start_nonneg BlockSize arrOffset elemsPerThread
                (VecElems VecBytes) blockIdx threadIdx
                Hbs Hoff ltac:(nia) ltac:(lia) Hb Ht) as Hstart.
  rewrite Z.quot_div_nonneg, Z.rem_mod_nonneg by nia.
  auto.
Qed.

(** ** The boundary kernel of the blocked arrangement *)

Lemma VecElems_scalar : 1 <= sizeofT -> VecElems sizeofT = 1.
Proof. intros Hs. unfold VecElems. apply Z.div_same. lia. Qed.

Lemma io_aligned_scalar (base p : Z) :
  1 <= sizeofT -> base mod sizeofT = 0 ->
  io_aligned sizeofT (base + p * sizeofT) = true.
Proof.
  intros Hs Hb. unfold io_aligned. rewrite VecElems_scalar by exact Hs.
  rewrite Z.mul_1_l, Z.mod_add by lia. apply Z.eqb_eq. exact Hb.
Qed.

(** One call of [vectorCols] at scalar width on a range of at most one
    element, as the boundary kernel makes it. *)
Lemma vectorCols_scalar_spec (pos rowLen : Z) (active : bool) :
  1 <= rowLen -> 1 <= sizeofT ->
  in_addr mod sizeofT = 0 -> out_addr mod sizeofT = 0 ->
  exists es,
    vectorCols sizeofT pos pos (pos + b2z active) rowLen
               (Z.quot pos rowLen) (Z.rem pos rowLen) = Ok es /\
    (active = false -> es = []) /\
    (active = true ->
     exists e, es = [e] /\ ev_pos e = pos /\
               (0 <= pos -> e = event_at rowLen pos pos)).
Proof.
  intros Hr Hs Hin Hout. unfold vectorCols.
  destruct active; cbn [b2z].
  - replace (pos + 1 - pos) with 1 by ring.
    change (S (Z.to_nat 1)) with 2%nat.
    rewrite vectorCols_loop_step.
    destruct (Z.ltb_spec pos (pos + 1)); [|lia].
    unfold ldcv, store_io. rewrite !io_aligned_scalar by assumption. cbn [bind].
    assert (Hrem : Z.rem pos rowLen < rowLen).
    { pose proof (Z.rem_bound_abs pos rowLen ltac:(lia)). lia. }
    cbn [vectorCols_while].
    destruct (Z.leb_spec rowLen (Z.rem pos rowLen)); [lia|]. cbn [bind].
    rewrite VecElems_scalar by exact Hs.
    change (Z.to_nat 1) with 1%nat. cbn [vectorCols_inner].
    destruct (Z.eqb_spec (Z.rem pos rowLen) rowLen); [lia|].
    rewrite vectorCols_loop_step. unfold Pow2.Value, Raft.WarpSize.
    destruct (Z.ltb_spec (pos + 32 * 1) (pos + 1)); [lia|].
    cbn [bind app]. eexists. split; [reflexivity|]. split; [discriminate|].
    intros _. eexists. split; [reflexivity|]. cbn [ev_pos]. split; [lia|].
    intros Hpos. unfold event_at.
    rewrite Z.quot_div_nonneg, Z.rem_mod_nonneg by lia.
    replace (pos + 0) with pos by ring. reflexivity.
  - replace (pos + 0 - pos) with 0 by ring.
    rewrite vectorCols_loop_step.
    destruct (Z.ltb_spec pos (pos + 0)); [lia|].
    exists []. split; [reflexivity|]. split; [reflexivity|]. discriminate.
Qed.

Lemma matrixLinewiseVecColsTailKernel_spec (arrOffset arrTail rowLen len blockIdx threadIdx : Z) :
  1 <= rowLen -> 1 <= sizeofT ->
  in_addr mod sizeofT = 0 -> out_addr mod sizeofT = 0 ->
  let pos := if blockIdx =? 0 then threadIdx else arrTail + threadIdx in
  let active := if blockIdx =? 0 then threadIdx <? arrOffset else arrTail + threadIdx <? len in
  exists es,
    matrixLinewiseVecColsTailKernel arrOffset arrTail rowLen len blockIdx threadIdx = Ok es /\
    (active = false -> es = []) /\
    (active = true ->
     exists e, es = [e] /\ ev_pos e = pos /\
               (0 <= pos -> e = event_at rowLen pos pos)).
Proof.
  intros Hr Hs Hin Hout pos active.
  unfold matrixLinewiseVecColsTailKernel. subst pos active.
  destruct (blockIdx =? 0); apply vectorCols_scalar_spec; assumption.
Qed.

(** ** Arithmetic of the blocked arrangement *)

Lemma mul_lt_cancel (v m n : Z) : 0 < v -> v * m < v * n -> m < n.
Proof. intros. nia. Qed.

(** A chunk that a thread of the main kernel processes lies inside the
    aligned body, although the kernel bounds the chunks by the length of
    the body and not by its end. *)
Lemma blocked_sound (VE c nb n aOff b t j k : Z) :
  1 <= VE -> 0 <= c -> 0 <= nb -> 0 <= aOff < VE -> 0 <= b -> 0 <= t ->
  0 <= j -> 0 <= k < VE ->
  let ts := aOff + c * VE * (b * (32 * nb) + t - t mod 32) + t mod 32 * VE in
  ts + j * (32 * VE) < Z.min (ts + c * VE * 32) (n * VE) ->
  aOff <= ts + j * (32 * VE) + k < aOff + n * VE.
Proof.
  intros HVE Hc Hnb Hoff Hb Ht Hj Hk ts Hlt.
  pose proof (Z.mod_pos_bound t 32 ltac:(lia)) as Hl.
  pose proof (Z.mod_le t 32 ltac:(lia) ltac:(lia)) as Hle.
  set (lane := t mod 32) in *.
  set (M := c * (b * (32 * nb) + t - lane) + lane + j * 32).
  assert (HM : ts + j * (32 * VE) = aOff + VE * M) by (unfold ts, M; ring).
  assert (HM0 : 0 <= M) by (unfold M; nia).
  rewrite HM in *.
  assert (M < n) by (apply (mul_lt_cancel VE); lia).
  nia.
Qed.

(** Every element of the aligned body belongs to a chunk of some thread
    of the grid: warp [g] owns the [32 * elemsPerThread] elements from
    [aOff + 32 * elemsPerThread * g] on, and its lanes interleave. *)
Lemma blocked_cover (VE c nb gs n aOff p : Z) :
  1 <= VE -> 1 <= c -> 1 <= nb -> 1 <= gs -> 0 <= aOff < VE ->
  n * VE <= c * VE * (gs * (32 * nb)) ->
  aOff <= p < aOff + n * VE ->
  exists b t j k,
    0 <= b < gs /\ 0 <= t < 32 * nb /\ 0 <= j /\ 0 <= k < VE /\
    (aOff + c * VE * (b * (32 * nb) + t - t mod 32) + t mod 32 * VE) + j * (32 * VE)
      < Z.min ((aOff + c * VE * (b * (32 * nb) + t - t mod 32) + t mod 32 * VE)
               + c * VE * 32)
              (n * VE) /\
    (aOff + c * VE * (b * (32 * nb) + t - t mod 32) + t mod 32 * VE)
      + j * (32 * VE) + k = p.
Proof.
  intros HVE Hc Hnb Hgs Hoff Hcap Hp.
  set (q := p - aOff).
  set (E32 := 32 * (c * VE)).
  assert (HE : 0 < E32) by (unfold E32; nia).
  pose proof (Z.div_mod q E32 ltac:(lia)) as Hq.
  pose proof (Z.mod_pos_bound q E32 HE) as Hr.
  set (g := q / E32) in *. set (r := q mod E32) in *.
  assert (Hg0 : 0 <= g) by (apply Z.div_pos; unfold q; lia).
  assert (Hg : g < gs * nb).
  { apply Z.div_lt_upper_bound; [lia|]. unfold q, E32. nia. }
  set (V32 := 32 * VE).
  assert (HV : 0 < V32) by (unfold V32; lia).
  pose proof (Z.div_mod r V32 ltac:(lia)) as Hrr.
  pose proof (Z.mod_pos_bound r V32 HV) as Hr2.
  set (j := r / V32) in *. set (r2 := r mod V32) in *.
  assert (Hj0 : 0 <= j) by (apply Z.div_pos; lia).
  assert (Hjc : j < c).
  { apply Z.div_lt_upper_bound; [lia|]. unfold V32, E32 in *. nia. }
  pose proof (Z.div_mod r2 VE ltac:(lia)) as Hr3.
  pose proof (Z.mod_pos_bound r2 VE ltac:(lia)) as Hk.
  set (lane := r2 / VE) in *. set (k := r2 mod VE) in *.
  assert (Hl0 : 0 <= lane) by (apply Z.div_pos; lia).
  assert (Hl : lane < 32).
  { apply Z.div_lt_upper_bound; [lia|]. unfold V32 in *. lia. }
  set (G := 32 * g + lane).
  pose proof (Z.div_mod G (32 * nb) ltac:(lia)) as HG.
  pose proof (Z.mod_pos_bound G (32 * nb) ltac:(lia)) as Ht.
  set (b := G / (32 * nb)) in *. set (t := G mod (32 * nb)) in *.
  assert (Hb0 : 0 <= b) by (apply Z.div_pos; unfold G; lia).
  assert (Hb : b < gs).
  { apply Z.div_lt_upper_bound; [lia|]. unfold G. nia. }
  assert (Htl : t mod 32 = lane).
  { replace t with (lane + (g - nb * b) * 32) by (unfold G in HG; lia).
    rewrite Z.mod_add by lia. apply Z.mod_small. lia. }
  exists b, t, j, k. rewrite Htl. subst V32 E32.
  replace (b * (32 * nb) + t - lane) with (32 * g) by (unfold G in HG; lia).
  assert (Hpos : aOff + c * VE * (32 * g) + lane * VE + j * (32 * VE) + k = p).
  { unfold q in *.
    replace (c * VE * (32 * g)) with (32 * (c * VE) * g) by ring. lia. }
  split; [lia|]. split; [lia|]. split; [lia|]. split; [lia|]. split; [|exact Hpos].
  apply Z.min_glb_lt.
  - nia.
  - set (M := 32 * c * g + lane + j * 32).
    assert (HM : aOff + c * VE * (32 * g) + lane * VE + j * (32 * VE) = aOff + VE * M)
      by (unfold M; ring).
    rewrite HM. rewrite HM in Hpos.
    assert (M < n) by (apply (mul_lt_cancel VE); lia).
    nia.
Qed.

(** ** Conversions to [uint] and [ceildiv] *)

Lemma uint_small (x : Z) : 0 <= x < 2 ^ 32 -> Raft.uint x = x.
Proof. intros H. unfold Raft.uint. apply Z.mod_small. exact H. Qed.

Lemma uint_range (x : Z) : 0 <= Raft.uint x < 2 ^ 32.
Proof. unfold Raft.uint. apply Z.mod_pos_bound. reflexivity. Qed.

Lemma ceildiv_idx (a b : Z) :
  0 < a -> 0 < b ->
  1 <= Raft.ceildiv (fun x => x) a b /\ a <= Raft.ceildiv (fun x => x) a b * b.
Proof.
  intros Ha Hb. unfold Raft.ceildiv.
  rewrite Z.quot_div_nonneg by lia.
  pose proof (Z.div_mod (a + b - 1) b ltac:(lia)).
  pose proof (Z.mod_pos_bound (a + b - 1) b Hb).
  split; [apply Z.div_le_lower_bound; lia | nia].
Qed.

Lemma ceildiv_uint (a b : Z) :
  0 <= a -> 0 < b -> a + b <= 2 ^ 32 ->
  Raft.ceildiv Raft.uint a b = (a + b - 1) / b.
Proof.
  intros Ha Hb Hab. unfold Raft.ceildiv.
  rewrite (uint_small (a + b - 1)) by lia.
  rewrite Z.quot_div_nonneg by lia.
  apply uint_small. split; [apply Z.div_pos; lia|].
  apply Z.div_lt_upper_bound; nia.
Qed.

(** ** Launches *)

Lemma launch_threads_spec (gs bs : Z) (kernel : Z -> Z -> result (list event)) :
  (forall b t, 0 <= b < gs -> 0 <= t < bs -> exists es, kernel b t = Ok es) ->
  exists l,
    launch_threads gs bs kernel = Ok l /\
    l_grid l = gs /\ l_block l = bs /\
    forall a v, In (a, v) (l_writes l) <->
      exists b t es e, 0 <= b < gs /\ 0 <= t < bs /\ kernel b t = Ok es /\
                       In e es /\ a = ev_pos e /\ v = ev_val e.
Proof.
  intros Hok. unfold launch_threads.
  destruct (collect_exists (fun b => collect (map (kernel b) (zseq bs))) (zseq gs))
    as (es & Hes & Hin).
  { intros b Hb. apply in_zseq in Hb.
    destruct (collect_exists (kernel b) (zseq bs)) as (x & Hx & _).
    - intros t Ht. apply in_zseq in Ht. apply Hok; assumption.
    - exists x. exact Hx. }
  rewrite Hes. cbn [bind]. eexists. split; [reflexivity|].
  cbn [l_grid l_block l_writes]. split; [reflexivity|]. split; [reflexivity|].
  intros a v. unfold writes_of. rewrite in_map_iff. split.
  - intros (e & He & Hine). injection He as <- <-.
    apply Hin in Hine. destruct Hine as (b & x & Hb & Hx & Hex).
    apply in_zseq in Hb.
    destruct (collect_exists (kernel b) (zseq bs)) as (x' & Hx' & Hin').
    { intros t Ht. apply in_zseq in Ht. apply Hok; assumption. }
    rewrite Hx in Hx'. injection Hx' as <-.
    apply Hin' in Hex. destruct Hex as (t & es' & Ht & Hk & Hee).
    apply in_zseq in Ht. exists b, t, es', e. repeat split; try assumption; lia.
  - intros (b & t & es' & e & Hb & Ht & Hk & Hee & -> & ->).
    exists e. split; [reflexivity|]. apply Hin.
    destruct (collect_exists (kernel b) (zseq bs)) as (x' & Hx' & Hin').
    { intros t' Ht'. apply in_zseq in Ht'. apply Hok; assumption. }
    exists b, x'. split; [apply in_zseq; exact Hb|]. split; [exact Hx'|].
    apply Hin'. exists t, es'. split; [apply in_zseq; exact Ht|]. auto.
Qed.

Lemma launch_blocks_spec (gs bs : Z) (kernel : Z -> result (list (Z * T))) :
  (forall b, 0 <= b < gs -> exists ws, kernel b = Ok ws) ->
  exists l,
    launch_blocks gs bs kernel = Ok l /\
    l_grid l = gs /\ l_block l = bs /\
    forall w, In w (l_writes l) <->
      exists b ws, 0 <= b < gs /\ kernel b = Ok ws /\ In w ws.
Proof.
  intros Hok. unfold launch_blocks.
  destruct (collect_exists kernel (zseq gs)) as (ws & Hws & Hin).
  { intros b Hb. apply in_zseq in Hb. apply Hok. exact Hb. }
  rewrite Hws. cbn [bind]. eexists. split; [reflexivity|].
  cbn [l_grid l_block l_writes]. split; [reflexivity|]. split; [reflexivity|].
  intros w. rewrite Hin. split.
  - intros (b & x & Hb & Hk & Hw). apply in_zseq in Hb. exists b, x. auto.
  - intros (b & x & Hb & Hk & Hw). exists b, x. split; [apply in_zseq; exact Hb|]. auto.
Qed.

(** ** The aligned body *)

Section AlignedBody.

Variables (W VE : Z).
Hypothesis size_pos : 1 <= sizeofT.
Hypothesis width_elems : W = VE * sizeofT.
Hypothesis elems_pos : 1 <= VE.
Hypothesis in_natural : in_addr mod sizeofT = 0.
Hypothesis out_natural : out_addr mod sizeofT = 0.
Hypothesis same_offsets : in_addr mod W = out_addr mod W.

Lemma VecElems_width : VecElems W = VE.
Proof. unfold VecElems. rewrite width_elems. apply Z.div_mul. lia. Qed.

Lemma io_aligned_width (a : Z) : io_aligned W a = (a mod W =? 0).
Proof. unfold io_aligned. rewrite VecElems_width, <- width_elems. reflexivity. Qed.

Lemma io_aligned_out (p : Z) :
  io_aligned W (in_addr + p * sizeofT) = true ->
  io_aligned W (out_addr + p * sizeofT) = true.
Proof.
  rewrite !io_aligned_width. intros H. apply Z.eqb_eq in H. apply Z.eqb_eq.
  assert (HW : W <> 0) by nia.
  rewrite <- Z.add_mod_idemp_l, <- same_offsets, Z.add_mod_idemp_l by exact HW.
  exact H.
Qed.

(** The aligned body starts less than one wide chunk after [in], ends
    less than one wide chunk before the end of the matrix (before [in]
    itself when the matrix ends ahead of the first aligned address),
    and is a whole number of wide chunks long. *)
Lemma aligned_body (totalLen : Z) :
  0 <= alignedOff W < VE /\
  alignedEnd W totalLen <= totalLen < alignedEnd W totalLen + VE /\
  (exists n, alignedEnd W totalLen - alignedOff W = n * VE) /\
  io_aligned W (in_addr + alignedOff W * sizeofT) = true.
Proof.
  assert (HW : 0 < W) by nia.
  pose proof in_natural as Hnat.
  apply Z.mod_divide in Hnat; [|lia].
  destruct Hnat as (A & HA).
  unfold alignedOff, alignedEnd, Pow2.roundUp, Pow2.roundDown.
  set (x := (in_addr + W - 1) / W).
  set (y := (in_addr + totalLen * sizeofT) / W).
  pose proof (Z.div_mod (in_addr + W - 1) W ltac:(lia)) as Hx.
  pose proof (Z.mod_pos_bound (in_addr + W - 1) W HW) as Hxm.
  pose proof (Z.div_mod (in_addr + totalLen * sizeofT) W ltac:(lia)) as Hy.
  pose proof (Z.mod_pos_bound (in_addr + totalLen * sizeofT) W HW) as Hym.
  fold x in Hx. fold y in Hy.
  replace (W * x - in_addr) with ((VE * x - A) * sizeofT)
    by (rewrite HA, width_elems; ring).
  replace (W * y - in_addr) with ((VE * y - A) * sizeofT)
    by (rewrite HA, width_elems; ring).
  rewrite !Z.quot_mul by lia.
  split; [nia|]. split; [nia|]. split.
  - exists (y - x). ring.
  - rewrite io_aligned_width. apply Z.eqb_eq.
    replace (in_addr + (VE * x - A) * sizeofT) with (x * W)
      by (rewrite HA, width_elems; ring).
    apply Z.mod_mul. lia.
Qed.

(** When the matrix reaches the first aligned address, head, body and tail
    are three consecutive ranges of the matrix. *)
Lemma aligned_regions_ordered (totalLen : Z) :
  alignedOff W <= totalLen ->
  0 <= alignedOff W <= alignedEnd W totalLen /\ alignedEnd W totalLen <= totalLen.
Proof.
  intros Hle. destruct (aligned_body totalLen) as (Hoff & Hend & (n & Hn) & _).
  assert (0 <= n) by nia. nia.
Qed.

Lemma MaxOffset_bound : VE <= MaxOffset W /\ 32 <= MaxOffset W.
Proof. unfold MaxOffset, Raft.WarpSize. nia. Qed.

End AlignedBody.

(** ** [vectorRows] and the chunks it is given *)

Lemma vectorRows_loop_step (fuel : nat) (VecBytes outp inp len d i : Z) (args : list Vec) :
  vectorRows_loop (S fuel) VecBytes outp inp len d i args =
  if i <? len then
    v <- ldcv VecBytes (inp + i * VecElems VecBytes) ;;
    let w := fun k => op (v k) (map (fun a : Vec => a k) args) in
    _ <- store_io VecBytes (outp + i * VecElems VecBytes) ;;
    rest <- vectorRows_loop fuel VecBytes outp inp len d (i + d) args ;;
    Ok (map (fun k => (outp + i * VecElems VecBytes + k, w k))
            (zseq (VecElems VecBytes)) ++ rest)
  else Ok [].
Proof. reflexivity. Qed.

(** The grid-stride loop of a thread: the chunks [i, i + d, i + 2 d, ...]
    below [len], each combined scalar by scalar with the chunks of the
    vectors that the thread holds. *)
Lemma vectorRows_loop_spec (fuel : nat) (VecBytes outp inp len d i : Z) (args : list Vec) :
  0 < d ->
  (forall i', io_aligned VecBytes (in_addr + (inp + i' * VecElems VecBytes) * sizeofT) = true) ->
  (forall i', io_aligned VecBytes (out_addr + (outp + i' * VecElems VecBytes) * sizeofT) = true) ->
  (Z.to_nat (len - i) < fuel)%nat ->
  exists ws,
    vectorRows_loop fuel VecBytes outp inp len d i args = Ok ws /\
    forall a v, In (a, v) ws <->
      exists m k, 0 <= m /\ i + m * d < len /\ 0 <= k < VecElems VecBytes /\
                  a = outp + (i + m * d) * VecElems VecBytes + k /\
                  v = op (inm (inp + (i + m * d) * VecElems VecBytes + k))
                         (map (fun c : Vec => c k) args).
Proof.
  intros Hd Hain Haout. revert i.
  induction fuel as [|fuel IH]; intros i Hfuel; [lia|].
  rewrite vectorRows_loop_step.
  destruct (Z.ltb_spec i len) as [Hlt | Hge].
  2:{ exists []. split; [reflexivity|]. intros a v. split; [intros []|].
      intros (m & k & Hm & Hb & _). nia. }
  unfold ldcv, store_io. rewrite Hain, Haout. cbn [bind].
  destruct (IH (i + d)) as (rest & Hrest & Hin); [lia|].
  rewrite Hrest. cbn [bind]. eexists. split; [reflexivity|].
  intros a v. rewrite in_app_iff, in_map_iff, Hin. split.
  - intros [(k & Hk & Hkin) | (m & k & Hm & Hb & Hk & -> & ->)].
    + injection Hk as <- <-. apply in_zseq in Hkin.
      exists 0, k. replace (i + 0 * d) with i by ring. auto with zarith.
    + exists (m + 1), k. replace (i + (m + 1) * d) with (i + d + m * d) by ring.
      split; [lia|]. auto.
  - intros (m & k & Hm & Hb & Hk & -> & ->).
    destruct (Z.eq_dec m 0) as [-> | Hne].
    + left. exists k. replace (i + 0 * d) with i by ring.
      split; [reflexivity|]. apply in_zseq. exact Hk.
    + right. exists (m - 1), k.
      replace (i + d + (m - 1) * d) with (i + m * d) by ring.
      split; [lia|]. auto.
Qed.

(** One chunk per argument vector, whichever of the two regions of shared
    memory it was staged in. *)
Lemma loadVecs_spec (VecBytes BlockSize workSize : Z) (ps : list (Z -> T))
    (workOffset : Z) (mem : Z -> T) (blockOffset rowLen : Z) :
  1 <= rowLen ->
  0 < BlockSize ->
  exists chunks,
    loadVecs VecBytes BlockSize workSize ps workOffset mem blockOffset rowLen = Ok chunks /\
    forall t k,
      0 <= t < BlockSize -> 0 <= k < VecElems VecBytes ->
      0 <= blockOffset + (t * VecElems VecBytes + k) mod BlockSize ->
      map (fun c : Z -> Vec => c t k) chunks =
      map (fun p => p ((blockOffset + t * VecElems VecBytes + k) mod rowLen)) ps.
Proof.
  intros Hr Hb. revert workOffset mem.
  induction ps as [|p ps IH]; intros workOffset mem; cbn [loadVecs].
  - exists []. split; [reflexivity|]. reflexivity.
  - destruct (loadVec_spec VecBytes BlockSize mem (Z.lxor workOffset workSize) p
                blockOffset rowLen Hr Hb) as (mem' & chunk & Hl & Hc).
    rewrite Hl. cbn [bind].
    destruct (IH (Z.lxor workOffset workSize) mem') as (chunks & Hcs & Hmap).
    rewrite Hcs. cbn [bind]. eexists. split; [reflexivity|].
    intros t k Ht Hk Hoff. cbn [map]. f_equal.
    + apply Hc; assumption.
    + apply Hmap; assumption.
Qed.

(** ** Arithmetic of the striped arrangement *)

Lemma striped_cover (VE BS gs n q : Z) :
  0 < VE -> 0 < BS -> 0 < gs ->
  0 <= q < n * VE ->
  exists b t m k,
    0 <= b < gs /\ 0 <= t < BS /\ 0 <= m /\ 0 <= k < VE /\
    t + b * BS + m * (BS * gs) < n /\
    (t + b * BS + m * (BS * gs)) * VE + k = q.
Proof.
  intros HVE HBS Hgs Hq.
  pose proof (Z.div_mod q VE ltac:(lia)) as Hqi.
  pose proof (Z.mod_pos_bound q VE HVE) as Hk.
  set (i := q / VE) in *. set (k := q mod VE) in *.
  assert (Hi0 : 0 <= i) by (apply Z.div_pos; lia).
  assert (Hin : i < n) by (apply Z.div_lt_upper_bound; lia).
  assert (HD : 0 < BS * gs) by nia.
  pose proof (Z.div_mod i (BS * gs) ltac:(lia)) as Him.
  pose proof (Z.mod_pos_bound i (BS * gs) HD) as Hr.
  set (m := i / (BS * gs)) in *. set (r := i mod (BS * gs)) in *.
  assert (Hm0 : 0 <= m) by (apply Z.div_pos; lia).
  pose proof (Z.div_mod r BS ltac:(lia)) as Hrb.
  pose proof (Z.mod_pos_bound r BS HBS) as Ht.
  set (b := r / BS) in *. set (t := r mod BS) in *.
  assert (Hb0 : 0 <= b) by (apply Z.div_pos; lia).
  assert (Hb : b < gs) by (apply Z.div_lt_upper_bound; lia).
  exists b, t, m, k.
  assert (Hi : t + b * BS + m * (BS * gs) = i) by lia.
  rewrite Hi. repeat split; lia.
Qed.

(** With a grid whose sweep is a whole number of rows, or one that covers
    the whole body in a single sweep, the vector entries that a thread
    loaded for its first chunk are the ones of all its chunks. *)
Lemma striped_index (VE BS gs n rowLen aOff b t m k : Z) :
  0 < VE -> 0 < BS -> 0 < gs -> 1 <= rowLen ->
  0 <= aOff -> 0 <= b -> 0 <= t -> 0 <= m -> 0 <= k ->
  ((rowLen | gs * (BS * VE)) \/ n * VE <= gs * (BS * VE)) ->
  t + b * BS + m * (BS * gs) < n ->
  (Z.rem (aOff + BS * VE * b) rowLen + t * VE + k) mod rowLen =
  (aOff + (t + b * BS + m * (BS * gs)) * VE + k) mod rowLen.
Proof.
  intros HVE HBS Hgs Hr Hoff Hb Ht Hm Hk Hgrid Hlt.
  rewrite Z.rem_mod_nonneg by nia.
  rewrite <- Z.add_assoc, Z.add_mod_idemp_l by lia.
  destruct Hgrid as [(z & Hz) | Hcap].
  - replace (aOff + (t + b * BS + m * (BS * gs)) * VE + k)
      with (aOff + BS * VE * b + (t * VE + k) + (m * z) * rowLen)
      by (replace (m * z * rowLen) with (m * (z * rowLen)) by ring;
          rewrite <- Hz; ring).
    rewrite Z.mod_add by lia. reflexivity.
  - assert (m = 0) by nia. subst m. f_equal. ring.
Qed.


(** ** The grid of the striped arrangement *)

(** Without wrap-around in [uint], the three quantities of
    [matrixLinewiseVecRows] are what their names say. *)
Lemma vecRows_grid_unfold (VecBytes BlockSize rowLen nRows : Z) :
  1 <= rowLen -> 1 <= nRows -> 1 <= BlockSize -> 1 <= VecElems VecBytes ->
  rowLen * nRows + BlockSize * VecElems VecBytes <= 2 ^ 32 ->
  Raft.getOptimalGridSize smCount maxBlockSize BlockSize + rowLen <= 2 ^ 32 ->
  let bws := BlockSize * VecElems VecBytes in
  let egs := rowLen / Z.gcd bws rowLen in
  let occupy := Raft.getOptimalGridSize smCount maxBlockSize BlockSize in
  block_work_size VecBytes BlockSize = bws /\
  expected_grid_size VecBytes BlockSize rowLen = egs /\
  1 <= egs <= rowLen /\
  egs * Z.gcd bws rowLen = rowLen /\
  vecRows_grid VecBytes BlockSize rowLen nRows =
    Z.min ((rowLen * nRows + bws - 1) / bws) ((occupy + egs - 1) / egs * egs).
Proof.
  intros Hr Hn Hb Hve Hlen Hocc bws egs occupy.
  assert (Hbws : 1 <= bws) by (unfold bws; nia).
  assert (Htot : 1 <= rowLen * nRows) by nia.
  assert (Hbw : block_work_size VecBytes BlockSize = bws).
  { unfold block_work_size. rewrite (uint_small (VecElems VecBytes)) by nia.
    apply uint_small. fold bws. lia. }
  pose proof (Z.gcd_nonneg bws rowLen) as Hg0.
  pose proof (Z.gcd_divide_r bws rowLen) as (e & He).
  assert (Hg : 1 <= Z.gcd bws rowLen).
  { destruct (Z.eq_dec (Z.gcd bws rowLen) 0) as [E | E]; [|lia].
    apply Z.gcd_eq_0_r in E. lia. }
  assert (Hegs : egs = e).
  { unfold egs. rewrite He at 1. apply Z.div_mul. lia. }
  assert (He1 : 1 <= e <= rowLen) by nia.
  assert (Heg : expected_grid_size VecBytes BlockSize rowLen = egs).
  { unfold expected_grid_size, Raft.gcd. rewrite Hbw.
    rewrite (uint_small rowLen) by lia.
    rewrite Z.quot_div_nonneg by lia. fold egs. apply uint_small. lia. }
  split; [exact Hbw|]. split; [exact Heg|]. split; [lia|]. split; [lia|].
  unfold vecRows_grid. rewrite Hbw, Heg. fold occupy.
  pose proof (uint_range (Raft.OptimalSmOccupancy
                          * Raft.uint (Z.quot (smCount * maxBlockSize) BlockSize))) as Ho.
  change (Raft.uint (Raft.OptimalSmOccupancy
                     * Raft.uint (Z.quot (smCount * maxBlockSize) BlockSize)))
    with occupy in Ho.
  fold occupy in Hocc.
  rewrite (uint_small (rowLen * nRows)) by lia.
  rewrite !ceildiv_uint by lia.
  f_equal. apply uint_small.
  pose proof (Z.div_mod (occupy + egs - 1) egs ltac:(lia)).
  pose proof (Z.mod_pos_bound (occupy + egs - 1) egs ltac:(lia)).
  split; [|nia]. apply Z.mul_nonneg_nonneg; [apply Z.div_pos|]; lia.
Qed.

(** C2, as the code has it.  For [rowLen >= 1], [nRows >= 1] and any
    block size and vector width (with [totalLen + blockWorkSize] and
    [occupy + rowLen] within [uint]), the grid size of the main kernel of
    [matrixLinewiseVecRows] is the smaller of [ceil(totalLen /
    blockWorkSize)] and [M], the least multiple of [rowLen /
    gcd(blockWorkSize, rowLen)] that is not below the occupancy target.
    It is therefore an exact multiple of [rowLen / gcd(blockWorkSize,
    rowLen)] unless a grid of [ceil(totalLen / blockWorkSize)] blocks,
    which covers the whole matrix in a single sweep, is smaller. *)
Theorem vecRows_grid_multiple_or_single_sweep (VecBytes BlockSize rowLen nRows : Z) :
  1 <= rowLen -> 1 <= nRows -> 1 <= BlockSize -> 1 <= VecElems VecBytes ->
  rowLen * nRows + BlockSize * VecElems VecBytes <= 2 ^ 32 ->
  Raft.getOptimalGridSize smCount maxBlockSize BlockSize + rowLen <= 2 ^ 32 ->
  let bws := BlockSize * VecElems VecBytes in
  let egs := rowLen / Z.gcd bws rowLen in
  let occupy := Raft.getOptimalGridSize smCount maxBlockSize BlockSize in
  let gs := vecRows_grid VecBytes BlockSize rowLen nRows in
  exists M,
    gs = Z.min ((rowLen * nRows + bws - 1) / bws) M /\
    (egs | M) /\ occupy <= M < occupy + egs /\
    ((egs | gs) \/
     (gs = (rowLen * nRows + bws - 1) / bws /\ rowLen * nRows <= gs * bws)).
Proof.
  intros Hr Hn Hb Hve Hlen Hocc bws egs occupy gs.
  destruct (vecRows_grid_unfold VecBytes BlockSize rowLen nRows Hr Hn Hb Hve Hlen Hocc)
    as (_ & _ & Hegs & _ & Hgs).
  fold bws in Hegs, Hgs. fold egs in Hegs, Hgs. fold occupy in Hgs. fold gs in Hgs.
  exists ((occupy + egs - 1) / egs * egs).
  pose proof (Z.div_mod (occupy + egs - 1) egs ltac:(lia)) as HM.
  pose proof (Z.mod_pos_bound (occupy + egs - 1) egs ltac:(lia)) as HMm.
  split; [exact Hgs|]. split; [apply Z.divide_factor_r|]. split; [lia|].
  destruct (Z.min_spec ((rowLen * nRows + bws - 1) / bws) ((occupy + egs - 1) / egs * egs))
    as [(_ & Hmin) | (_ & Hmin)]; rewrite Hmin in Hgs.
  - right. split; [exact Hgs|]. rewrite Hgs.
    assert (Hbws : 1 <= bws) by (unfold bws; nia).
    pose proof (Z.div_mod (rowLen * nRows + bws - 1) bws ltac:(lia)).
    pose proof (Z.mod_pos_bound (rowLen * nRows + bws - 1) bws ltac:(lia)).
    nia.
  - left. rewrite Hgs. apply Z.divide_factor_r.
Qed.


(** ** No offset is stored at twice: the loops *)

Lemma radix_unique (n a r a' r' : Z) :
  0 <= r < n -> 0 <= r' < n -> a * n + r = a' * n + r' -> a = a' /\ r = r'.
Proof.
  intros Hr Hr' E.
  assert (Ha : a = a').
  { destruct (Z.lt_trichotomy a a') as [L | [EQ | L]];
      [exfalso; nia | exact EQ | exfalso; nia]. }
  subst a'. lia.
Qed.

Lemma collect_in {A B : Type} (f : B -> result (list A)) (l : list B) (xs : list A)
    (a : A) :
  collect (map f l) = Ok xs -> In a xs ->
  exists b x, In b l /\ f b = Ok x /\ In a x.
Proof.
  revert xs. induction l as [|b l IH]; intros xs H Ha; cbn [map collect] in H.
  - injection H as <-. destruct Ha.
  - apply bind_ok in H. destruct H as (x & Hx & H).
    apply bind_ok in H. destruct H as (xs' & Hxs' & H). injection H as <-.
    apply in_app_or in Ha. destruct Ha as [Ha | Ha].
    + exists b, x. split; [left; reflexivity | auto].
    + destruct (IH xs' Hxs' Ha) as (b' & x' & Hb' & Hf & Hin).
      exists b', x'. split; [right; exact Hb' | auto].
Qed.

(** Collected results have no place twice when no member has one twice
    and a place tells which member it comes from; [P b a] says that the
    member [b] may have the place [a]. *)
Lemma collect_NoDup {A B : Type} (h : A -> Z) (P : B -> Z -> Prop)
    (f : B -> result (list A)) (l : list B) (xs : list A) :
  NoDup l ->
  collect (map f l) = Ok xs ->
  (forall b x, In b l -> f b = Ok x ->
               NoDup (map h x) /\ forall a, In a (map h x) -> P b a) ->
  (forall b b' a, In b l -> In b' l -> P b a -> P b' a -> b = b') ->
  NoDup (map h xs) /\ forall a, In a (map h xs) -> exists b, In b l /\ P b a.
Proof.
  intros Hnd Hc Hmem Huniq.
  assert (Hfrom : forall l' xs', incl l' l -> collect (map f l') = Ok xs' ->
            forall a, In a (map h xs') -> exists b, In b l' /\ P b a).
  { intros l' xs' Hincl Hc' a Ha. apply in_map_iff in Ha.
    destruct Ha as (y & <- & Hy).
    destruct (collect_in f l' xs' y Hc' Hy) as (b & x & Hb & Hf & Hin).
    exists b. split; [exact Hb|].
    apply (Hmem b x (Hincl b Hb) Hf). apply in_map. exact Hin. }
  split; [| apply (Hfrom l xs (incl_refl l) Hc)].
  clear Hfrom.
  assert (G : forall l' xs', incl l' l -> NoDup l' -> collect (map f l') = Ok xs' ->
            NoDup (map h xs') /\
            forall a, In a (map h xs') -> exists b, In b l' /\ P b a).
  { induction l' as [|b l' IH]; intros xs' Hincl Hnd' Hc'; cbn [map collect] in Hc'.
    - injection Hc' as <-. split; [constructor | intros a []].
    - apply bind_ok in Hc'. destruct Hc' as (x & Hx & Hc').
      apply bind_ok in Hc'. destruct Hc' as (xs'' & Hxs'' & Hc'). injection Hc' as <-.
      inversion Hnd' as [|b0 l0 Hnb Hnd'']; subst.
      assert (Hb : In b l) by (apply Hincl; left; reflexivity).
      assert (Hincl' : incl l' l) by (intros y Hy; apply Hincl; right; exact Hy).
      destruct (Hmem b x Hb Hx) as (Hndx & HPx).
      destruct (IH xs'' Hincl' Hnd'' Hxs'') as (Hndr & HPr).
      rewrite map_app. split.
      + apply NoDup_app; [exact Hndx | exact Hndr |].
        intros a Ha Ha'. destruct (HPr a Ha') as (b' & Hb' & HP').
        apply Hnb. rewrite (Huniq b b' a Hb (Hincl' b' Hb') (HPx a Ha) HP').
        exact Hb'.
      + intros a Ha. apply in_app_or in Ha. destruct Ha as [Ha | Ha].
        * exists b. split; [left; reflexivity | exact (HPx a Ha)].
        * destruct (HPr a Ha) as (b' & Hb' & HP').
          exists b'. split; [right; exact Hb' | exact HP']. }
  apply (G l xs (incl_refl l) Hnd Hc).
Qed.

Lemma NoDup_zseq (n : Z) : NoDup (zseq n).
Proof.
  unfold zseq. apply NoDup_map_NoDup_ForallPairs; [| apply seq_NoDup].
  intros x y _ _ E. lia.
Qed.

(** The places of the events of one wide chunk. *)
Lemma vectorCols_inner_places (n : nat) (k outp : Z) (v : Vec)
    (rowLen rowDiv rowMod : Z) (args : list T) :
  map ev_pos (snd (vectorCols_inner n k outp v rowLen rowDiv rowMod args)) =
  map (fun i => outp + (k + Z.of_nat i)) (seq 0 n).
Proof.
  revert k rowDiv rowMod args.
  induction n as [|n IH]; intros k rowDiv rowMod args; [reflexivity|].
  cbn [vectorCols_inner].
  destruct (if rowMod =? rowLen
            then (rowDiv + 1, 0, fetch (rowDiv + 1))
            else (rowDiv, rowMod, args)) as [[d m] a].
  specialize (IH (k + 1) d (m + 1) a).
  destruct (vectorCols_inner n (k + 1) outp v rowLen d (m + 1) a) as [st es].
  cbn [snd map ev_pos seq] in *. f_equal; [lia|].
  rewrite IH, <- seq_shift, map_map. apply map_ext. intros i. lia.
Qed.

(** The places of the events of a thread in [vectorCols]: chunk after
    chunk, none of them twice. *)
Lemma vectorCols_loop_places (fuel : nat) (VecBytes outp inp in_end rowLen rowDiv rowMod : Z)
    (args : list T) (update : bool) (es : list event) :
  vectorCols_loop fuel VecBytes outp inp in_end rowLen rowDiv rowMod args update = Ok es ->
  NoDup (map ev_pos es) /\
  forall x, In x (map ev_pos es) ->
    exists j k, 0 <= j /\ inp + j * (32 * VecElems VecBytes) < in_end /\
                0 <= k < VecElems VecBytes /\
                x = outp + j * (32 * VecElems VecBytes) + k.
Proof.
  revert outp inp rowDiv rowMod args update es.
  induction fuel as [|fuel IH]; intros outp inp rowDiv rowMod args update es H;
    [discriminate|].
  rewrite vectorCols_loop_step in H.
  destruct (Z.ltb_spec inp in_end) as [Hlt | Hge].
  2:{ injection H as <-. split; [constructor | intros x []]. }
  apply bind_ok in H. destruct H as (v & _ & H).
  apply bind_ok in H. destruct H as ([[d1 m1] u1] & _ & H).
  cbv zeta in H.
  pose proof (vectorCols_inner_places (Z.to_nat (VecElems VecBytes)) 0 outp v
                rowLen d1 m1 (if u1 then fetch d1 else args)) as Hpl.
  destruct (vectorCols_inner (Z.to_nat (VecElems VecBytes)) 0 outp v
              rowLen d1 m1 (if u1 then fetch d1 else args)) as [[[d2 m2] a2] es1].
  cbn [snd] in Hpl.
  apply bind_ok in H. destruct H as (_ & _ & H).
  apply bind_ok in H. destruct H as (rest & Hrest & H). injection H as <-.
  unfold Pow2.Value, Raft.WarpSize in Hrest.
  destruct (IH _ _ _ _ _ _ _ Hrest) as (Hnd & Hin).
  assert (Hes1 : forall x, In x (map ev_pos es1) ->
            exists k, 0 <= k < VecElems VecBytes /\ x = outp + k).
  { intros x Hx. rewrite Hpl in Hx. apply in_map_iff in Hx.
    destruct Hx as (i & <- & Hi). apply in_seq in Hi.
    exists (Z.of_nat i). split; lia. }
  rewrite map_app. split.
  - apply NoDup_app; [| exact Hnd |].
    + rewrite Hpl. apply NoDup_map_NoDup_ForallPairs; [| apply seq_NoDup].
      intros x y _ _ E. lia.
    + intros x Hx Hx'. destruct (Hes1 x Hx) as (k & Hk & ->).
      destruct (Hin _ Hx') as (j & k' & Hj & _ & Hk' & E). nia.
  - intros x Hx. apply in_app_or in Hx. destruct Hx as [Hx | Hx].
    + destruct (Hes1 x Hx) as (k & Hk & ->).
      exists 0, k. split; [lia|]. split; [lia|]. split; [exact Hk | lia].
    + destruct (Hin _ Hx) as (j & k & Hj & Hb & Hk & ->).
      exists (j + 1), k. split; [lia|]. split; [lia|]. split; [exact Hk | lia].
Qed.

(** The places of the stores of a thread in [vectorRows]. *)
Lemma vectorRows_loop_places (fuel : nat) (VecBytes outp inp len d i : Z)
    (args : list Vec) (ws : list (Z * T)) :
  0 < d ->
  vectorRows_loop fuel VecBytes outp inp len d i args = Ok ws ->
  NoDup (map fst ws) /\
  forall a, In a (map fst ws) ->
    exists m k, 0 <= m /\ i + m * d < len /\ 0 <= k < VecElems VecBytes /\
                a = outp + (i + m * d) * VecElems VecBytes + k.
Proof.
  intros Hd. revert i ws.
  induction fuel as [|fuel IH]; intros i ws H; [discriminate|].
  rewrite vectorRows_loop_step in H.
  destruct (Z.ltb_spec i len) as [Hlt | Hge].
  2:{ injection H as <-. split; [constructor | intros a []]. }
  apply bind_ok in H. destruct H as (v & _ & H). cbv zeta in H.
  apply bind_ok in H. destruct H as (_ & _ & H).
  apply bind_ok in H. destruct H as (rest & Hrest & H). injection H as <-.
  destruct (IH _ _ Hrest) as (Hnd & Hin).
  rewrite map_app, map_map. cbn [fst]. split.
  - apply NoDup_app; [| exact Hnd |].
    + apply NoDup_map_NoDup_ForallPairs; [| apply NoDup_zseq].
      intros x y _ _ E. lia.
    + intros a Ha Ha'. apply in_map_iff in Ha. destruct Ha as (k & <- & Hk).
      apply in_zseq in Hk.
      destruct (Hin _ Ha') as (m & k' & Hm & _ & Hk' & E).
      assert (HD : 1 <= d + m * d) by nia.
      replace (i + d + m * d) with (i + (d + m * d)) in E by ring.
      revert E HD. generalize (d + m * d). intros D E HD. nia.
  - intros a Ha. apply in_app_or in Ha. destruct Ha as [Ha | Ha].
    + apply in_map_iff in Ha. destruct Ha as (k & <- & Hk). apply in_zseq in Hk.
      exists 0, k. split; [lia|]. split; [lia|]. split; [exact Hk | ring].
    + destruct (Hin _ Ha) as (m & k & Hm & Hb & Hk & ->).
      exists (m + 1), k. split; [lia|]. split; [lia|]. split; [exact Hk | ring].
Qed.

(** ** No offset is stored at twice: whose chunk an offset is in *)

(** In the blocked arrangement an offset of the body tells the block and
    the thread that process it. *)
Lemma blocked_unique (VE c nb aOff b t j k b' t' j' k' : Z) :
  1 <= VE -> 1 <= nb ->
  0 <= t < 32 * nb -> 0 <= t' < 32 * nb ->
  0 <= j < c -> 0 <= j' < c ->
  0 <= k < VE -> 0 <= k' < VE ->
  aOff + c * VE * (b * (32 * nb) + t - t mod 32) + t mod 32 * VE + j * (32 * VE) + k =
  aOff + c * VE * (b' * (32 * nb) + t' - t' mod 32) + t' mod 32 * VE + j' * (32 * VE) + k' ->
  b = b' /\ t = t'.
Proof.
  intros HVE Hnb Ht Ht' Hj Hj' Hk Hk' E.
  pose proof (Z.div_mod t 32 ltac:(lia)) as Dt.
  pose proof (Z.mod_pos_bound t 32 ltac:(lia)) as Lt.
  pose proof (Z.div_mod t' 32 ltac:(lia)) as Dt'.
  pose proof (Z.mod_pos_bound t' 32 ltac:(lia)) as Lt'.
  assert (Wt : 0 <= t / 32 < nb).
  { split; [apply Z.div_pos; lia | apply Z.div_lt_upper_bound; lia]. }
  assert (Wt' : 0 <= t' / 32 < nb).
  { split; [apply Z.div_pos; lia | apply Z.div_lt_upper_bound; lia]. }
  set (lane := t mod 32) in *. set (lane' := t' mod 32) in *.
  set (w := t / 32) in *. set (w' := t' / 32) in *.
  (* the scalar within the chunk *)
  assert (E1 : (((b * nb + w) * c + j) * 32 + lane) * VE + k =
               (((b' * nb + w') * c + j') * 32 + lane') * VE + k') by nia.
  apply radix_unique in E1; [| lia | lia]. destruct E1 as [E2 _].
  (* the lane *)
  apply radix_unique in E2; [| lia | lia]. destruct E2 as [E3 El].
  (* the chunk of the thread *)
  apply radix_unique in E3; [| lia | lia]. destruct E3 as [E4 _].
  (* the warp within the block *)
  apply radix_unique in E4; [| lia | lia]. destruct E4 as [Eb Ew].
  split; [exact Eb | lia].
Qed.

(** In the striped arrangement a chunk tells the block and the thread
    that process it. *)
Lemma striped_unique (VE BS gs b t m k b' t' m' k' : Z) :
  0 <= t < BS -> 0 <= t' < BS -> 0 <= b < gs -> 0 <= b' < gs ->
  0 <= k < VE -> 0 <= k' < VE ->
  (t + b * BS + m * (BS * gs)) * VE + k = (t' + b' * BS + m' * (BS * gs)) * VE + k' ->
  b = b' /\ t = t'.
Proof.
  intros Ht Ht' Hb Hb' Hk Hk' E.
  apply radix_unique in E; [| lia | lia]. destruct E as [E _].
  assert (E1 : (m * gs + b) * BS + t = (m' * gs + b') * BS + t') by lia.
  apply radix_unique in E1; [| lia | lia]. destruct E1 as [E2 Et].
  apply radix_unique in E2; [| lia | lia]. destruct E2 as [_ Eb].
  auto.
Qed.

Lemma writes_of_places (es : list event) : map fst (writes_of es) = map ev_pos es.
Proof. unfold writes_of. rewrite map_map. reflexivity. Qed.


(** ** The host function of the blocked arrangement *)

Section Hosts.

Variables (W VE BlockSize nb rowLen nRows : Z).
Hypothesis size_pos : 1 <= sizeofT.
Hypothesis width_elems : W = VE * sizeofT.
Hypothesis elems_pos : 1 <= VE.
Hypothesis in_natural : in_addr mod sizeofT = 0.
Hypothesis out_natural : out_addr mod sizeofT = 0.
Hypothesis same_offsets : in_addr mod W = out_addr mod W.
Hypothesis block_warps : BlockSize = 32 * nb.
Hypothesis warps_pos : 1 <= nb.
Hypothesis rowLen_pos : 1 <= rowLen.
Hypothesis nRows_pos : 1 <= nRows.
Hypothesis occupy_pos : 1 <= Raft.getOptimalGridSize smCount maxBlockSize BlockSize.
Hypothesis len_uint : rowLen * nRows + BlockSize * VE <= 2 ^ 32.

Let totalLen := rowLen * nRows.
Let aOff := alignedOff W.
Let aEnd := alignedEnd W totalLen.

Lemma totalLen_pos : 1 <= totalLen.
Proof. unfold totalLen. nia. Qed.

Lemma vecCols_grid_pos (aLen : Z) :
  0 < aLen <= totalLen -> 1 <= vecCols_grid W BlockSize aLen.
Proof.
  intros Ha. unfold vecCols_grid. rewrite (VecElems_width W VE) by assumption.
  assert (Hbw : 0 < BlockSize * VE) by nia.
  fold totalLen in len_uint.
  rewrite (uint_small aLen), (uint_small (BlockSize * VE)) by lia.
  rewrite ceildiv_uint by lia.
  apply Z.min_glb; [|exact occupy_pos].
  apply Z.div_le_lower_bound; lia.
Qed.

(** The main kernel writes the aligned body and nothing else, each
    element with the value of its row. *)
Lemma cols_main_launch (n : Z) :
  0 < aEnd - aOff ->
  aEnd - aOff = n * VE ->
  let gs := vecCols_grid W BlockSize (aEnd - aOff) in
  let elemsPerThread :=
    Raft.ceildiv (fun x => x) (aEnd - aOff) (gs * VecElems W * BlockSize)
    * VecElems W in
  exists l,
    launch_threads gs BlockSize
      (matrixLinewiseVecColsMainKernel W BlockSize aOff rowLen (aEnd - aOff)
                                       elemsPerThread) = Ok l /\
    (forall a v, In (a, v) (l_writes l) ->
                 aOff <= a < aEnd /\ v = spec_out false rowLen a) /\
    (forall a, aOff <= a < aEnd -> In a (map fst (l_writes l))).
Proof.
  intros Hpos Hn gs elemsPerThread.
  destruct (aligned_body W VE size_pos width_elems elems_pos in_natural totalLen)
    as (Hoff & Hend & _ & Hal).
  fold aOff aEnd in Hoff, Hend, Hal.
  assert (Hgs : 1 <= gs) by (apply vecCols_grid_pos; lia).
  subst elemsPerThread. rewrite (VecElems_width W VE) by assumption.
  set (c := Raft.ceildiv (fun x => x) (aEnd - aOff) (gs * VE * BlockSize)).
  assert (Hwork : 0 < gs * VE * BlockSize)
    by (repeat apply Z.mul_pos_pos; lia).
  destruct (ceildiv_idx (aEnd - aOff) (gs * VE * BlockSize)) as (Hc & Hcap);
    [lia | exact Hwork |]. fold c in Hc, Hcap.
  assert (Hthread : forall b t, 0 <= b -> 0 <= t ->
    exists es,
      matrixLinewiseVecColsMainKernel W BlockSize aOff rowLen (aEnd - aOff)
                                      (c * VE) b t = Ok es /\
      forall e, In e es <->
        exists j k, 0 <= j /\
          (aOff + c * VE * (b * (32 * nb) + t - t mod 32) + t mod 32 * VE)
            + j * (32 * VE)
            < Z.min ((aOff + c * VE * (b * (32 * nb) + t - t mod 32) + t mod 32 * VE)
                     + c * VE * 32) (n * VE) /\
          0 <= k < VE /\
          e = event_at rowLen
                ((aOff + c * VE * (b * (32 * nb) + t - t mod 32) + t mod 32 * VE)
                 + j * (32 * VE) + k)
                ((aOff + c * VE * (b * (32 * nb) + t - t mod 32) + t mod 32 * VE)
                 + j * (32 * VE) + k)).
  { intros b t Hb Ht.
    destruct (matrixLinewiseVecColsMainKernel_spec W BlockSize aOff rowLen
                (aEnd - aOff) (c * VE) c b t) as (es & Hes & Hin).
    - exact rowLen_pos.
    - rewrite (VecElems_width W VE) by assumption. exact elems_pos.
    - lia.
    - lia.
    - lia.
    - rewrite (VecElems_width W VE) by assumption. reflexivity.
    - exact Hb.
    - exact Ht.
    - exact Hal.
    - apply (io_aligned_out W VE); assumption.
    - exists es. split; [exact Hes|].
      rewrite (VecElems_width W VE) in Hin by assumption.
      rewrite <- block_warps, <- Hn. exact Hin. }
  destruct (launch_threads_spec gs BlockSize
              (matrixLinewiseVecColsMainKernel W BlockSize aOff rowLen (aEnd - aOff)
                                               (c * VE)))
    as (l & Hl & _ & _ & Hw).
  { intros b t Hb Ht. destruct (Hthread b t) as (es & Hes & _); [lia | lia |].
    exists es. exact Hes. }
  exists l. split; [exact Hl|]. split.
  - intros a v Hav. apply Hw in Hav.
    destruct Hav as (b & t & es & e & Hb & Ht & Hk & He & -> & ->).
    destruct (Hthread b t) as (es' & Hes' & Hin); [lia | lia |].
    rewrite Hk in Hes'. injection Hes' as <-.
    apply Hin in He. destruct He as (j & k & Hj & Hlt & Hkk & ->).
    cbn [event_at ev_pos ev_val]. split; [|reflexivity].
    pose proof (blocked_sound VE c nb n aOff b t j k) as Hs.
    cbv zeta in Hs.
    assert (Hgoal : aOff <=
              aOff + c * VE * (b * (32 * nb) + t - t mod 32) + t mod 32 * VE
              + j * (32 * VE) + k < aOff + n * VE)
      by (apply Hs; try lia; exact Hlt).
    lia.
  - intros a Ha.
    destruct (blocked_cover VE c nb gs n aOff a) as (b & t & j & k & Hb & Ht & Hj & Hk & Hlt & Hp);
      try lia.
    destruct (Hthread b t) as (es & Hes & Hin); [lia | lia |].
    apply in_map_iff.
    exists (a, ev_val (event_at rowLen a a)). split; [reflexivity|].
    apply Hw. exists b, t, es, (event_at rowLen a a).
    split; [lia|]. split; [lia|]. split; [exact Hes|]. split; [|auto].
    apply Hin. exists j, k. split; [lia|]. split; [exact Hlt|]. split; [lia|].
    rewrite Hp. reflexivity.
Qed.

(** The boundary kernel writes the head with block 0 and the tail with
    block 1, each element that lies in the matrix with the value of its
    row. *)
Lemma cols_tail_launch :
  exists l,
    launch_threads 2 (MaxOffset W)
      (matrixLinewiseVecColsTailKernel aOff aEnd rowLen totalLen) = Ok l /\
    (forall a v, In (a, v) (l_writes l) ->
                 (0 <= a < aOff \/ aEnd <= a < totalLen) /\
                 (0 <= a -> v = spec_out false rowLen a)) /\
    (forall a, 0 <= a < aOff \/ aEnd <= a < totalLen -> In a (map fst (l_writes l))).
Proof.
  destruct (aligned_body W VE size_pos width_elems elems_pos in_natural totalLen)
    as (Hoff & Hend & _ & _).
  fold aOff aEnd in Hoff, Hend.
  destruct (MaxOffset_bound W VE size_pos width_elems elems_pos) as (HMO & _).
  pose proof (fun b t =>
    matrixLinewiseVecColsTailKernel_spec aOff aEnd rowLen totalLen b t
      rowLen_pos size_pos in_natural out_natural) as Hthread.
  cbv zeta in Hthread.
  destruct (launch_threads_spec 2 (MaxOffset W)
              (matrixLinewiseVecColsTailKernel aOff aEnd rowLen totalLen))
    as (l & Hl & _ & _ & Hw).
  { intros b t _ _. destruct (Hthread b t) as (es & Hes & _). exists es. exact Hes. }
  exists l. split; [exact Hl|]. split.
  - intros a v Hav. apply Hw in Hav.
    destruct Hav as (b & t & es & e & Hb & Ht & Hk & He & -> & ->).
    destruct (Hthread b t) as (es' & Hes' & Hoffc & Hon).
    rewrite Hk in Hes'. injection Hes' as <-.
    destruct (if b =? 0 then t <? aOff else aEnd + t <? totalLen) eqn:Hact.
    + destruct (Hon eq_refl) as (e' & -> & Hpos & Hval).
      destruct He as [<- | []]. rewrite Hpos. split.
      * destruct (Z.eqb_spec b 0).
        -- apply Z.ltb_lt in Hact. left. lia.
        -- apply Z.ltb_lt in Hact. right. lia.
      * intros Hnn. rewrite Hval by exact Hnn. reflexivity.
    + rewrite (Hoffc eq_refl) in He. destruct He.
  - intros a Ha.
    assert (Hex : exists b t, 0 <= b < 2 /\ 0 <= t < MaxOffset W /\
              (if b =? 0 then t else aEnd + t) = a /\
              (if b =? 0 then t <? aOff else aEnd + t <? totalLen) = true).
    { destruct Ha as [Ha | Ha].
      - exists 0, a. cbn [Z.eqb]. split; [lia|]. split; [lia|]. split; [reflexivity|].
        apply Z.ltb_lt. lia.
      - exists 1, (a - aEnd). cbn [Z.eqb]. split; [lia|]. split; [lia|].
        split; [lia|]. apply Z.ltb_lt. lia. }
    destruct Hex as (b & t & Hb & Ht & Hpos & Hact).
    destruct (Hthread b t) as (es & Hes & _ & Hon).
    destruct (Hon Hact) as (e & -> & Hep & _).
    apply in_map_iff. exists (a, ev_val e). split; [reflexivity|].
    apply Hw. exists b, t, [e], e. split; [lia|]. split; [lia|].
    split; [exact Hes|]. split; [left; reflexivity|]. split; [|reflexivity].
    rewrite Hep. symmetry. exact Hpos.
Qed.

Lemma all_writes_app (l1 l2 : list launch) :
  all_writes (l1 ++ l2) = all_writes l1 ++ all_writes l2.
Proof. unfold all_writes. apply flat_map_app. Qed.

Lemma all_writes_one (l : launch) : all_writes [l] = l_writes l.
Proof. unfold all_writes. cbn [flat_map]. apply app_nil_r. Qed.

(** [matrixLinewiseVecCols]: one or two launches, which store at every
    offset of the matrix, and only values that the row of the offset
    determines. *)
Lemma matrixLinewiseVecCols_spec :
  exists ls,
    matrixLinewiseVecCols W BlockSize rowLen nRows = Ok ls /\
    (1 <= length ls <= 2)%nat /\
    (forall a v, In (a, v) (all_writes ls) -> 0 <= a -> v = spec_out false rowLen a) /\
    (forall a, 0 <= a < totalLen -> In a (map fst (all_writes ls))).
Proof.
  destruct (aligned_body W VE size_pos width_elems elems_pos in_natural totalLen)
    as (Hoff & Hend & (n & Hn) & _).
  fold aOff aEnd in Hoff, Hend, Hn.
  pose proof totalLen_pos as Htot.
  unfold matrixLinewiseVecCols. fold totalLen aOff aEnd.
  destruct cols_tail_launch as (lt & Hlt & Htsound & Htcov).
  destruct (Z.ltb_spec 0 (aEnd - aOff)) as [Hmain | Hnomain].
  - destruct (cols_main_launch n Hmain Hn) as (lm & Hlm & Hmsound & Hmcov).
    cbv zeta in Hlm. rewrite Hlm. cbn [bind].
    destruct (Z.ltb_spec (aEnd - aOff) totalLen) as [Htail | Hnotail].
    + rewrite Hlt. cbn [bind app]. eexists. split; [reflexivity|].
      split; [cbn [length]; lia|].
      change [lm; lt] with ([lm] ++ [lt]).
      rewrite all_writes_app, !all_writes_one. split.
      * intros a v Hav Ha. apply in_app_iff in Hav. destruct Hav as [Hav | Hav].
        -- apply Hmsound. exact Hav.
        -- apply Htsound; assumption.
      * intros a Ha. rewrite map_app, in_app_iff.
        destruct (Z_lt_le_dec a aOff); [right; apply Htcov; lia|].
        destruct (Z_lt_le_dec a aEnd); [left; apply Hmcov; lia|].
        right. apply Htcov. lia.
    + cbn [bind app]. eexists. split; [reflexivity|].
      split; [cbn [length]; lia|]. rewrite all_writes_one. split.
      * intros a v Hav Ha. apply Hmsound. exact Hav.
      * intros a Ha. apply Hmcov. lia.
  - cbn [bind]. destruct (Z.ltb_spec (aEnd - aOff) totalLen) as [Htail | Hnotail]; [|lia].
    rewrite Hlt. cbn [bind app]. eexists. split; [reflexivity|].
    split; [cbn [length]; lia|]. rewrite all_writes_one. split.
    + intros a v Hav Ha. apply Htsound; assumption.
    + intros a Ha. apply Htcov.
      destruct (Z_lt_le_dec a aOff); [left; lia | right; lia].
Qed.


(** *** The host function of the striped arrangement *)

Hypothesis occupy_rowLen :
  Raft.getOptimalGridSize smCount maxBlockSize BlockSize + rowLen <= 2 ^ 32.

Lemma vecRows_grid_spec :
  let gs := vecRows_grid W BlockSize rowLen nRows in
  1 <= gs /\
  ((rowLen | gs * (BlockSize * VE)) \/ totalLen <= gs * (BlockSize * VE)).
Proof.
  intros gs.
  destruct (vecRows_grid_unfold W BlockSize rowLen nRows) as (_ & _ & Hegs & Hgcd & Hgs);
    try rewrite (VecElems_width W VE) by assumption; try lia.
  rewrite (VecElems_width W VE) in Hegs, Hgcd, Hgs by assumption.
  fold gs in Hgs. fold totalLen in Hgs.
  set (bws := BlockSize * VE) in *.
  set (egs := rowLen / Z.gcd bws rowLen) in *.
  set (occupy := Raft.getOptimalGridSize smCount maxBlockSize BlockSize) in *.
  assert (Hbws : 1 <= bws) by (unfold bws; nia).
  pose proof totalLen_pos as Htot.
  pose proof (Z.div_mod (totalLen + bws - 1) bws ltac:(lia)) as Hf.
  pose proof (Z.mod_pos_bound (totalLen + bws - 1) bws ltac:(lia)) as Hfm.
  assert (Hf1 : 1 <= (totalLen + bws - 1) / bws)
    by (apply Z.div_le_lower_bound; lia).
  assert (HK1 : 1 <= (occupy + egs - 1) / egs)
    by (apply Z.div_le_lower_bound; lia).
  destruct (Z.min_spec ((totalLen + bws - 1) / bws) ((occupy + egs - 1) / egs * egs))
    as [(_ & Hmin) | (_ & Hmin)]; rewrite Hmin in Hgs; rewrite Hgs.
  - split; [lia|]. right. nia.
  - split; [nia|]. left.
    destruct (Z.gcd_divide_l bws rowLen) as (y & Hy).
    exists ((occupy + egs - 1) / egs * y).
    set (K := (occupy + egs - 1) / egs).
    set (g := Z.gcd bws rowLen) in *.
    clearbody K egs g. rewrite <- Hgcd, Hy. ring.
Qed.

Lemma rows_main_block (n gs b : Z) :
  aEnd - aOff = n * VE -> 0 < gs -> 0 <= b ->
  exists ws,
    matrixLinewiseVecRowsMainKernel W BlockSize gs aOff aOff aOff rowLen
                                    (aEnd - aOff) b = Ok ws /\
    forall a v, In (a, v) ws <->
      exists t m k,
        0 <= t < BlockSize /\ 0 <= m /\ t + b * BlockSize + m * (BlockSize * gs) < n /\
        0 <= k < VE /\
        a = aOff + (t + b * BlockSize + m * (BlockSize * gs)) * VE + k /\
        v = op (inm a)
               (map (fun p => p ((Z.rem (aOff + BlockSize * VE * b) rowLen
                                  + t * VE + k) mod rowLen)) vecs).
Proof.
  intros Hn Hgs Hb.
  destruct (aligned_body W VE size_pos width_elems elems_pos in_natural totalLen)
    as (Hoff & _ & _ & Hal).
  fold aOff in Hoff, Hal.
  assert (HBS : 0 < BlockSize) by lia.
  unfold matrixLinewiseVecRowsMainKernel.
  rewrite (VecElems_width W VE) by assumption.
  set (blockOffset := Z.rem (aOff + BlockSize * VE * b) rowLen).
  assert (Hbo : 0 <= blockOffset) by (apply Z.rem_nonneg; nia).
  destruct (loadVecs_spec W BlockSize (VE * BlockSize) vecs (VE * BlockSize) shm0
              blockOffset rowLen rowLen_pos HBS) as (chunks & Hch & Hmap).
  rewrite (VecElems_width W VE) in Hmap by assumption.
  rewrite Hch. cbn [bind].
  unfold Pow2.div. rewrite Hn, Z.div_mul by lia.
  assert (Hthread : forall t, 0 <= t < BlockSize ->
    exists ws,
      vectorRows W BlockSize gs b t aOff aOff n
                 (map (fun c : Z -> Vec => c t) chunks) = Ok ws /\
      forall a v, In (a, v) ws <->
        exists m k, 0 <= m /\ t + b * BlockSize + m * (BlockSize * gs) < n /\
                    0 <= k < VE /\
                    a = aOff + (t + b * BlockSize + m * (BlockSize * gs)) * VE + k /\
                    v = op (inm a)
                           (map (fun p => p ((blockOffset + t * VE + k) mod rowLen)) vecs)).
  { intros t Ht. unfold vectorRows.
    destruct (vectorRows_loop_spec (S (Z.to_nat n)) W aOff aOff n (BlockSize * gs)
                (t + b * BlockSize) (map (fun c : Z -> Vec => c t) chunks))
      as (ws & Hws & Hin).
    - nia.
    - intros i'. replace ((aOff + i' * VecElems W) * sizeofT)
        with (aOff * sizeofT + i' * VecElems W * sizeofT) by ring.
      rewrite Z.add_assoc. apply io_aligned_next. exact Hal.
    - intros i'. replace ((aOff + i' * VecElems W) * sizeofT)
        with (aOff * sizeofT + i' * VecElems W * sizeofT) by ring.
      rewrite Z.add_assoc. apply io_aligned_next.
      apply (io_aligned_out W VE); assumption.
    - nia.
    - exists ws. split; [exact Hws|].
      rewrite (VecElems_width W VE) in Hin by assumption.
      intros a v. rewrite Hin. split.
      + intros (m & k & Hm & Hlt & Hk & -> & ->). exists m, k.
        split; [lia|]. split; [lia|]. split; [lia|]. split; [reflexivity|].
        f_equal. rewrite map_map. apply Hmap; try lia.
        pose proof (Z.mod_pos_bound (t * VE + k) BlockSize HBS). lia.
      + intros (m & k & Hm & Hlt & Hk & -> & ->). exists m, k.
        split; [lia|]. split; [lia|]. split; [lia|]. split; [reflexivity|].
        f_equal. rewrite map_map. symmetry. apply Hmap; try lia.
        pose proof (Z.mod_pos_bound (t * VE + k) BlockSize HBS). lia. }
  destruct (collect_exists
              (fun t => vectorRows W BlockSize gs b t aOff aOff n
                          (map (fun c : Z -> Vec => c t) chunks))
              (zseq BlockSize)) as (ws & Hws & Hin).
  { intros t Ht. apply in_zseq in Ht. destruct (Hthread t Ht) as (x & Hx & _).
    exists x. exact Hx. }
  exists ws. split; [exact Hws|].
  intros a v. rewrite Hin. split.
  - intros (t & x & Ht & Hx & Hav). apply in_zseq in Ht.
    destruct (Hthread t Ht) as (x' & Hx' & Hin').
    rewrite Hx in Hx'. injection Hx' as <-.
    apply Hin' in Hav. destruct Hav as (m & k & H1 & H2 & H3 & H4 & H5).
    exists t, m, k. auto 10.
  - intros (t & m & k & Ht & H1 & H2 & H3 & H4 & H5).
    destruct (Hthread t Ht) as (x & Hx & Hin').
    exists t, x. split; [apply in_zseq; exact Ht|]. split; [exact Hx|].
    apply Hin'. exists m, k. auto.
Qed.

(** The main kernel writes the aligned body and nothing else, each
    element with the value of its position within the row. *)
Lemma rows_main_launch (n : Z) :
  0 < aEnd - aOff ->
  aEnd - aOff = n * VE ->
  let gs := vecRows_grid W BlockSize rowLen nRows in
  exists l,
    launch_blocks gs BlockSize
      (matrixLinewiseVecRowsMainKernel W BlockSize gs aOff aOff aOff rowLen
                                       (aEnd - aOff)) = Ok l /\
    (forall a v, In (a, v) (l_writes l) ->
                 aOff <= a < aEnd /\ v = spec_out true rowLen a) /\
    (forall a, aOff <= a < aEnd -> In a (map fst (l_writes l))).
Proof.
  intros Hpos Hn gs.
  destruct (aligned_body W VE size_pos width_elems elems_pos in_natural totalLen)
    as (Hoff & Hend & _ & _).
  fold aOff aEnd in Hoff, Hend.
  destruct vecRows_grid_spec as (Hgs & Hgrid). fold gs in Hgs, Hgrid.
  assert (Hgrid' : (rowLen | gs * (BlockSize * VE)) \/ n * VE <= gs * (BlockSize * VE)).
  { destruct Hgrid as [Hd | Hc]; [left; exact Hd | right; lia]. }
  destruct (launch_blocks_spec gs BlockSize
              (matrixLinewiseVecRowsMainKernel W BlockSize gs aOff aOff aOff rowLen
                                               (aEnd - aOff)))
    as (l & Hl & _ & _ & Hw).
  { intros b Hb. destruct (rows_main_block n gs b Hn) as (ws & Hws & _); [lia | lia |].
    exists ws. exact Hws. }
  exists l. split; [exact Hl|]. split.
  - intros a v Hav. apply Hw in Hav. destruct Hav as (b & ws & Hb & Hk & Hav).
    destruct (rows_main_block n gs b Hn) as (ws' & Hws' & Hin); [lia | lia |].
    rewrite Hk in Hws'. injection Hws' as <-.
    apply Hin in Hav. destruct Hav as (t & m & k & Ht & Hm & Hlt & Hkk & Ha & ->).
    split.
    { assert (Hbb : 0 <= b * BlockSize) by nia.
      assert (Hmm : 0 <= m * (BlockSize * gs))
        by (apply Z.mul_nonneg_nonneg; nia).
      assert (Hi0 : 0 <= t + b * BlockSize + m * (BlockSize * gs)) by lia.
      set (i := t + b * BlockSize + m * (BlockSize * gs)) in *. nia. }
    unfold spec_out, index_of. f_equal. apply map_ext. intros p. f_equal.
    rewrite Ha. apply (striped_index VE BlockSize gs n); try lia. exact Hgrid'.
  - intros a Ha.
    destruct (striped_cover VE BlockSize gs n (a - aOff))
      as (b & t & m & k & Hb & Ht & Hm & Hk & Hlt & Hq); try lia.
    destruct (rows_main_block n gs b Hn) as (ws & Hws & Hin); [lia | lia |].
    apply in_map_iff. eexists (a, _). split; [reflexivity|].
    apply Hw. exists b, ws. split; [lia|]. split; [exact Hws|].
    apply Hin. exists t, m, k. split; [lia|]. split; [lia|]. split; [lia|].
    split; [lia|]. split; [lia|]. reflexivity.
Qed.


(** A thread of the boundary kernel of the striped arrangement: the
    range left to its block is shorter than the block, so that the
    thread processes one element or none. *)
Lemma rows_tail_thread (MO blk t base len : Z) (args : list Vec) :
  1 <= MO -> 0 <= t < MO -> 0 <= blk -> len - blk * MO < MO ->
  exists ws,
    vectorRows sizeofT MO 2 blk t base base len args = Ok ws /\
    forall a v, In (a, v) ws <->
      t + blk * MO < len /\ a = base + (t + blk * MO) /\
      v = op (inm a) (map (fun c : Vec => c 0) args).
Proof.
  intros HMO Ht Hblk Hlen. unfold vectorRows.
  destruct (vectorRows_loop_spec (S (Z.to_nat len)) sizeofT base base len (MO * 2)
              (t + blk * MO) args) as (ws & Hws & Hin).
  - lia.
  - intros i'. apply io_aligned_scalar; assumption.
  - intros i'. apply io_aligned_scalar; assumption.
  - nia.
  - exists ws. split; [exact Hws|].
    rewrite VecElems_scalar in Hin by exact size_pos.
    intros a v. rewrite Hin. split.
    + intros (m & k & Hm & Hlt & Hk & -> & ->).
      assert (m = 0) by nia. assert (k = 0) by lia. subst m k.
      replace (t + blk * MO + 0 * (MO * 2)) with (t + blk * MO) in * by ring.
      split; [exact Hlt|]. split; [ring|]. reflexivity.
    + intros (Hlt & -> & ->). exists 0, 0.
      replace (t + blk * MO + 0 * (MO * 2)) with (t + blk * MO) by ring.
      split; [lia|]. split; [exact Hlt|]. split; [lia|]. split; [ring|].
      f_equal. f_equal. ring.
Qed.

Lemma rem_shift (x t : Z) :
  0 <= t -> 0 <= x + t ->
  0 <= Z.rem x rowLen + t /\
  (Z.rem x rowLen + t) mod rowLen = (x + t) mod rowLen.
Proof.
  intros Ht Hxt.
  pose proof (Z.quot_rem x rowLen ltac:(lia)) as Hqr.
  pose proof (Z.rem_bound_abs x rowLen ltac:(lia)) as Hab.
  split.
  - destruct (Z_lt_le_dec x 0) as [Hneg | Hnn].
    + pose proof (Z.quot_opp_l x rowLen ltac:(lia)) as Hq.
      assert (Hq0 : 0 <= Z.quot (- x) rowLen) by (apply Z.quot_pos; lia).
      nia.
    + pose proof (Z.rem_nonneg x rowLen ltac:(lia) Hnn). lia.
  - replace (x + t) with (Z.rem x rowLen + t + Z.quot x rowLen * rowLen) by lia.
    rewrite Z.mod_add by lia. reflexivity.
Qed.

Lemma rows_tail_block (b : Z) :
  b = 0 \/ b = 1 ->
  exists ws,
    matrixLinewiseVecRowsTailKernel (MaxOffset W) aOff aEnd rowLen totalLen b = Ok ws /\
    (forall a v, In (a, v) ws ->
       ((b = 0 /\ 0 <= a < aOff) \/ (b = 1 /\ aEnd <= a < totalLen)) /\
       (0 <= a -> v = spec_out true rowLen a)) /\
    (forall a, (b = 0 /\ 0 <= a < aOff) \/ (b = 1 /\ aEnd <= a < totalLen) ->
               In a (map fst ws)).
Proof.
  intros Hb01.
  destruct (aligned_body W VE size_pos width_elems elems_pos in_natural totalLen)
    as (Hoff & Hend & _ & _).
  fold aOff aEnd in Hoff, Hend.
  destruct (MaxOffset_bound W VE size_pos width_elems elems_pos) as (HMO & HMO32).
  set (MO := MaxOffset W) in *.
  assert (HMOpos : 0 < MO) by lia.
  unfold matrixLinewiseVecRowsTailKernel.
  set (blockOffset := if b =? 0 then 0 else Z.rem aEnd rowLen).
  set (base := if b =? 0 then 0 else aEnd - MO).
  set (len := if b =? 0 then aOff else totalLen - aEnd + MO).
  destruct (loadVecs_spec sizeofT MO MO vecs MO shm0 blockOffset rowLen rowLen_pos HMOpos)
    as (chunks & Hch & Hmap).
  rewrite VecElems_scalar in Hmap by exact size_pos.
  assert (Hkernel :
    (if b =? 0
     then chunks0 <- loadVecs sizeofT MO MO vecs MO shm0 0 rowLen ;;
          collect (map (fun threadIdx =>
                          vectorRows sizeofT MO 2 b threadIdx 0 0 aOff
                            (map (fun c : Z -> Vec => c threadIdx) chunks0))
                       (zseq MO))
     else chunks0 <- loadVecs sizeofT MO MO vecs MO shm0 (Z.rem aEnd rowLen) rowLen ;;
          collect (map (fun threadIdx =>
                          vectorRows sizeofT MO 2 b threadIdx (aEnd - MO) (aEnd - MO)
                            (totalLen - aEnd + MO)
                            (map (fun c : Z -> Vec => c threadIdx) chunks0))
                       (zseq MO)))
    = collect (map (fun threadIdx =>
                      vectorRows sizeofT MO 2 b threadIdx base base len
                        (map (fun c : Z -> Vec => c threadIdx) chunks))
                   (zseq MO))).
  { subst blockOffset base len. destruct (b =? 0); rewrite Hch; reflexivity. }
  rewrite Hkernel. clear Hkernel.
  assert (Hlen : len - b * MO < MO).
  { subst len. destruct Hb01 as [-> | ->]; cbn [Z.eqb]; lia. }
  assert (Hthread : forall t, 0 <= t < MO ->
    exists ws,
      vectorRows sizeofT MO 2 b t base base len
                 (map (fun c : Z -> Vec => c t) chunks) = Ok ws /\
      forall a v, In (a, v) ws <->
        t + b * MO < len /\ a = base + (t + b * MO) /\
        v = op (inm a) (map (fun c : Vec => c 0) (map (fun c : Z -> Vec => c t) chunks))).
  { intros t Ht. apply rows_tail_thread; lia. }
  destruct (collect_exists
              (fun t => vectorRows sizeofT MO 2 b t base base len
                          (map (fun c : Z -> Vec => c t) chunks))
              (zseq MO)) as (ws & Hws & Hin).
  { intros t Ht. apply in_zseq in Ht. destruct (Hthread t Ht) as (x & Hx & _).
    exists x. exact Hx. }
  exists ws. split; [exact Hws|]. split.
  - intros a v Hav. apply Hin in Hav. destruct Hav as (t & x & Ht & Hx & Hav).
    apply in_zseq in Ht. destruct (Hthread t Ht) as (x' & Hx' & Hin').
    rewrite Hx in Hx'. injection Hx' as <-.
    apply Hin' in Hav. destruct Hav as (Hlt & Ha & ->). split.
    + subst base len. destruct Hb01 as [-> | ->]; cbn [Z.eqb] in *; [left | right]; lia.
    + intros Ha0. unfold spec_out, index_of. f_equal. rewrite map_map.
      assert (Hidx : 0 <= blockOffset + t /\
                     (blockOffset + t) mod rowLen = a mod rowLen).
      { subst blockOffset base len. destruct Hb01 as [-> | ->]; cbn [Z.eqb] in *.
        - split; [lia|]. f_equal. lia.
        - replace a with (aEnd + t) in * by lia. apply rem_shift; lia. }
      destruct Hidx as (Hnn & Hmod).
      rewrite (Hmap t 0); try lia.
      * apply map_ext. intros p. f_equal.
        replace (blockOffset + t * 1 + 0) with (blockOffset + t) by ring. exact Hmod.
      * replace (t * 1 + 0) with t by ring. rewrite Z.mod_small by lia. exact Hnn.
  - intros a Ha.
    assert (Hex : exists t, 0 <= t < MO /\ t + b * MO < len /\ a = base + (t + b * MO)).
    { subst base len. destruct Ha as [(-> & Ha) | (-> & Ha)]; cbn [Z.eqb].
      - exists a. lia.
      - exists (a - aEnd). lia. }
    destruct Hex as (t & Ht & Hlt & Hat).
    destruct (Hthread t Ht) as (x & Hx & Hin').
    apply in_map_iff. eexists (a, _). split; [reflexivity|].
    apply Hin. exists t, x. split; [apply in_zseq; exact Ht|]. split; [exact Hx|].
    apply Hin'. split; [exact Hlt|]. split; [exact Hat|]. reflexivity.
Qed.

Lemma rows_tail_launch :
  exists l,
    launch_blocks 2 (MaxOffset W)
      (matrixLinewiseVecRowsTailKernel (MaxOffset W) aOff aEnd rowLen totalLen) = Ok l /\
    (forall a v, In (a, v) (l_writes l) ->
                 (0 <= a < aOff \/ aEnd <= a < totalLen) /\
                 (0 <= a -> v = spec_out true rowLen a)) /\
    (forall a, 0 <= a < aOff \/ aEnd <= a < totalLen -> In a (map fst (l_writes l))).
Proof.
  destruct (launch_blocks_spec 2 (MaxOffset W)
              (matrixLinewiseVecRowsTailKernel (MaxOffset W) aOff aEnd rowLen totalLen))
    as (l & Hl & _ & _ & Hw).
  { intros b Hb. destruct (rows_tail_block b) as (ws & Hws & _); [lia|].
    exists ws. exact Hws. }
  exists l. split; [exact Hl|]. split.
  - intros a v Hav. apply Hw in Hav. destruct Hav as (b & ws & Hb & Hk & Hav).
    destruct (rows_tail_block b) as (ws' & Hws' & Hsound & _); [lia|].
    rewrite Hk in Hws'. injection Hws' as <-.
    destruct (Hsound a v Hav) as (Hrange & Hval). split; [|exact Hval].
    destruct Hrange as [(_ & H) | (_ & H)]; [left | right]; exact H.
  - intros a Ha.
    set (b := if Z_lt_le_dec a aOff then if Z_le_gt_dec 0 a then 0 else 1 else 1).
    assert (Hb : (b = 0 /\ 0 <= a < aOff) \/ (b = 1 /\ aEnd <= a < totalLen)).
    { subst b. destruct (Z_lt_le_dec a aOff); [destruct (Z_le_gt_dec 0 a)|]; lia. }
    destruct (rows_tail_block b) as (ws & Hws & _ & Hcov); [lia|].
    specialize (Hcov a Hb). apply in_map_iff in Hcov.
    destruct Hcov as ([a' v] & Ha' & Hav). cbn [fst] in Ha'. subst a'.
    apply in_map_iff. exists (a, v). split; [reflexivity|].
    apply Hw. exists b, ws. split; [lia|]. auto.
Qed.

(** [matrixLinewiseVecRows]: one or two launches, which store at every
    offset of the matrix, and only values that the position of the
    offset within its row determines. *)
Lemma matrixLinewiseVecRows_spec :
  exists ls,
    matrixLinewiseVecRows W BlockSize rowLen nRows = Ok ls /\
    (1 <= length ls <= 2)%nat /\
    (forall a v, In (a, v) (all_writes ls) -> 0 <= a -> v = spec_out true rowLen a) /\
    (forall a, 0 <= a < totalLen -> In a (map fst (all_writes ls))).
Proof.
  destruct (aligned_body W VE size_pos width_elems elems_pos in_natural totalLen)
    as (Hoff & Hend & (n & Hn) & _).
  fold aOff aEnd in Hoff, Hend, Hn.
  pose proof totalLen_pos as Htot.
  unfold matrixLinewiseVecRows. fold totalLen aOff aEnd.
  destruct rows_tail_launch as (lt & Hlt & Htsound & Htcov).
  destruct (Z.ltb_spec 0 (aEnd - aOff)) as [Hmain | Hnomain].
  - destruct (rows_main_launch n Hmain Hn) as (lm & Hlm & Hmsound & Hmcov).
    cbv zeta in Hlm. rewrite Hlm. cbn [bind].
    destruct (Z.ltb_spec (aEnd - aOff) totalLen) as [Htail | Hnotail].
    + rewrite Hlt. cbn [bind app]. eexists. split; [reflexivity|].
      split; [cbn [length]; lia|].
      change [lm; lt] with ([lm] ++ [lt]).
      rewrite all_writes_app, !all_writes_one. split.
      * intros a v Hav Ha. apply in_app_iff in Hav. destruct Hav as [Hav | Hav].
        -- apply Hmsound. exact Hav.
        -- apply Htsound; assumption.
      * intros a Ha. rewrite map_app, in_app_iff.
        destruct (Z_lt_le_dec a aOff); [right; apply Htcov; lia|].
        destruct (Z_lt_le_dec a aEnd); [left; apply Hmcov; lia|].
        right. apply Htcov. lia.
    + cbn [bind app]. eexists. split; [reflexivity|].
      split; [cbn [length]; lia|]. rewrite all_writes_one. split.
      * intros a v Hav Ha. apply Hmsound. exact Hav.
      * intros a Ha. apply Hmcov. lia.
  - cbn [bind]. destruct (Z.ltb_spec (aEnd - aOff) totalLen) as [Htail | Hnotail]; [|lia].
    rewrite Hlt. cbn [bind app]. eexists. split; [reflexivity|].
    split; [cbn [length]; lia|]. rewrite all_writes_one. split.
    + intros a v Hav Ha. apply Htsound; assumption.
    + intros a Ha. apply Htcov.
      destruct (Z_lt_le_dec a aOff); [left; lia | right; lia].
Qed.


(** *** No offset is stored at twice: the four launches *)

Lemma cols_main_once (gs c : Z) (l : launch) :
  launch_threads gs BlockSize
    (matrixLinewiseVecColsMainKernel W BlockSize aOff rowLen (aEnd - aOff)
                                     (c * VecElems W)) = Ok l ->
  NoDup (map fst (l_writes l)).
Proof.
  intros Hl. unfold launch_threads in Hl.
  apply bind_ok in Hl. destruct Hl as (es & Hc & Hl). injection Hl as <-.
  cbn [l_writes]. rewrite writes_of_places.
  set (place := fun b t j k =>
         aOff + c * VE * (b * (32 * nb) + t - t mod 32) + t mod 32 * VE
         + j * (32 * VE) + k).
  set (Pt := fun b t a => 0 <= t < BlockSize /\
         exists j k, 0 <= j < c /\ 0 <= k < VE /\ a = place b t j k).
  set (P := fun b a => exists t, Pt b t a).
  refine (proj1 (collect_NoDup ev_pos P _ _ _ (NoDup_zseq gs) Hc _ _)).
  - intros b x _ Hx.
    destruct (collect_NoDup ev_pos (Pt b) _ _ _ (NoDup_zseq BlockSize) Hx)
      as (Hnd & Hfrom).
    + intros t es' Ht Hk. apply in_zseq in Ht.
      unfold matrixLinewiseVecColsMainKernel, vectorCols in Hk.
      apply vectorCols_loop_places in Hk. destruct Hk as (Hnd & Hin).
      split; [exact Hnd|].
      intros a Ha. destruct (Hin a Ha) as (j & k & Hj & Hlt & Hk & ->).
      unfold Pow2.mod_, Pow2.Value, Raft.WarpSize in *.
      rewrite (VecElems_width W VE) in * by assumption.
      split; [exact Ht|]. exists j, k.
      split; [split; [exact Hj | nia] |]. split; [exact Hk|].
      unfold place. rewrite block_warps. ring.
    + unfold Pt. intros t t' a _ _ (Ht & j & k & Hj & Hk & Ea) (Ht' & j' & k' & Hj' & Hk' & Ea').
      unfold place in Ea, Ea'. rewrite Ea in Ea'.
      apply blocked_unique in Ea'; lia.
    + split; [exact Hnd|]. intros a Ha.
      destruct (Hfrom a Ha) as (t & _ & HP). exists t. exact HP.
  - unfold P, Pt.
    intros b b' a _ _ (t & Ht & j & k & Hj & Hk & Ea) (t' & Ht' & j' & k' & Hj' & Hk' & Ea').
    unfold place in Ea, Ea'. rewrite Ea in Ea'.
    apply blocked_unique in Ea'; lia.
Qed.

Lemma cols_tail_once (l : launch) :
  aOff <= aEnd ->
  launch_threads 2 (MaxOffset W)
    (matrixLinewiseVecColsTailKernel aOff aEnd rowLen totalLen) = Ok l ->
  NoDup (map fst (l_writes l)).
Proof.
  intros Hord Hl. unfold launch_threads in Hl.
  apply bind_ok in Hl. destruct Hl as (es & Hc & Hl). injection Hl as <-.
  cbn [l_writes]. rewrite writes_of_places.
  set (Pt := fun b t a =>
         a = (if b =? 0 then t else aEnd + t) /\
         (if b =? 0 then t <? aOff else aEnd + t <? totalLen) = true).
  set (P := fun b a => 0 <= b < 2 /\ exists t, 0 <= t /\ Pt b t a).
  refine (proj1 (collect_NoDup ev_pos P _ _ _ (NoDup_zseq 2) Hc _ _)).
  - intros b x Hb Hx. apply in_zseq in Hb.
    destruct (collect_NoDup ev_pos (fun t a => 0 <= t /\ Pt b t a) _ _ _
                (NoDup_zseq (MaxOffset W)) Hx) as (Hnd & Hfrom).
    + intros t es' Ht Hk. apply in_zseq in Ht.
      destruct (matrixLinewiseVecColsTailKernel_spec aOff aEnd rowLen totalLen b t
                  rowLen_pos size_pos in_natural out_natural)
        as (es'' & Hes'' & Hoffc & Hon).
      rewrite Hk in Hes''. injection Hes'' as <-.
      destruct (if b =? 0 then t <? aOff else aEnd + t <? totalLen) eqn:Hact.
      * destruct (Hon eq_refl) as (e & -> & Hpos & _).
        cbn [map]. split; [repeat constructor; intros []|].
        intros a [<- | []]. split; [lia|]. split; [exact Hpos | exact Hact].
      * rewrite (Hoffc eq_refl). split; [constructor | intros a []].
    + unfold Pt. intros t t' a _ _ (_ & Ea & _) (_ & Ea' & _). rewrite Ea in Ea'.
      destruct (b =? 0); lia.
    + split; [exact Hnd|]. intros a Ha.
      destruct (Hfrom a Ha) as (t & _ & Ht & HP).
      split; [exact Hb|]. exists t. split; [exact Ht | exact HP].
  - unfold P, Pt.
    intros b b' a _ _ (Hb & t & Ht & Ea & Hact) (Hb' & t' & Ht' & Ea' & Hact').
    destruct (Z.eqb_spec b 0) as [E | E]; destruct (Z.eqb_spec b' 0) as [E' | E'];
      lia.
Qed.

Lemma rows_main_once (gs : Z) (l : launch) :
  0 < gs ->
  launch_blocks gs BlockSize
    (matrixLinewiseVecRowsMainKernel W BlockSize gs aOff aOff aOff rowLen
                                     (aEnd - aOff)) = Ok l ->
  NoDup (map fst (l_writes l)).
Proof.
  intros Hgs Hl. unfold launch_blocks in Hl.
  apply bind_ok in Hl. destruct Hl as (ws & Hc & Hl). injection Hl as <-.
  cbn [l_writes].
  set (Pt := fun b t a => 0 <= t < BlockSize /\
         exists m k, 0 <= k < VE /\
                     a = aOff + (t + b * BlockSize + m * (BlockSize * gs)) * VE + k).
  set (P := fun b a => 0 <= b < gs /\ exists t, Pt b t a).
  refine (proj1 (collect_NoDup fst P _ _ _ (NoDup_zseq gs) Hc _ _)).
  - intros b x Hb Hx. apply in_zseq in Hb.
    unfold matrixLinewiseVecRowsMainKernel in Hx. cbv zeta in Hx.
    apply bind_ok in Hx. destruct Hx as (chunks & _ & Hx).
    destruct (collect_NoDup fst (Pt b) _ _ _ (NoDup_zseq BlockSize) Hx)
      as (Hnd & Hfrom).
    + intros t ws' Ht Hk. apply in_zseq in Ht.
      unfold vectorRows in Hk. cbv zeta in Hk.
      apply vectorRows_loop_places in Hk; [| nia].
      destruct Hk as (Hnd & Hin). split; [exact Hnd|].
      intros a Ha. destruct (Hin a Ha) as (m & k & Hm & _ & Hk & ->).
      rewrite (VecElems_width W VE) in * by assumption.
      split; [exact Ht|]. exists m, k. split; [exact Hk | reflexivity].
    + unfold Pt. intros t t' a _ _ (Ht & m & k & Hk & Ea) (Ht' & m' & k' & Hk' & Ea').
      rewrite Ea in Ea'.
      assert (E : (t + b * BlockSize + m * (BlockSize * gs)) * VE + k =
                  (t' + b * BlockSize + m' * (BlockSize * gs)) * VE + k') by lia.
      apply striped_unique in E; lia.
    + split; [exact Hnd|]. intros a Ha.
      destruct (Hfrom a Ha) as (t & _ & HP).
      split; [exact Hb|]. exists t. exact HP.
  - unfold P, Pt.
    intros b b' a _ _ (Hb & t & Ht & m & k & Hk & Ea) (Hb' & t' & Ht' & m' & k' & Hk' & Ea').
    rewrite Ea in Ea'.
    assert (E : (t + b * BlockSize + m * (BlockSize * gs)) * VE + k =
                (t' + b' * BlockSize + m' * (BlockSize * gs)) * VE + k') by lia.
    apply striped_unique in E; lia.
Qed.

Lemma rows_tail_once (l : launch) :
  aOff <= aEnd ->
  launch_blocks 2 (MaxOffset W)
    (matrixLinewiseVecRowsTailKernel (MaxOffset W) aOff aEnd rowLen totalLen) = Ok l ->
  NoDup (map fst (l_writes l)).
Proof.
  intros Hord Hl. unfold launch_blocks in Hl.
  apply bind_ok in Hl. destruct Hl as (ws & Hc & Hl). injection Hl as <-.
  cbn [l_writes].
  destruct (MaxOffset_bound W VE size_pos width_elems elems_pos) as (HMO & HMO32).
  set (P := fun b a => (b = 0 /\ 0 <= a < aOff) \/ (b = 1 /\ aEnd <= a < totalLen)).
  refine (proj1 (collect_NoDup fst P _ _ _ (NoDup_zseq 2) Hc _ _)).
  - intros b x Hb Hx. apply in_zseq in Hb.
    assert (Hb01 : b = 0 \/ b = 1) by lia.
    split.
    + (* within the block a place tells the thread *)
      unfold matrixLinewiseVecRowsTailKernel in Hx. cbv zeta in Hx.
      set (Pt := fun (base t a : Z) => 0 <= t < MaxOffset W /\
             exists m, a = base + (t + b * MaxOffset W + m * (MaxOffset W * 2))).
      assert (G : forall base len chunks,
                collect (map (fun threadIdx =>
                     vectorRows sizeofT (MaxOffset W) 2 b threadIdx base base len
                       (map (fun c : Z -> Vec => c threadIdx) chunks))
                   (zseq (MaxOffset W))) = Ok x ->
                NoDup (map fst x)).
      { intros base len chunks Hcol.
        refine (proj1 (collect_NoDup fst (Pt base) _ _ _
                         (NoDup_zseq (MaxOffset W)) Hcol _ _)).
        - intros t ws' Ht Hk. apply in_zseq in Ht.
          unfold vectorRows in Hk. cbv zeta in Hk.
          apply vectorRows_loop_places in Hk; [| lia].
          destruct Hk as (Hnd & Hin). split; [exact Hnd|].
          intros a Ha. destruct (Hin a Ha) as (m & k & Hm & _ & Hk & ->).
          rewrite VecElems_scalar in * by exact size_pos.
          split; [exact Ht|]. exists m. lia.
        - unfold Pt. intros t t' a _ _ (Ht & m & Ea) (Ht' & m' & Ea'). rewrite Ea in Ea'.
          assert (E : (m * 2 + b) * MaxOffset W + t = (m' * 2 + b) * MaxOffset W + t')
            by lia.
          apply radix_unique in E; lia. }
      destruct (b =? 0);
        apply bind_ok in Hx; destruct Hx as (chunks & _ & Hx);
        exact (G _ _ _ Hx).
    + intros a Ha. destruct (rows_tail_block b Hb01) as (ws' & Hws' & Hsound & _).
      rewrite Hx in Hws'. injection Hws' as <-.
      apply in_map_iff in Ha. destruct Ha as ([a' v] & Ea & Hav). cbn in Ea. subst a'.
      exact (proj1 (Hsound a v Hav)).
  - unfold P. intros b b' a _ _ [(-> & Ha) | (-> & Ha)] [(-> & Ha') | (-> & Ha')];
      try reflexivity; lia.
Qed.

(** Head, body and tail are apart when the matrix reaches the first
    aligned address. *)
Lemma two_phases_once (lm lt : launch) :
  aOff <= aEnd ->
  (0 < aEnd - aOff ->
     NoDup (map fst (l_writes lm)) /\
     (forall a v, In (a, v) (l_writes lm) -> aOff <= a < aEnd)) ->
  NoDup (map fst (l_writes lt)) ->
  (forall a v, In (a, v) (l_writes lt) -> 0 <= a < aOff \/ aEnd <= a < totalLen) ->
  NoDup (map fst (all_writes ((if 0 <? aEnd - aOff then [lm] else [])
                              ++ (if aEnd - aOff <? totalLen then [lt] else [])))).
Proof.
  intros Hord Hm Hnt Hts.
  destruct (Z.ltb_spec 0 (aEnd - aOff)) as [Hmain | Hnomain];
    destruct (aEnd - aOff <? totalLen); cbn [app].
  - destruct (Hm Hmain) as (Hnm & Hms).
    change [lm; lt] with ([lm] ++ [lt]).
    rewrite all_writes_app, !all_writes_one, map_app.
    apply NoDup_app; [exact Hnm | exact Hnt |].
    intros a Ha Ha'. apply in_map_iff in Ha, Ha'.
    destruct Ha as ([a1 v] & E & Hav). cbn in E. subst a1.
    destruct Ha' as ([a1 v'] & E & Hav'). cbn in E. subst a1.
    pose proof (Hms a v Hav). pose proof (Hts a v' Hav'). lia.
  - rewrite all_writes_one. apply (Hm Hmain).
  - rewrite all_writes_one. exact Hnt.
  - constructor.
Qed.


(** *** The launches of the two host functions, one by one *)

Lemma launch_threads_inv (gs bs : Z) (kernel : Z -> Z -> result (list event))
    (l : launch) :
  launch_threads gs bs kernel = Ok l -> l_grid l = gs /\ l_block l = bs.
Proof.
  unfold launch_threads. intros H. apply bind_ok in H.
  destruct H as (es & _ & H). injection H as <-. split; reflexivity.
Qed.

Lemma launch_blocks_inv (gs bs : Z) (kernel : Z -> result (list (Z * T)))
    (l : launch) :
  launch_blocks gs bs kernel = Ok l -> l_grid l = gs /\ l_block l = bs.
Proof.
  unfold launch_blocks. intros H. apply bind_ok in H.
  destruct H as (ws & _ & H). injection H as <-. split; reflexivity.
Qed.

(** Both host functions enqueue the main kernel when the aligned body is
    not empty, and then the boundary kernel when the body is not the
    whole matrix. *)
Lemma two_phases (c1 c2 : bool) (LM LT : result launch) (lm lt : launch) :
  (c1 = true -> LM = Ok lm) -> (c2 = true -> LT = Ok lt) ->
  (main <- (if c1 then l <- LM ;; Ok [l] else Ok []) ;;
   tail <- (if c2 then l <- LT ;; Ok [l] else Ok []) ;;
   Ok (main ++ tail))
  = Ok ((if c1 then [lm] else []) ++ (if c2 then [lt] else [])).
Proof.
  intros H1 H2.
  destruct c1; [rewrite (H1 eq_refl) |]; destruct c2; try rewrite (H2 eq_refl);
    reflexivity.
Qed.

(** The offsets stored at, from what the main and the boundary launch
    do. *)
Lemma two_phases_spec (lm lt : launch) :
  (0 < aEnd - aOff ->
     (forall a v, In (a, v) (l_writes lm) -> aOff <= a < aEnd) /\
     (forall a, aOff <= a < aEnd -> In a (map fst (l_writes lm)))) ->
  (forall a v, In (a, v) (l_writes lt) -> 0 <= a < aOff \/ aEnd <= a < totalLen) ->
  (forall a, 0 <= a < aOff \/ aEnd <= a < totalLen -> In a (map fst (l_writes lt))) ->
  let ls := (if 0 <? aEnd - aOff then [lm] else [])
            ++ (if aEnd - aOff <? totalLen then [lt] else []) in
  (forall a, In a (map fst (all_writes ls)) <->
             0 <= a < aOff \/ aOff <= a < aEnd \/ aEnd <= a < totalLen) /\
  Forall (fun l => 0 < aEnd - aOff /\ l = lm \/ l = lt) ls.
Proof.
  intros Hm Hts Htc ls.
  destruct (aligned_body W VE size_pos width_elems elems_pos in_natural totalLen)
    as (Hoff & Hend & _ & _).
  fold aOff aEnd in Hoff, Hend.
  pose proof totalLen_pos as Htot.
  assert (Hfst : forall (l : launch) a,
            In a (map fst (l_writes l)) <-> exists v, In (a, v) (l_writes l)).
  { intros l a. rewrite in_map_iff. split.
    - intros ([a' v] & E & Hin). cbn in E. subst a'. exists v. exact Hin.
    - intros (v & Hin). exists (a, v). split; [reflexivity | exact Hin]. }
  unfold ls.
  destruct (Z.ltb_spec 0 (aEnd - aOff)) as [Hmain | Hnomain];
    destruct (Z.ltb_spec (aEnd - aOff) totalLen) as [Htail | Hnotail];
    cbn [app]; try lia.
  - destruct (Hm Hmain) as (Hms & Hmc).
    change [lm; lt] with ([lm] ++ [lt]).
    rewrite all_writes_app, !all_writes_one. split.
    + intros a. rewrite map_app, in_app_iff, !Hfst. split.
      * intros [(v & Hv) | (v & Hv)];
          [right; left; exact (Hms a v Hv) |].
        destruct (Hts a v Hv); auto.
      * intros [Ha | [Ha | Ha]].
        -- right. apply Hfst, Htc. left. exact Ha.
        -- left. apply Hfst, Hmc. exact Ha.
        -- right. apply Hfst, Htc. right. exact Ha.
    + constructor; [left; split; [lia | reflexivity] |].
      constructor; [right; reflexivity | constructor].
  - destruct (Hm Hmain) as (Hms & Hmc).
    rewrite all_writes_one. split.
    + intros a. rewrite Hfst. split.
      * intros (v & Hv). right; left. exact (Hms a v Hv).
      * intros Ha. apply Hfst, Hmc. lia.
    + constructor; [left; split; [lia | reflexivity] | constructor].
  - rewrite all_writes_one. split.
    + intros a. rewrite Hfst. split.
      * intros (v & Hv). destruct (Hts a v Hv); auto.
      * intros Ha. apply Hfst, Htc. lia.
    + constructor; [right; reflexivity | constructor].
Qed.

Lemma matrixLinewiseVecCols_launches :
  exists ls,
    matrixLinewiseVecCols W BlockSize rowLen nRows = Ok ls /\
    (forall a, In a (map fst (all_writes ls)) <->
               0 <= a < aOff \/ aOff <= a < aEnd \/ aEnd <= a < totalLen) /\
    Forall (fun l =>
              1 <= l_grid l <= Raft.getOptimalGridSize smCount maxBlockSize BlockSize /\
              l_block l = BlockSize \/
              l_grid l = 2 /\ l_block l = MaxOffset W) ls /\
    (aOff <= totalLen -> NoDup (map fst (all_writes ls))).
Proof.
  destruct (aligned_body W VE size_pos width_elems elems_pos in_natural totalLen)
    as (Hoff & Hend & (n & Hn) & _).
  fold aOff aEnd in Hoff, Hend, Hn.
  pose proof totalLen_pos as Htot.
  destruct cols_tail_launch as (lt & Hlt & Htsound & Htcov).
  set (gs := vecCols_grid W BlockSize (aEnd - aOff)).
  assert (Hmain : exists lm, 0 < aEnd - aOff ->
            launch_threads gs BlockSize
              (matrixLinewiseVecColsMainKernel W BlockSize aOff rowLen (aEnd - aOff)
                 (Raft.ceildiv (fun x => x) (aEnd - aOff) (gs * VecElems W * BlockSize)
                  * VecElems W)) = Ok lm /\
            (forall a v, In (a, v) (l_writes lm) -> aOff <= a < aEnd) /\
            (forall a, aOff <= a < aEnd -> In a (map fst (l_writes lm)))).
  { destruct (Z_lt_le_dec 0 (aEnd - aOff)) as [Hpos | Hnpos].
    - destruct (cols_main_launch n Hpos Hn) as (lm & Hlm & Hs & Hc).
      exists lm. intros _. split; [exact Hlm |]. split; [| exact Hc].
      intros a v Hav. apply (Hs a v Hav).
    - exists lt. intros Hpos. lia. }
  destruct Hmain as (lm & Hmain).
  exists ((if 0 <? aEnd - aOff then [lm] else [])
          ++ (if aEnd - aOff <? totalLen then [lt] else [])).
  split.
  - unfold matrixLinewiseVecCols. fold totalLen aOff aEnd. cbv zeta. fold gs.
    apply two_phases.
    + intros Hc. apply Z.ltb_lt in Hc. apply (Hmain Hc).
    + intros _. exact Hlt.
  - destruct (two_phases_spec lm lt) as (Hfoot & Hgeo).
    + intros Hpos. apply (Hmain Hpos).
    + intros a v Hav. apply (Htsound a v Hav).
    + exact Htcov.
    + split; [exact Hfoot |]. split.
      * apply Forall_impl with (2 := Hgeo).
        intros l [(Hpos & ->) | ->].
        -- left. destruct (Hmain Hpos) as (Hlm & _).
           destruct (launch_threads_inv _ _ _ _ Hlm) as (-> & ->).
           split; [| reflexivity].
           split; [apply vecCols_grid_pos; lia |].
           unfold gs, vecCols_grid. apply Z.le_min_r.
        -- right. exact (launch_threads_inv _ _ _ _ Hlt).
      * intros Hreach.
        assert (Hord : aOff <= aEnd).
        { apply (aligned_regions_ordered W VE size_pos width_elems elems_pos
                   in_natural totalLen). exact Hreach. }
        apply two_phases_once; [exact Hord | | |].
        -- intros Hpos. destruct (Hmain Hpos) as (Hlm & Hs & _).
           split; [exact (cols_main_once _ _ _ Hlm) | exact Hs].
        -- exact (cols_tail_once lt Hord Hlt).
        -- intros a v Hav. apply (Htsound a v Hav).
Qed.

Lemma matrixLinewiseVecRows_launches :
  exists ls,
    matrixLinewiseVecRows W BlockSize rowLen nRows = Ok ls /\
    (forall a, In a (map fst (all_writes ls)) <->
               0 <= a < aOff \/ aOff <= a < aEnd \/ aEnd <= a < totalLen) /\
    Forall (fun l =>
              1 <= l_grid l /\ l_block l = BlockSize \/
              l_grid l = 2 /\ l_block l = MaxOffset W) ls /\
    (aOff <= totalLen -> NoDup (map fst (all_writes ls))).
Proof.
  destruct (aligned_body W VE size_pos width_elems elems_pos in_natural totalLen)
    as (Hoff & Hend & (n & Hn) & _).
  fold aOff aEnd in Hoff, Hend, Hn.
  pose proof totalLen_pos as Htot.
  destruct rows_tail_launch as (lt & Hlt & Htsound & Htcov).
  set (gs := vecRows_grid W BlockSize rowLen nRows).
  assert (Hmain : exists lm, 0 < aEnd - aOff ->
            launch_blocks gs BlockSize
              (matrixLinewiseVecRowsMainKernel W BlockSize gs aOff aOff aOff rowLen
                 (aEnd - aOff)) = Ok lm /\
            (forall a v, In (a, v) (l_writes lm) -> aOff <= a < aEnd) /\
            (forall a, aOff <= a < aEnd -> In a (map fst (l_writes lm)))).
  { destruct (Z_lt_le_dec 0 (aEnd - aOff)) as [Hpos | Hnpos].
    - destruct (rows_main_launch n Hpos Hn) as (lm & Hlm & Hs & Hc).
      exists lm. intros _. split; [exact Hlm |]. split; [| exact Hc].
      intros a v Hav. apply (Hs a v Hav).
    - exists lt. intros Hpos. lia. }
  destruct Hmain as (lm & Hmain).
  exists ((if 0 <? aEnd - aOff then [lm] else [])
          ++ (if aEnd - aOff <? totalLen then [lt] else [])).
  split.
  - unfold matrixLinewiseVecRows. fold totalLen aOff aEnd. cbv zeta. fold gs.
    apply two_phases.
    + intros Hc. apply Z.ltb_lt in Hc. apply (Hmain Hc).
    + intros _. exact Hlt.
  - destruct (two_phases_spec lm lt) as (Hfoot & Hgeo).
    + intros Hpos. apply (Hmain Hpos).
    + intros a v Hav. apply (Htsound a v Hav).
    + exact Htcov.
    + split; [exact Hfoot |]. split.
      * apply Forall_impl with (2 := Hgeo).
        intros l [(Hpos & ->) | ->].
        -- left. destruct (Hmain Hpos) as (Hlm & _).
           destruct (launch_blocks_inv _ _ _ _ Hlm) as (-> & ->).
           split; [| reflexivity]. apply vecRows_grid_spec.
        -- right. exact (launch_blocks_inv _ _ _ _ Hlt).
      * intros Hreach.
        assert (Hord : aOff <= aEnd).
        { apply (aligned_regions_ordered W VE size_pos width_elems elems_pos
                   in_natural totalLen). exact Hreach. }
        assert (Hgs : 0 < gs) by (pose proof vecRows_grid_spec as G; cbv zeta in G; fold gs in G; lia).
        apply two_phases_once; [exact Hord | | |].
        -- intros Hpos. destruct (Hmain Hpos) as (Hlm & Hs & _).
           split; [exact (rows_main_once gs lm Hgs Hlm) | exact Hs].
        -- exact (rows_tail_once lt Hord Hlt).
        -- intros a v Hav. apply (Htsound a v Hav).
Qed.

End Hosts.

(** ** [run]: from the width recursion to the stores *)

(** With a configured width of [sizeof(Type) * 2^n] bytes the recursion
    stays among the widths [sizeof(Type) * 2^m]. *)
Lemma run_with_pow2 (fuel : nat) (n : Z) :
  1 <= sizeofT -> 0 <= n ->
  (Z.to_nat (sizeofT * 2 ^ n) < fuel)%nat ->
  exists m,
    0 <= m <= n /\
    (Pow2.areSameAlignOffsets (sizeofT * 2 ^ m) in_addr out_addr = true \/ m = 0) /\
    forall (R : Type) (dispatch : Z -> result R),
      run_with fuel dispatch (sizeofT * 2 ^ n) = dispatch (sizeofT * 2 ^ m).
Proof.
  intros Hs. revert n. induction fuel as [|fuel IH]; intros n Hn Hfuel; [lia|].
  cbn [run_with].
  assert (Hp : 0 < 2 ^ n) by (apply Z.pow_pos_nonneg; lia).
  destruct (Z.ltb_spec sizeofT (sizeofT * 2 ^ n)) as [Hlt | Hge].
  - destruct (Pow2.areSameAlignOffsets (sizeofT * 2 ^ n) in_addr out_addr) eqn:Hsame;
      cbn [negb].
    + exists n. split; [lia|]. split; [left; exact Hsame|]. reflexivity.
    + assert (Hn1 : 1 <= n).
      { destruct (Z.eq_dec n 0) as [-> | Hne]; [|lia]. cbn in Hlt. lia. }
      assert (Hhalf : Z.shiftr (sizeofT * 2 ^ n) 1 = sizeofT * 2 ^ (n - 1)).
      { rewrite Z.shiftr_div_pow2 by lia. change (2 ^ 1) with 2.
        replace n with (n - 1 + 1) at 1 by ring.
        rewrite Z.pow_add_r by lia. change (2 ^ 1) with 2.
        rewrite Z.mul_assoc. apply Z.div_mul. lia. }
      assert (Hp1 : 0 < 2 ^ (n - 1)) by (apply Z.pow_pos_nonneg; lia).
      assert (Hlt' : 2 ^ (n - 1) < 2 ^ n) by (apply Z.pow_lt_mono_r; lia).
      rewrite Hhalf, Z.max_l by nia.
      destruct (IH (n - 1)) as (m & Hm & Hal & Hrun); [lia | nia |].
      exists m. split; [lia|]. split; [exact Hal|]. exact Hrun.
  - exists n. split; [lia|]. split; [|reflexivity].
    right. destruct (Z.eq_dec n 0) as [-> | Hne]; [reflexivity|].
    assert (2 ^ 1 <= 2 ^ n) by (apply Z.pow_le_mono_r; lia).
    change (2 ^ 1) with 2 in *. nia.
Qed.

Section Run.

Variables (VecBytes BlockSize nb lineLen nLines n : Z).
Variable alongLines : bool.
Hypothesis size_pos : 1 <= sizeofT.
Hypothesis width_pow2 : VecBytes = sizeofT * 2 ^ n.
Hypothesis exp_nonneg : 0 <= n.
Hypothesis in_natural : in_addr mod sizeofT = 0.
Hypothesis out_natural : out_addr mod sizeofT = 0.
Hypothesis block_warps : BlockSize = 32 * nb.
Hypothesis warps_pos : 1 <= nb.
Hypothesis lineLen_pos : 1 <= lineLen.
Hypothesis nLines_pos : 1 <= nLines.
Hypothesis occupy_pos : 1 <= Raft.getOptimalGridSize smCount maxBlockSize BlockSize.
Hypothesis len_uint : lineLen * nLines + BlockSize * VecElems VecBytes <= 2 ^ 32.
Hypothesis occupy_lineLen :
  Raft.getOptimalGridSize smCount maxBlockSize BlockSize + lineLen <= 2 ^ 32.

(** The launches of a call: one or two, storing at every offset of the
    matrix, and at an offset only the value that the engine is to
    compute for it. *)
Lemma run_spec :
  exists ls,
    run VecBytes BlockSize lineLen nLines alongLines = Ok ls /\
    (1 <= length ls <= 2)%nat /\
    (forall a v, In (a, v) (all_writes ls) -> 0 <= a ->
                 v = spec_out alongLines lineLen a) /\
    (forall a, 0 <= a < lineLen * nLines -> In a (map fst (all_writes ls))).
Proof.
  destruct (run_with_pow2 (run_fuel VecBytes) n size_pos exp_nonneg)
    as (m & Hm & Hal & Hrun).
  { unfold run_fuel. rewrite width_pow2. lia. }
  rewrite <- width_pow2 in Hrun. unfold run. rewrite Hrun.
  set (W := sizeofT * 2 ^ m).
  assert (Hp : 0 < 2 ^ m) by (apply Z.pow_pos_nonneg; lia).
  assert (HW : W = 2 ^ m * sizeofT) by (unfold W; ring).
  assert (Hsame : in_addr mod W = out_addr mod W).
  { destruct Hal as [Hal | ->].
    - apply Z.eqb_eq. exact Hal.
    - unfold W. rewrite Z.pow_0_r, Z.mul_1_r. congruence. }
  assert (Hle : 2 ^ m <= VecElems VecBytes).
  { unfold VecElems. rewrite width_pow2, Z.mul_comm, Z.div_mul by lia.
    apply Z.pow_le_mono_r; lia. }
  assert (Hlen : lineLen * nLines + BlockSize * 2 ^ m <= 2 ^ 32) by nia.
  destruct alongLines.
  - apply (matrixLinewiseVecRows_spec W (2 ^ m) BlockSize nb lineLen nLines);
      assumption || lia.
  - apply (matrixLinewiseVecCols_spec W (2 ^ m) BlockSize nb lineLen nLines);
      assumption || lia.
Qed.

(** The output matrix after the call, in whatever order the stores of
    its kernels reach memory. *)
Lemma run_stores :
  exists ls,
    run VecBytes BlockSize lineLen nLines alongLines = Ok ls /\
    forall (ws : list (Z * T)) (out0 : Z -> T) (i : Z),
      Permutation (all_writes ls) ws ->
      0 <= i < lineLen * nLines ->
      store_all ws out0 i = spec_out alongLines lineLen i.
Proof.
  destruct run_spec as (ls & Hrun & _ & Hsound & Hcov).
  exists ls. split; [exact Hrun|].
  intros ws out0 i Hperm Hi. apply store_all_determined.
  - intros v Hv. apply Hsound; [|lia].
    apply (Permutation_in _ (Permutation_sym Hperm)). exact Hv.
  - apply (Permutation_in _ (Permutation_map fst Hperm)). apply Hcov. exact Hi.
Qed.

(** The launches of a call, one by one: the width [W] the call settles
    on, the offsets stored at, and the shape of every launch. *)
Lemma run_launches :
  exists m ls,
    0 <= m <= n /\
    run_width VecBytes = Ok (sizeofT * 2 ^ m) /\
    run VecBytes BlockSize lineLen nLines alongLines = Ok ls /\
    (forall a, In a (map fst (all_writes ls)) <->
       0 <= a < alignedOff (sizeofT * 2 ^ m) \/
       alignedOff (sizeofT * 2 ^ m) <= a < alignedEnd (sizeofT * 2 ^ m) (lineLen * nLines) \/
       alignedEnd (sizeofT * 2 ^ m) (lineLen * nLines) <= a < lineLen * nLines) /\
    Forall (fun l => 1 <= l_grid l /\ l_block l = BlockSize \/
                     l_grid l = 2 /\ l_block l = MaxOffset (sizeofT * 2 ^ m)) ls /\
    (alignedOff (sizeofT * 2 ^ m) <= lineLen * nLines ->
     NoDup (map fst (all_writes ls))) /\
    0 <= alignedOff (sizeofT * 2 ^ m) < 2 ^ m /\
    2 ^ m <= VecElems VecBytes /\
    (alignedOff (sizeofT * 2 ^ m) <= lineLen * nLines ->
     alignedOff (sizeofT * 2 ^ m) <= alignedEnd (sizeofT * 2 ^ m) (lineLen * nLines)
     /\ alignedEnd (sizeofT * 2 ^ m) (lineLen * nLines) <= lineLen * nLines).
Proof.
  destruct (run_with_pow2 (run_fuel VecBytes) n size_pos exp_nonneg)
    as (m & Hm & Hal & Hrun).
  { unfold run_fuel. rewrite width_pow2. lia. }
  rewrite <- width_pow2 in Hrun.
  exists m. unfold run, run_width. rewrite !Hrun.
  set (W := sizeofT * 2 ^ m).
  assert (Hp : 0 < 2 ^ m) by (apply Z.pow_pos_nonneg; lia).
  assert (HW : W = 2 ^ m * sizeofT) by (unfold W; ring).
  assert (Hsame : in_addr mod W = out_addr mod W).
  { destruct Hal as [Hal | ->].
    - apply Z.eqb_eq. exact Hal.
    - unfold W. rewrite Z.pow_0_r, Z.mul_1_r. congruence. }
  assert (Hle : 2 ^ m <= VecElems VecBytes).
  { unfold VecElems. rewrite width_pow2, Z.mul_comm, Z.div_mul by lia.
    apply Z.pow_le_mono_r; lia. }
  assert (Hlen : lineLen * nLines + BlockSize * 2 ^ m <= 2 ^ 32) by nia.
  assert (H1 : 1 <= 2 ^ m) by lia.
  destruct (aligned_body W (2 ^ m) size_pos HW H1 in_natural (lineLen * nLines))
    as (Hoff & _ & _ & _).
  pose proof (aligned_regions_ordered W (2 ^ m) size_pos HW H1 in_natural
                (lineLen * nLines)) as Hord.
  assert (Hhost : exists ls,
            (if alongLines
             then matrixLinewiseVecRows W BlockSize lineLen nLines
             else matrixLinewiseVecCols W BlockSize lineLen nLines) = Ok ls /\
            (forall a, In a (map fst (all_writes ls)) <->
               0 <= a < alignedOff W \/
               alignedOff W <= a < alignedEnd W (lineLen * nLines) \/
               alignedEnd W (lineLen * nLines) <= a < lineLen * nLines) /\
            Forall (fun l => 1 <= l_grid l /\ l_block l = BlockSize \/
                             l_grid l = 2 /\ l_block l = MaxOffset W) ls /\
            (alignedOff W <= lineLen * nLines -> NoDup (map fst (all_writes ls)))).
  { destruct alongLines.
    - apply (matrixLinewiseVecRows_launches W (2 ^ m) BlockSize nb lineLen nLines);
        assumption || lia.
    - destruct (matrixLinewiseVecCols_launches W (2 ^ m) BlockSize nb lineLen nLines)
        as (ls & Hls & Hfoot & Hgeo & Honce); try (assumption || lia).
      exists ls. split; [exact Hls |]. split; [exact Hfoot |]. split; [| exact Honce].
      apply Forall_impl with (2 := Hgeo).
      intros l [((Hg & _) & Hb) | Ht]; [left; auto | right; exact Ht]. }
  destruct Hhost as (ls & Hls & Hfoot & Hgeo & Honce).
  exists ls. split; [exact Hm |]. split; [reflexivity |]. split; [exact Hls |].
  split; [exact Hfoot |]. split; [exact Hgeo |]. split; [exact Honce |].
  split; [exact Hoff |].
  split; [exact Hle |]. intros Hreach. destruct (Hord Hreach) as ((_ & H2) & H3).
  split; assumption.
Qed.


End Run.




(** ** The two blocks of the boundary kernels *)




(** ** More on [run]: the widest width, the offsets stored at, the launches *)

Lemma run_with_widest (fuel : nat) (n : Z) :
  1 <= sizeofT -> 0 <= n ->
  (Z.to_nat (sizeofT * 2 ^ n) < fuel)%nat ->
  exists m,
    0 <= m <= n /\
    (0 < m -> Pow2.areSameAlignOffsets (sizeofT * 2 ^ m) in_addr out_addr = true) /\
    (forall k, m < k <= n ->
               Pow2.areSameAlignOffsets (sizeofT * 2 ^ k) in_addr out_addr = false) /\
    run_with fuel Ok (sizeofT * 2 ^ n) = Ok (sizeofT * 2 ^ m).
Proof.
  intros Hs. revert n. induction fuel as [|fuel IH]; intros n Hn Hfuel; [lia|].
  cbn [run_with].
  assert (Hp : 0 < 2 ^ n) by (apply Z.pow_pos_nonneg; lia).
  destruct (Z.ltb_spec sizeofT (sizeofT * 2 ^ n)) as [Hlt | Hge].
  - destruct (Pow2.areSameAlignOffsets (sizeofT * 2 ^ n) in_addr out_addr) eqn:Hsame;
      cbn [negb].
    + exists n. split; [lia|]. split; [intros _; exact Hsame|].
      split; [intros k Hk; lia | reflexivity].
    + assert (Hn1 : 1 <= n).
      { destruct (Z.eq_dec n 0) as [-> | Hne]; [|lia]. cbn in Hlt. lia. }
      assert (Hhalf : Z.shiftr (sizeofT * 2 ^ n) 1 = sizeofT * 2 ^ (n - 1)).
      { rewrite Z.shiftr_div_pow2 by lia. change (2 ^ 1) with 2.
        replace n with (n - 1 + 1) at 1 by ring.
        rewrite Z.pow_add_r by lia. change (2 ^ 1) with 2.
        rewrite Z.mul_assoc. apply Z.div_mul. lia. }
      assert (Hp1 : 0 < 2 ^ (n - 1)) by (apply Z.pow_pos_nonneg; lia).
      rewrite Hhalf, Z.max_l by nia.
      assert (Hlt' : 2 ^ (n - 1) < 2 ^ n) by (apply Z.pow_lt_mono_r; lia).
      destruct (IH (n - 1)) as (m & Hm & Hal & Hwide & Hrun); [lia | nia |].
      exists m. split; [lia|]. split; [exact Hal|]. split; [| exact Hrun].
      intros k Hk. destruct (Z.eq_dec k n) as [-> | Hne]; [exact Hsame|].
      apply Hwide. lia.
  - assert (Hn0 : n = 0).
    { destruct (Z.eq_dec n 0) as [E | Hne]; [exact E|].
      assert (2 ^ 1 <= 2 ^ n) by (apply Z.pow_le_mono_r; lia).
      change (2 ^ 1) with 2 in *. nia. }
    exists n. split; [lia|]. split; [intros Hm; lia|].
    split; [intros k Hk; lia | reflexivity].
Qed.

(** X13.  Of the widths [sizeof(Type) * 2^k] up to the configured one,
    [run] settles on the widest at which [in] and [out] have the same
    remainder, and on [sizeof(Type)] when there is none: every wider
    candidate was turned down for a difference of the remainders. *)
Theorem run_width_widest (n : Z) :
  1 <= sizeofT -> 0 <= n ->
  exists m,
    0 <= m <= n /\
    run_width (sizeofT * 2 ^ n) = Ok (sizeofT * 2 ^ m) /\
    (0 < m -> in_addr mod (sizeofT * 2 ^ m) = out_addr mod (sizeofT * 2 ^ m)) /\
    (forall k, m < k <= n ->
               in_addr mod (sizeofT * 2 ^ k) <> out_addr mod (sizeofT * 2 ^ k)).
Proof.
  intros Hs Hn.
  destruct (run_with_widest (run_fuel (sizeofT * 2 ^ n)) n Hs Hn)
    as (m & Hm & Hal & Hwide & Hrun).
  { unfold run_fuel. lia. }
  exists m. split; [exact Hm|]. split; [exact Hrun|]. split.
  - intros Hpos. apply Z.eqb_eq. exact (Hal Hpos).
  - intros k Hk. apply Z.eqb_neq. exact (Hwide k Hk).
Qed.

(** X14.  The stores of a call stay inside the matrix exactly when the
    matrix reaches the first address of [in] that is aligned to the width
    [W] the call settles on; [alignedOff W] is below the number of
    scalars of the configured width, so that a matrix of at least that
    many elements is on the safe side. *)
Theorem run_stores_within_matrix
    (VecBytes BlockSize nb lineLen nLines n : Z) (alongLines : bool) :
  1 <= sizeofT ->
  VecBytes = sizeofT * 2 ^ n -> 0 <= n ->
  in_addr mod sizeofT = 0 -> out_addr mod sizeofT = 0 ->
  BlockSize = 32 * nb -> 1 <= nb ->
  1 <= lineLen -> 1 <= nLines ->
  1 <= Raft.getOptimalGridSize smCount maxBlockSize BlockSize ->
  lineLen * nLines + BlockSize * VecElems VecBytes <= 2 ^ 32 ->
  Raft.getOptimalGridSize smCount maxBlockSize BlockSize + lineLen <= 2 ^ 32 ->
  exists W ls,
    run_width VecBytes = Ok W /\
    run VecBytes BlockSize lineLen nLines alongLines = Ok ls /\
    0 <= alignedOff W < VecElems VecBytes /\
    ((forall a v, In (a, v) (all_writes ls) -> 0 <= a < lineLen * nLines) <->
     alignedOff W <= lineLen * nLines).
Proof.
  intros.
  destruct (run_launches VecBytes BlockSize nb lineLen nLines n alongLines)
    as (m & ls & Hm & HW & Hrun & Hfoot & _ & _ & Hoff & Hve & Hord); try assumption.
  exists (sizeofT * 2 ^ m), ls.
  split; [exact HW|]. split; [exact Hrun|]. split; [lia|]. split.
  - intros Hin.
    destruct (Z_le_gt_dec (alignedOff (sizeofT * 2 ^ m)) (lineLen * nLines))
      as [Hle | Hgt]; [exact Hle | exfalso].
    assert (Hw : In (lineLen * nLines) (map fst (all_writes ls))).
    { apply Hfoot. left. nia. }
    apply in_map_iff in Hw. destruct Hw as ([a v] & Ea & Hav). cbn in Ea. subst a.
    apply Hin in Hav. lia.
  - intros Hreach a v Hav.
    assert (Hw : In a (map fst (all_writes ls))).
    { apply in_map_iff. exists (a, v). split; [reflexivity | exact Hav]. }
    apply Hfoot in Hw. specialize (Hord Hreach). lia.
Qed.

(** X15.  Every launch of a call has a grid of at least one block; it is
    either the main kernel, in blocks of [BlockSize] threads, or the
    boundary kernel, in two blocks of [max(WarpSize, W)] threads. *)
Theorem run_launch_shapes
    (VecBytes BlockSize nb lineLen nLines n : Z) (alongLines : bool) :
  1 <= sizeofT ->
  VecBytes = sizeofT * 2 ^ n -> 0 <= n ->
  in_addr mod sizeofT = 0 -> out_addr mod sizeofT = 0 ->
  BlockSize = 32 * nb -> 1 <= nb ->
  1 <= lineLen -> 1 <= nLines ->
  1 <= Raft.getOptimalGridSize smCount maxBlockSize BlockSize ->
  lineLen * nLines + BlockSize * VecElems VecBytes <= 2 ^ 32 ->
  Raft.getOptimalGridSize smCount maxBlockSize BlockSize + lineLen <= 2 ^ 32 ->
  exists W ls,
    run_width VecBytes = Ok W /\
    run VecBytes BlockSize lineLen nLines alongLines = Ok ls /\
    Forall (fun l => 1 <= l_grid l /\
                     (l_block l = BlockSize \/
                      l_grid l = 2 /\ l_block l = Z.max Raft.WarpSize W)) ls.
Proof.
  intros.
  destruct (run_launches VecBytes BlockSize nb lineLen nLines n alongLines)
    as (m & ls & Hm & HW & Hrun & _ & Hgeo & _); try assumption.
  exists (sizeofT * 2 ^ m), ls.
  split; [exact HW|]. split; [exact Hrun|].
  apply Forall_impl with (2 := Hgeo).
  intros l [(Hg & Hb) | (Hg & Hb)].
  - split; [exact Hg | left; exact Hb].
  - split; [lia | right; split; [exact Hg | exact Hb]].
Qed.

(** X17.  When the matrix reaches the first address of [in] that is
    aligned to the width [W] the call settles on, the kernels of the call
    together store exactly once at every offset of the matrix and nowhere
    else: no element is written by two threads, whether of one launch or
    of two. *)
Theorem run_stores_each_element_once
    (VecBytes BlockSize nb lineLen nLines n : Z) (alongLines : bool) :
  1 <= sizeofT ->
  VecBytes = sizeofT * 2 ^ n -> 0 <= n ->
  in_addr mod sizeofT = 0 -> out_addr mod sizeofT = 0 ->
  BlockSize = 32 * nb -> 1 <= nb ->
  1 <= lineLen -> 1 <= nLines ->
  1 <= Raft.getOptimalGridSize smCount maxBlockSize BlockSize ->
  lineLen * nLines + BlockSize * VecElems VecBytes <= 2 ^ 32 ->
  Raft.getOptimalGridSize smCount maxBlockSize BlockSize + lineLen <= 2 ^ 32 ->
  exists W ls,
    run_width VecBytes = Ok W /\
    run VecBytes BlockSize lineLen nLines alongLines = Ok ls /\
    (alignedOff W <= lineLen * nLines ->
     Permutation (map fst (all_writes ls)) (zseq (lineLen * nLines))).
Proof.
  intros.
  destruct (run_launches VecBytes BlockSize nb lineLen nLines n alongLines)
    as (m & ls & Hm & HW & Hrun & Hfoot & _ & Honce & Hoff & _ & Hord); try assumption.
  exists (sizeofT * 2 ^ m), ls.
  split; [exact HW|]. split; [exact Hrun|].
  intros Hreach. specialize (Hord Hreach).
  apply NoDup_Permutation; [exact (Honce Hreach) | apply NoDup_zseq |].
  intros a. rewrite Hfoot, in_zseq. lia.
Qed.

(** ** [loadVec]: the work region *)

(** X16.  [loadVec] fills the [VecElems * BlockSize] slots of its work
    region, slot [q] with [p[(blockOffset + q) mod rowLen]], and leaves
    the rest of shared memory as it was. *)
Theorem loadVec_work_region (VecBytes BlockSize : Z) (mem : Z -> T) (shm : Z)
    (p : Z -> T) (blockOffset rowLen : Z) :
  1 <= rowLen ->
  0 <= blockOffset ->
  0 < BlockSize ->
  exists mem' chunk,
    loadVec VecBytes BlockSize mem shm p blockOffset rowLen = Ok (mem', chunk) /\
    (forall q, 0 <= q < VecElems VecBytes * BlockSize ->
               mem' (shm + q) = p ((blockOffset + q) mod rowLen)) /\
    (forall a, ~ shm <= a < shm + VecElems VecBytes * BlockSize -> mem' a = mem a).
Proof.
  intros Hr Ho Hb.
  destruct (loadVec_spec VecBytes BlockSize mem shm p blockOffset rowLen Hr Hb)
    as (mem' & chunk & Hl & Hc).
  exists mem', chunk. split; [exact Hl|].
  unfold loadVec in Hl. apply bind_ok in Hl. destruct Hl as (ws & Hws & Hl).
  injection Hl as <- <-.
  destruct (collect_exists
              (loadVec_thread VecBytes BlockSize shm p blockOffset rowLen)
              (zseq BlockSize)) as (ws' & Hws' & Hin).
  { intros t Ht. apply in_zseq in Ht.
    destruct (loadVec_thread_spec VecBytes BlockSize shm blockOffset rowLen t p Hr Ht)
      as (x & Hx & _). exists x. exact Hx. }
  rewrite Hws in Hws'. injection Hws' as <-.
  split.
  - intros q Hq.
    assert (Hve : 0 < VecElems VecBytes) by nia.
    pose proof (Z.div_mod q (VecElems VecBytes) ltac:(lia)) as Hqd.
    pose proof (Z.mod_pos_bound q (VecElems VecBytes) Hve) as Hqm.
    assert (Hqq : 0 <= q / VecElems VecBytes < BlockSize).
    { split; [apply Z.div_pos; lia|]. apply Z.div_lt_upper_bound; lia. }
    specialize (Hc (q / VecElems VecBytes) (q mod VecElems VecBytes) Hqq Hqm).
    unfold loadVec_read in Hc.
    replace (shm + q / VecElems VecBytes * VecElems VecBytes + q mod VecElems VecBytes)
      with (shm + q) in Hc by lia.
    replace (blockOffset + q / VecElems VecBytes * VecElems VecBytes
             + q mod VecElems VecBytes)
      with (blockOffset + q) in Hc by lia.
    apply Hc.
    pose proof (Z.mod_pos_bound (q / VecElems VecBytes * VecElems VecBytes
                                 + q mod VecElems VecBytes) BlockSize Hb). lia.
  - intros a Ha. apply store_all_notin. intros Hi. apply Ha.
    apply in_map_iff in Hi. destruct Hi as ([a' v] & Ea & Hav). cbn in Ea. subst a'.
    apply Hin in Hav. destruct Hav as (t & x & Ht & Hx & Hv).
    apply in_zseq in Ht.
    destruct (loadVec_thread_spec VecBytes BlockSize shm blockOffset rowLen t p Hr Ht)
      as (x' & Hx' & _ & Hval).
    rewrite Hx in Hx'. injection Hx' as <-.
    destruct (Hval _ _ Hv) as (m & Hm & -> & _). nia.
Qed.


End Linewise.

Arguments run {T}.
Arguments all_writes {T}.
Arguments l_grid {T}.
Arguments l_block {T}.
Arguments l_writes {T}.
Arguments ev_pos {T}.
Arguments ev_rowDiv {T}.
Arguments ev_rowMod {T}.
Arguments ev_val {T}.
Arguments mk_event {T}.

(** ** The identity operator and the end-to-end scenario *)


(** C9.  For [rowLen = 4], [nRows = 3], the row-major matrix
    [[1,2,3,4],[5,6,7,8],[9,10,11,12]], the vector [10, 20, 30] with one
    entry per row, [op = subtract] and [alongLines = false], a call of
    [MatrixLinewiseOp<16, 256>::run] on four-byte scalars leaves
    [[-9,-8,-7,-6],[-15,-14,-13,-12],[-21,-20,-19,-18]] in the output, at
    any addresses of the two matrices and on any device whose occupancy
    target is positive. *)
Theorem run_scenario
    (in_addr out_addr smCount maxBlockSize : Z) (shm0 : Z -> Z) :
  in_addr mod 4 = 0 -> out_addr mod 4 = 0 ->
  1 <= Raft.getOptimalGridSize smCount maxBlockSize 256 ->
  Raft.getOptimalGridSize smCount maxBlockSize 256 + 4 <= 2 ^ 32 ->
  exists ls,
    run 4 Scenario.subtract Scenario.matrix [Scenario.per_row]
        in_addr out_addr smCount maxBlockSize shm0 16 256 4 3 false = Ok ls /\
    forall out0 : Z -> Z,
      map (store_all (all_writes ls) out0) (zseq (4 * 3)) = Scenario.expected.
Proof.
  intros Hin Hout Hocc Hocc4.
  destruct (run_stores Z 4 Scenario.subtract Scenario.matrix [Scenario.per_row]
              in_addr out_addr smCount maxBlockSize shm0 16 256 8 4 3 2 false)
    as (ls & Hrun & Hstores); try assumption; try lia; try reflexivity.
  { vm_compute. discriminate. }
  exists ls. split; [exact Hrun|].
  intros out0.
  assert (Hall : forall i, 0 <= i < 4 * 3 ->
            store_all (all_writes ls) out0 i
            = spec_out Z Scenario.subtract Scenario.matrix [Scenario.per_row] false 4 i).
  { intros i Hi. apply Hstores; [apply Permutation_refl | exact Hi]. }
  change (zseq (4 * 3)) with [0; 1; 2; 3; 4; 5; 6; 7; 8; 9; 10; 11].
  cbn [map]. rewrite !Hall by lia. reflexivity.
Qed.

(** ** The claims at concrete inputs *)


(** [vecRows_grid_multiple_or_single_sweep] for rows of three elements and
    500 rows of four-byte scalars. *)
Lemma vecRows_grid_multiple_or_single_sweep_witness :
  exists M,
    vecRows_grid 4 80 1024 16 256 3 500
    = Z.min ((3 * 500 + 256 * VecElems 4 16 - 1) / (256 * VecElems 4 16)) M /\
    (3 / Z.gcd (256 * VecElems 4 16) 3 | M) /\
    Raft.getOptimalGridSize 80 1024 256 <= M
      < Raft.getOptimalGridSize 80 1024 256 + 3 / Z.gcd (256 * VecElems 4 16) 3 /\
    ((3 / Z.gcd (256 * VecElems 4 16) 3 | vecRows_grid 4 80 1024 16 256 3 500) \/
     (vecRows_grid 4 80 1024 16 256 3 500
      = (3 * 500 + 256 * VecElems 4 16 - 1) / (256 * VecElems 4 16) /\
      3 * 500 <= vecRows_grid 4 80 1024 16 256 3 500 * (256 * VecElems 4 16))).
Proof.
  apply (vecRows_grid_multiple_or_single_sweep 4 80 1024 16 256 3 500);
    first [ lia | (vm_compute; discriminate) ].
Defined.

(** The claim C2 as it is stated fails for rows of three elements and 500
    rows: the block work size is 1024, [rowLen / gcd] is 3, and the main
    kernel is launched with a grid of 2 blocks, the number that covers the
    1500 elements in one sweep. *)
Lemma vecRows_grid_not_multiple :
  VecElems 4 16 = 4 /\
  3 / Z.gcd (256 * VecElems 4 16) 3 = 3 /\
  vecRows_grid 4 80 1024 16 256 3 500 = 2 /\
  match matrixLinewiseVecRows Z 4 Scenario.subtract Scenario.matrix [Scenario.per_col]
          0 0 80 1024 Scenario.zeros 16 256 3 500 with
  | Ok [l] => l_grid l = 2 /\ l_block l = 256
  | _ => False
  end /\
  ~ (3 / Z.gcd (256 * VecElems 4 16) 3 | vecRows_grid 4 80 1024 16 256 3 500).
Proof.
  split; [reflexivity|]. split; [reflexivity|]. split; [reflexivity|].
  split; [vm_compute; split; reflexivity|].
  change (3 / Z.gcd (256 * VecElems 4 16) 3) with 3.
  change (vecRows_grid 4 80 1024 16 256 3 500) with 2.
  intros (z & Hz). lia.
Qed.

(** [vectorCols_pair_is_division] for rows of one element, shorter than the
    four scalars of a wide chunk. *)
Lemma vectorCols_pair_is_division_witness :
  exists es,
    matrixLinewiseVecColsMainKernel Z 4 Scenario.subtract Scenario.matrix
      [Scenario.per_row] 0 0 16 256 0 1 12 4 0 0 = Ok es /\
    forall e, In e es ->
      ev_rowDiv e = Z.quot (ev_pos e) 1 /\
      ev_rowMod e = Z.rem (ev_pos e) 1 /\
      ev_val e = Scenario.subtract (Scenario.matrix (ev_pos e))
                   (map (fun v : Z -> Z => v (Z.quot (ev_pos e) 1)) [Scenario.per_row]).
Proof.
  apply (vectorCols_pair_is_division Z 4 Scenario.subtract Scenario.matrix
           [Scenario.per_row] 0 0 16 256 0 1 12 4 1 0 0);
    first [ reflexivity | lia | (vm_compute; discriminate) ].
Defined.

(** The same thread, run: one wide chunk, a row boundary before each of
    its scalars but the first. *)
Example vectorCols_crosses_rows :
  matrixLinewiseVecColsMainKernel Z 4 Scenario.subtract Scenario.matrix
    [Scenario.per_row] 0 0 16 256 0 1 12 4 0 0
  = Ok [mk_event 0 0 0 (-9); mk_event 1 1 0 (-18);
        mk_event 2 2 0 (-27); mk_event 3 3 0 4].
Proof. reflexivity. Qed.

(** [run_dispatch_width] with [in] four bytes and [out] eight bytes past a
    16-byte boundary. *)
Lemma run_dispatch_width_witness :
  exists W,
    run_width 4 4 8 16 = Ok W /\
    run 4 Scenario.subtract Scenario.matrix [Scenario.per_row]
        4 8 80 1024 Scenario.zeros 16 256 4 3 false =
      (if false
       then matrixLinewiseVecRows Z 4 Scenario.subtract Scenario.matrix [Scenario.per_row]
              4 8 80 1024 Scenario.zeros W 256 4 3
       else matrixLinewiseVecCols Z 4 Scenario.subtract Scenario.matrix [Scenario.per_row]
              4 8 80 1024 W 256 4 3) /\
    4 <= W <= 16 /\
    (Pow2.areSameAlignOffsets W 4 8 = true \/ W = 4).
Proof.
  apply (run_dispatch_width Z 4 Scenario.subtract Scenario.matrix [Scenario.per_row]
           4 8 80 1024 Scenario.zeros 16 256 4 3 false).
  lia.
Defined.

(** [loadVec_chunk] for a vector of three entries staged by a block of 32
    threads that starts at the entry 2. *)
Lemma loadVec_chunk_witness :
  exists mem' chunk,
    loadVec Z 4 16 32 Scenario.zeros 0 Scenario.per_col 2 3 = Ok (mem', chunk) /\
    forall t k,
      0 <= t < 32 -> 0 <= k < VecElems 4 16 ->
      chunk t k = Scenario.per_col ((2 + t * VecElems 4 16 + k) mod 3).
Proof.
  apply (loadVec_chunk Z 4 16 32 Scenario.zeros 0 Scenario.per_col 2 3); lia.
Defined.




(** [run_scenario] with both matrices eight bytes past a 16-byte
    boundary, on a device of 80 multiprocessors. *)
Lemma run_scenario_witness :
  exists ls,
    run 4 Scenario.subtract Scenario.matrix [Scenario.per_row]
        8 8 80 1024 Scenario.zeros 16 256 4 3 false = Ok ls /\
    forall out0 : Z -> Z,
      map (store_all (all_writes ls) out0) (zseq (4 * 3)) = Scenario.expected.
Proof.
  apply (run_scenario 8 8 80 1024 Scenario.zeros);
    first [ reflexivity | (vm_compute; discriminate) ].
Defined.


(** ** A matrix that ends before the first aligned address *)

(** C6, at an input on which the code departs from it.  Two four-byte
    scalars that start four bytes past a 16-byte boundary end before the
    next boundary: [alignedOff] is 3, above the length of the matrix, and
    [alignedEnd] is -1.  In both strategies the main kernel is not launched
    and the two blocks of the boundary kernel store at the offsets 0, 1, 2
    and -1, 0, 1: the regions overlap and reach outside the matrix on
    either side. *)
Theorem boundary_kernel_small_matrix (alongLines : bool) :
  alignedOff 4 4 16 = 3 /\
  alignedEnd 4 4 16 (2 * 1) = -1 /\
  exists l,
    run 4 Scenario.subtract Scenario.matrix [Scenario.per_row]
        4 4 80 1024 Scenario.zeros 16 256 2 1 alongLines = Ok [l] /\
    l_grid l = 2 /\ l_block l = 32 /\
    map fst (l_writes l) = [0; 1; 2; -1; 0; 1].
Proof.
  split; [reflexivity|]. split; [reflexivity|].
  destruct alongLines; vm_compute; eexists; repeat split; reflexivity.
Qed.

(** ** More on lists of indices *)

Lemma NoDup_flat_map {A B : Type} (f : A -> list B) (l : list A) :
  NoDup l ->
  (forall a, In a l -> NoDup (f a)) ->
  (forall a a' x, In a l -> In a' l -> In x (f a) -> In x (f a') -> a = a') ->
  NoDup (flat_map f l).
Proof.
  induction l as [|a l IH]; intros Hnd Hf Hdis; cbn [flat_map].
  - constructor.
  - inversion Hnd as [|a0 l0 Hna Hnd']; subst.
    apply NoDup_app.
    + apply Hf. left. reflexivity.
    + apply IH; [exact Hnd' | |].
      * intros a' Ha'. apply Hf. right. exact Ha'.
      * intros a1 a2 x H1 H2. apply Hdis; right; assumption.
    + intros x Hx Hx'. apply in_flat_map in Hx'. destruct Hx' as (a' & Ha' & Hx').
      apply Hna. rewrite (Hdis a a' x); auto; [left; reflexivity | right; exact Ha'].
Qed.

Lemma zseq_app (a b : Z) :
  0 <= a -> 0 <= b -> zseq (a + b) = zseq a ++ map (Z.add a) (zseq b).
Proof.
  intros Ha Hb. unfold zseq.
  rewrite Z2Nat.inj_add, seq_app, map_app by lia. f_equal.
  rewrite Nat.add_0_l, map_map.
  assert (G : forall n s, map Z.of_nat (seq (Z.to_nat a + s) n) =
                          map (fun i => a + Z.of_nat i) (seq s n)).
  { induction n as [|n IH]; intros s; cbn [seq map]; [reflexivity |].
    f_equal; [lia |].
    replace (S (Z.to_nat a + s)) with (Z.to_nat a + S s)%nat by lia. apply IH. }
  specialize (G (Z.to_nat b) 0%nat). rewrite Nat.add_0_r in G. exact G.
Qed.


(** ** The in-place transpose *)

Section TransposeProofs.

Variable T : Type.

Lemma cell_quot_rem (m i j : Z) :
  0 <= i -> 0 <= j < m -> Z.quot (i * m + j) m = i /\ Z.rem (i * m + j) m = j.
Proof.
  intros Hi Hj.
  assert (Hp : 0 <= i * m + j) by nia.
  rewrite Z.quot_div_nonneg, Z.rem_mod_nonneg by lia.
  split.
  - rewrite Z.div_add_l, Z.div_small by lia. lia.
  - rewrite Z.add_comm, Z.mod_add, Z.mod_small by lia. reflexivity.
Qed.

Lemma cell_inj (m i j i' j' : Z) :
  0 <= i -> 0 <= j < m -> 0 <= i' -> 0 <= j' < m ->
  i * m + j = i' * m + j' -> i = i' /\ j = j'.
Proof.
  intros Hi Hj Hi' Hj' E.
  destruct (cell_quot_rem m i j Hi Hj) as [Q R].
  destruct (cell_quot_rem m i' j' Hi' Hj') as [Q' R'].
  rewrite E in Q, R. lia.
Qed.

Lemma cell_of_index (m x : Z) :
  0 < m -> 0 <= x < m * m ->
  0 <= Z.quot x m < m /\ 0 <= Z.rem x m < m /\ x = Z.quot x m * m + Z.rem x m.
Proof.
  intros Hm Hx.
  rewrite Z.quot_div_nonneg, Z.rem_mod_nonneg by lia.
  pose proof (Z.div_mod x m ltac:(lia)).
  pose proof (Z.mod_pos_bound x m Hm).
  assert (0 <= x / m) by (apply Z.div_pos; lia).
  assert (x / m < m) by (apply Z.div_lt_upper_bound; lia).
  lia.
Qed.

Lemma transpose_body_inv (m : Z) (l : list Z) (x : Z) (inout mem : Z -> T) :
  0 < m -> 0 <= x < m * m -> ~ In x l ->
  Linalg.transposed_on m l inout mem ->
  Linalg.transposed_on m (l ++ [x]) inout (Linalg.transpose_body m mem x).
Proof.
  intros Hm Hx Hnx [Hin Hout].
  destruct (cell_of_index m x Hm Hx) as (Ha & Hb & Ex).
  set (a := Z.quot x m) in *. set (b := Z.rem x m) in *.
  unfold Linalg.transpose_body. fold a b. cbv zeta.
  destruct (Z.ltb_spec b a) as [Hba | Hab].
  - (* the exchange *)
    assert (Hta : Linalg.turn_of m a b = x).
    { unfold Linalg.turn_of. destruct (Z.ltb_spec a b); lia. }
    assert (Htb : Linalg.turn_of m b a = x).
    { unfold Linalg.turn_of. destruct (Z.ltb_spec b a); lia. }
    assert (Hma : mem (a * m + b) = inout (a * m + b)).
    { rewrite (Hin a b Ha Hb), Hta.
      destruct (in_dec Z.eq_dec x l); [contradiction | reflexivity]. }
    assert (Hmb : mem (b * m + a) = inout (b * m + a)).
    { rewrite (Hin b a Hb Ha), Htb.
      destruct (in_dec Z.eq_dec x l); [contradiction | reflexivity]. }
    split.
    + intros i j Hi Hj. cbn [store_all fold_left fst snd].
      destruct (Z.eqb_spec (i * m + j) (a * m + b)) as [E | E].
      * apply cell_inj in E; try lia. destruct E as [-> ->].
        rewrite Hta.
        destruct (in_dec Z.eq_dec x (l ++ [x])) as [_ | N];
          [| exfalso; apply N, in_or_app; right; left; reflexivity].
        destruct (Z.eqb_spec a b); [lia | exact Hmb].
      * destruct (Z.eqb_spec (i * m + j) (b * m + a)) as [E' | E'].
        -- apply cell_inj in E'; try lia. destruct E' as [-> ->].
           rewrite Htb.
           destruct (in_dec Z.eq_dec x (l ++ [x])) as [_ | N];
             [| exfalso; apply N, in_or_app; right; left; reflexivity].
           destruct (Z.eqb_spec b a); [lia | exact Hma].
        -- rewrite (Hin i j Hi Hj).
           assert (Ht : Linalg.turn_of m i j <> x).
           { unfold Linalg.turn_of. destruct (Z.ltb_spec i j); intros Et.
             - apply E'. rewrite Ex in Et.
               apply cell_inj in Et; lia.
             - apply E. rewrite Ex in Et. exact Et. }
           destruct (in_dec Z.eq_dec (Linalg.turn_of m i j) l) as [I | I];
             destruct (in_dec Z.eq_dec (Linalg.turn_of m i j) (l ++ [x])) as [I' | I'];
             try reflexivity.
           ++ exfalso. apply I', in_or_app. left. exact I.
           ++ exfalso. apply in_app_or in I'. destruct I' as [I' | [I' | []]];
                [exact (I I') | exact (Ht (eq_sym I'))].
    + intros p Hp. cbn [store_all fold_left fst snd].
      destruct (Z.eqb_spec p (a * m + b)) as [E | E]; [exfalso; apply Hp; lia |].
      destruct (Z.eqb_spec p (b * m + a)) as [E' | E']; [exfalso; apply Hp; nia |].
      apply Hout. exact Hp.
  - (* on or above the diagonal: nothing happens *)
    split; [| exact Hout].
    intros i j Hi Hj. rewrite (Hin i j Hi Hj).
    destruct (in_dec Z.eq_dec (Linalg.turn_of m i j) l) as [I | I];
      destruct (in_dec Z.eq_dec (Linalg.turn_of m i j) (l ++ [x])) as [I' | I'];
      try reflexivity.
    + exfalso. apply I', in_or_app. left. exact I.
    + apply in_app_or in I'. destruct I' as [I' | [I' | []]]; [contradiction |].
      (* the turn of a cell off the diagonal is below the diagonal *)
      destruct (Z.eqb_spec i j) as [_ | Hij]; [reflexivity |].
      exfalso. unfold Linalg.turn_of in I'. rewrite Ex in I'.
      destruct (Z.ltb_spec i j);
        apply cell_inj in I'; lia.
Qed.

Lemma for_each_transposed (m : Z) (l : list Z) (inout : Z -> T) :
  0 < m -> NoDup l -> (forall x, In x l -> 0 <= x < m * m) ->
  Linalg.transposed_on m l inout (Linalg.for_each l (Linalg.transpose_body m) inout).
Proof.
  intros Hm. induction l as [|x l IH] using rev_ind; intros Hnd Hr.
  - split; [| reflexivity]. intros i j _ _. cbn.
    destruct (in_dec Z.eq_dec (Linalg.turn_of m i j) []) as [[] | _]. reflexivity.
  - unfold Linalg.for_each. rewrite fold_left_app. cbn [fold_left].
    apply NoDup_remove in Hnd. rewrite app_nil_r in Hnd. destruct Hnd as [Hnd Hx].
    apply transpose_body_inv; try assumption.
    + apply Hr, in_or_app. right. left. reflexivity.
    + apply IH; [exact Hnd |]. intros y Hy. apply Hr, in_or_app. left. exact Hy.
Qed.


Lemma transpose_spec (n : Z) (sched : list Z) (inout : Z -> T) :
  0 <= n ->
  Permutation sched (zseq (n * n)) ->
  (forall i j, 0 <= i < n -> 0 <= j < n ->
     Linalg.transpose sched inout n (i * n + j) = inout (j * n + i)) /\
  (forall p, ~ 0 <= p < n * n -> Linalg.transpose sched inout n p = inout p).
Proof.
  intros Hn Hperm.
  assert (H0 : n = 0 \/ 0 < n) by lia. destruct H0 as [-> | Hpos].
  - change (zseq (0 * 0)) with (@nil Z) in Hperm.
    apply Permutation_sym, Permutation_nil in Hperm. subst sched.
    split; [intros i j Hi; lia | reflexivity].
  - assert (Hnd : NoDup sched).
    { apply (Permutation_NoDup (Permutation_sym Hperm)), NoDup_zseq. }
    assert (Hr : forall x, In x sched -> 0 <= x < n * n).
    { intros x Hx. apply in_zseq. exact (Permutation_in x Hperm Hx). }
    destruct (for_each_transposed n sched inout Hpos Hnd Hr) as [Hin Hout].
    split; [| exact Hout].
    intros i j Hi Hj. unfold Linalg.transpose. cbv zeta. rewrite (Hin i j Hi Hj).
    destruct (in_dec Z.eq_dec (Linalg.turn_of n i j) sched) as [_ | N].
    + destruct (Z.eqb_spec i j) as [-> | _]; reflexivity.
    + exfalso. apply N. apply (Permutation_in _ (Permutation_sym Hperm)).
      apply in_zseq. unfold Linalg.turn_of. destruct (Z.ltb_spec i j); nia.
Qed.


(** X1: [transpose(inout, n, stream)] leaves in cell [(i, j)] what cell
    [(j, i)] held, in whatever order the indices of the [for_each] take
    their turn, and changes nothing outside the [n * n] cells.  [int] is
    modelled without overflow, which [n * n < 2^31] grants. *)
Theorem transpose_in_place_any_order (n : Z) (sched : list Z) (inout : Z -> T) :
  0 <= n -> n * n < 2 ^ 31 ->
  Permutation sched (zseq (n * n)) ->
  (forall i j, 0 <= i < n -> 0 <= j < n ->
     Linalg.transpose sched inout n (i * n + j) = inout (j * n + i)) /\
  (forall p, ~ 0 <= p < n * n -> Linalg.transpose sched inout n p = inout p).
Proof. intros Hn _ Hperm. apply transpose_spec; assumption. Qed.

(** X2: transposing in place twice gives the matrix back, whatever the
    two orders of execution. *)
Theorem transpose_twice (n : Z) (s1 s2 : list Z) (inout : Z -> T) (p : Z) :
  0 <= n -> n * n < 2 ^ 31 ->
  Permutation s1 (zseq (n * n)) -> Permutation s2 (zseq (n * n)) ->
  Linalg.transpose s2 (Linalg.transpose s1 inout n) n p = inout p.
Proof.
  intros Hn Hsz H1 H2.
  destruct (transpose_spec n s1 inout Hn H1) as [A1 B1].
  destruct (transpose_spec n s2 (Linalg.transpose s1 inout n) Hn H2) as [A2 B2].
  assert (Hp : 0 <= p < n * n \/ ~ 0 <= p < n * n) by lia.
  destruct Hp as [Hp | Hp].
  - assert (Hpos : 0 < n) by nia.
    destruct (cell_of_index n p Hpos Hp) as (Ha & Hb & Ep).
    rewrite Ep at 1. rewrite A2, A1 by assumption. rewrite <- Ep. reflexivity.
  - rewrite B2, B1 by assumption. reflexivity.
Qed.

(** X3: the turns of two different indices touch different cells, all of
    them inside the matrix, and a turn leaves every other cell alone. *)
Theorem transpose_turns_disjoint (m x y c : Z) (mem : Z -> T) :
  0 < m -> 0 <= x < m * m -> 0 <= y < m * m -> x <> y ->
  (In c (Linalg.transpose_cells m x) -> 0 <= c < m * m) /\
  (In c (Linalg.transpose_cells m x) -> ~ In c (Linalg.transpose_cells m y)) /\
  (~ In c (Linalg.transpose_cells m x) -> Linalg.transpose_body m mem x c = mem c).
Proof.
  intros Hm Hx Hy Hxy.
  destruct (cell_of_index m x Hm Hx) as (Ha & Hb & Ex).
  destruct (cell_of_index m y Hm Hy) as (Ha' & Hb' & Ey).
  unfold Linalg.transpose_cells, Linalg.transpose_body. cbv zeta.
  set (a := Z.quot x m) in *. set (b := Z.rem x m) in *.
  set (a' := Z.quot y m) in *. set (b' := Z.rem y m) in *.
  split; [| split].
  - destruct (Z.ltb_spec b a); [| intros []].
    intros [<- | [<- | []]]; nia.
  - destruct (Z.ltb_spec b a); [| intros []].
    destruct (Z.ltb_spec b' a'); [| intros _ []].
    intros [<- | [<- | []]] [E | [E | []]];
      apply cell_inj in E; lia.
  - destruct (Z.ltb_spec b a); [| reflexivity].
    intros Hc. cbn [store_all fold_left fst snd].
    destruct (Z.eqb_spec c (a * m + b)) as [-> | _];
      [exfalso; apply Hc; right; left; reflexivity |].
    destruct (Z.eqb_spec c (b * m + a)) as [-> | _];
      [exfalso; apply Hc; left; reflexivity | reflexivity].
Qed.

End TransposeProofs.

(** ** [ceildiv], [alignTo], [alignDown] *)

Lemma ceildiv_exact (wrap : Z -> Z) (a b : Z) :
  0 <= a -> 0 < b -> (forall x, 0 <= x < a + b -> wrap x = x) ->
  Raft.ceildiv wrap a b = (a + b - 1) / b.
Proof.
  intros Ha Hb Hw. unfold Raft.ceildiv.
  rewrite (Hw (a + b - 1)) by lia.
  rewrite Z.quot_div_nonneg by lia.
  apply Hw.
  assert (0 <= (a + b - 1) / b) by (apply Z.div_pos; lia).
  assert ((a + b - 1) / b <= a + b - 1) by (apply Z.div_le_upper_bound; nia).
  lia.
Qed.

(** X4: for [a >= 0] and [b > 0], and an integer type that holds the
    numbers below [a + b], [alignTo(a, b)] is the least multiple of [b]
    that is at least [a], [alignDown(a, b)] the greatest that is at most
    [a], and [ceildiv(a, b)] the number of [b]s in the former. *)
Theorem alignTo_alignDown_nearest_multiples (wrap : Z -> Z) (a b : Z) :
  0 <= a -> 0 < b -> (forall x, 0 <= x < a + b -> wrap x = x) ->
  CudaUtils.alignTo wrap a b = Raft.ceildiv wrap a b * b /\
  a <= CudaUtils.alignTo wrap a b < a + b /\
  (exists q, CudaUtils.alignDown wrap a b = q * b) /\
  CudaUtils.alignDown wrap a b <= a < CudaUtils.alignDown wrap a b + b.
Proof.
  intros Ha Hb Hw.
  unfold CudaUtils.alignTo, CudaUtils.alignDown.
  rewrite (ceildiv_exact wrap a b Ha Hb Hw).
  rewrite Z.quot_div_nonneg by lia.
  pose proof (Z.div_mod (a + b - 1) b ltac:(lia)) as E1.
  pose proof (Z.mod_pos_bound (a + b - 1) b Hb) as B1.
  pose proof (Z.div_mod a b ltac:(lia)) as E2.
  pose proof (Z.mod_pos_bound a b Hb) as B2.
  assert (Q1 : 0 <= (a + b - 1) / b) by (apply Z.div_pos; lia).
  assert (Q2 : 0 <= a / b) by (apply Z.div_pos; lia).
  rewrite (Hw ((a + b - 1) / b * b)) by nia.
  rewrite (Hw (a / b)) by nia.
  rewrite (Hw (a / b * b)) by nia.
  split; [reflexivity |]. split; [nia |]. split; [exists (a / b); reflexivity | nia].
Qed.

(** X5: in [uint], once [a + b - 1] no longer fits, [ceildiv<uint>(a, b)]
    and [alignTo<uint>(a, b)] are zero, whatever the size of [a]. *)
Theorem ceildiv_uint_overflow (a b : Z) :
  0 <= a < 2 ^ 32 -> 0 < b < 2 ^ 32 -> 2 ^ 32 < a + b ->
  Raft.ceildiv Raft.uint a b = 0 /\ CudaUtils.alignTo Raft.uint a b = 0.
Proof.
  intros Ha Hb Hab.
  assert (E : Raft.ceildiv Raft.uint a b = 0).
  { unfold Raft.ceildiv, Raft.uint.
    replace ((a + b - 1) mod 2 ^ 32) with (a + b - 1 - 2 ^ 32).
    - rewrite Z.quot_small by lia. reflexivity.
    - apply Z.mod_unique with (q := 1); lia. }
  split; [exact E |].
  unfold CudaUtils.alignTo. rewrite E. reflexivity.
Qed.

(** ** [isPo2] and [log2] *)

Lemma isPo2_pow2 (k : Z) : 0 <= k -> CudaUtils.isPo2 (2 ^ k) = true.
Proof.
  intros Hk. unfold CudaUtils.isPo2, CudaUtils.truthy.
  assert (0 < 2 ^ k) by (apply Z.pow_pos_nonneg; lia).
  replace (2 ^ k - 1) with (Z.ones k) by (rewrite Z.ones_equiv; lia).
  rewrite Z.land_ones, Z.mod_same by lia.
  destruct (Z.eqb_spec (2 ^ k) 0); [lia | reflexivity].
Qed.

Lemma isPo2_inv (num : Z) :
  CudaUtils.isPo2 num = true -> 0 < num /\ num = 2 ^ Z.log2 num.
Proof.
  unfold CudaUtils.isPo2, CudaUtils.truthy. intros H.
  apply andb_true_iff in H. destruct H as [H0 H1].
  apply negb_true_iff in H0. apply Z.eqb_neq in H0.
  rewrite negb_involutive in H1. apply Z.eqb_eq in H1.
  assert (Hpos : 0 < num).
  { destruct (Z_lt_le_dec 0 num) as [P | N]; [exact P | exfalso].
    assert (Z.land num (num - 1) < 0) by (apply Z.land_neg; lia). lia. }
  split; [exact Hpos |].
  destruct (Z.log2_spec num Hpos) as [Lo Hi].
  destruct (Z.eq_dec num (2 ^ Z.log2 num)) as [E | NE]; [exact E | exfalso].
  assert (Hb : Z.log2 (num - 1) = Z.log2 num).
  { apply Z.log2_unique; [apply Z.log2_nonneg | lia]. }
  assert (T1 : Z.testbit num (Z.log2 num) = true) by (apply Z.bit_log2; lia).
  assert (T2 : Z.testbit (num - 1) (Z.log2 num) = true).
  { rewrite <- Hb. apply Z.bit_log2.
    assert (0 < 2 ^ Z.log2 num) by (apply Z.pow_pos_nonneg; [lia | apply Z.log2_nonneg]).
    lia. }
  assert (T : Z.testbit (Z.land num (num - 1)) (Z.log2 num) = true).
  { rewrite Z.land_spec, T1, T2. reflexivity. }
  rewrite H1, Z.bits_0 in T. discriminate.
Qed.

Lemma log2_acc (num ret : Z) : CudaUtils.log2 num ret = ret + Z.log2 num.
Proof.
  funelim (CudaUtils.log2 num ret).
  destruct (Z_le_gt_dec num 1) as [Hle | Hgt].
  - assert (E : Z.log2 num = 0).
    { destruct (Z.eq_dec num 1) as [-> | N]; [reflexivity |].
      apply Z.log2_nonpos. lia. }
    lia.
  - rewrite H by lia. rewrite Z.log2_shiftr by lia.
    assert (1 <= Z.log2 num) by (apply Z.log2_le_pow2; simpl; lia).
    lia.
Qed.


(** X7: [log2(num)] is the position of the highest set bit of a positive
    [num] and zero for every [num <= 1]; the second argument is added to
    the result. *)
Theorem log2_floor (num ret : Z) :
  CudaUtils.log2 num ret = ret + CudaUtils.log2 num 0 /\
  (num <= 1 -> CudaUtils.log2 num 0 = 0) /\
  (1 <= num ->
     0 <= CudaUtils.log2 num 0 /\
     2 ^ CudaUtils.log2 num 0 <= num < 2 ^ (CudaUtils.log2 num 0 + 1)).
Proof.
  rewrite (log2_acc num ret), (log2_acc num 0), Z.add_0_l.
  split; [reflexivity |]. split.
  - intros Hle. destruct (Z.eq_dec num 1) as [-> | N]; [reflexivity |].
    apply Z.log2_nonpos. lia.
  - intros Hpos. split; [apply Z.log2_nonneg |].
    replace (Z.log2 num + 1) with (Z.succ (Z.log2 num)) by lia.
    apply Z.log2_spec. lia.
Qed.

(** X8: on positive numbers, [log2] undoes a power of two and nothing
    else: [2 ^ log2(num) = num] exactly when [isPo2(num)]. *)
Theorem log2_exact_iff_isPo2 (num : Z) :
  1 <= num ->
  (2 ^ CudaUtils.log2 num 0 = num <-> CudaUtils.isPo2 num = true).
Proof.
  intros Hpos. rewrite (log2_acc num 0), Z.add_0_l. split.
  - intros E. rewrite <- E. apply isPo2_pow2, Z.log2_nonneg.
  - intros H. apply isPo2_inv in H. destruct H as [_ E]. symmetry. exact E.
Qed.

(** ** [sgn], [signPrim], [myAbs], [maxPrim] *)


(** ** [forEach] *)

Lemma forEach_loop_spec (n : nat) (itr0 idx0 numThreads num idx itr : Z) :
  In (idx, itr) (CudaUtils.forEach_loop n itr0 idx0 numThreads num) <->
  exists k, 0 <= k < Z.of_nat n /\ idx = idx0 + k * numThreads /\
            itr = itr0 + k /\ idx < num.
Proof.
  revert itr0 idx0. induction n as [|n IH]; intros itr0 idx0.
  - cbn. split; [intros [] | intros (k & Hk & _); lia].
  - cbn [CudaUtils.forEach_loop]. rewrite in_app_iff, IH. split.
    + intros [H | (k & Hk & -> & -> & Hlt)].
      * destruct (Z.ltb_spec idx0 num) as [L | L]; [| destruct H].
        destruct H as [H | []]. injection H as <- <-.
        exists 0. lia.
      * exists (k + 1). lia.
    + intros (k & Hk & -> & -> & Hlt).
      destruct (Z.eq_dec k 0) as [-> | Hk0].
      * left. destruct (Z.ltb_spec idx0 num) as [L | L]; [| lia].
        left. f_equal; lia.
      * right. exists (k - 1). lia.
Qed.

Lemma forEach_loop_NoDup (n : nat) (itr0 idx0 numThreads num : Z) :
  NoDup (map snd (CudaUtils.forEach_loop n itr0 idx0 numThreads num)).
Proof.
  revert itr0 idx0. induction n as [|n IH]; intros itr0 idx0.
  - constructor.
  - cbn [CudaUtils.forEach_loop]. rewrite map_app.
    assert (Hlater : forall i, In i (map snd
              (CudaUtils.forEach_loop n (itr0 + 1) (idx0 + numThreads) numThreads num)) ->
              itr0 < i).
    { intros i Hi. apply in_map_iff in Hi. destruct Hi as ([x i'] & E & Hi).
      cbn in E. subst i'. apply forEach_loop_spec in Hi.
      destruct Hi as (k & Hk & _ & -> & _). lia. }
    destruct (idx0 <? num); cbn [map app snd]; [| apply IH].
    constructor; [| apply IH].
    intros Hi. apply Hlater in Hi. lia.
Qed.

Lemma grid_thread_unique (bd b t b' t' : Z) :
  0 <= t < bd -> 0 <= t' < bd -> bd * b + t = bd * b' + t' -> b = b' /\ t = t'.
Proof.
  intros Ht Ht' E.
  assert (Hb : b = b').
  { destruct (Z.lt_trichotomy b b') as [L | [EQ | L]]; [exfalso; nia | exact EQ | exfalso; nia]. }
  subst b'. lia.
Qed.

Lemma forEach_grid_spec (ItemsPerThread blockDim gridDim num idx itr : Z) :
  0 < blockDim -> 0 < gridDim ->
  (In (idx, itr) (CudaUtils.forEach_grid ItemsPerThread blockDim gridDim num) <->
   0 <= idx < num /\ idx < ItemsPerThread * (blockDim * gridDim) /\
   itr = idx / (blockDim * gridDim)).
Proof.
  intros Hbd Hgd. unfold CudaUtils.forEach_grid.
  set (nt := blockDim * gridDim).
  assert (Hnt : 0 < nt) by (unfold nt; nia).
  rewrite in_flat_map. split.
  - intros (b & Hb & H). apply in_flat_map in H. destruct H as (t & Ht & H).
    apply in_zseq in Hb, Ht.
    unfold CudaUtils.forEach in H. cbv zeta in H. fold nt in H.
    apply forEach_loop_spec in H. destruct H as (k & Hk & -> & -> & Hlt).
    assert (H0 : 0 <= blockDim * b + t < nt) by (unfold nt; nia).
    split; [nia |]. split; [nia |].
    rewrite Z.add_0_l.
    apply Z.div_unique with (r := blockDim * b + t); lia.
  - intros (Hidx & Hcap & ->).
    pose proof (Z.div_mod idx nt ltac:(lia)) as E.
    pose proof (Z.mod_pos_bound idx nt Hnt) as Hr.
    assert (Hq : 0 <= idx / nt) by (apply Z.div_pos; lia).
    set (r := idx mod nt) in *.
    pose proof (Z.div_mod r blockDim ltac:(lia)) as E'.
    pose proof (Z.mod_pos_bound r blockDim Hbd) as Hr'.
    assert (Hq' : 0 <= r / blockDim) by (apply Z.div_pos; lia).
    assert (Hb : r / blockDim < gridDim).
    { apply Z.div_lt_upper_bound; [lia | fold nt; lia]. }
    exists (r / blockDim). split; [apply in_zseq; lia |].
    apply in_flat_map. exists (r mod blockDim). split; [apply in_zseq; lia |].
    unfold CudaUtils.forEach. cbv zeta. fold nt.
    apply forEach_loop_spec. exists (idx / nt).
    split; [| split; [| split]]; try lia.
    assert (idx / nt < ItemsPerThread) by (apply Z.div_lt_upper_bound; lia).
    lia.
Qed.

(** X10: over a one-dimensional grid, [forEach<ItemsPerThread>(num, f)]
    calls [f(idx, itr)] once for every [idx] below both [num] and
    [ItemsPerThread * numThreads], with [itr = idx / numThreads], and for
    no other pair; the indices from [ItemsPerThread * numThreads] on are
    left out without notice. *)
Theorem forEach_grid_calls (ItemsPerThread blockDim gridDim num : Z) :
  0 < blockDim -> 0 < gridDim ->
  NoDup (CudaUtils.forEach_grid ItemsPerThread blockDim gridDim num) /\
  forall idx itr,
    In (idx, itr) (CudaUtils.forEach_grid ItemsPerThread blockDim gridDim num) <->
    0 <= idx < num /\ idx < ItemsPerThread * (blockDim * gridDim) /\
    itr = idx / (blockDim * gridDim).
Proof.
  intros Hbd Hgd. split; [| intros idx itr; apply forEach_grid_spec; assumption].
  assert (Hthread : forall b t x,
            In x (CudaUtils.forEach ItemsPerThread blockDim gridDim b t num) ->
            (fst x) mod (blockDim * gridDim) = (blockDim * b + t) mod (blockDim * gridDim)).
  { intros b t [idx itr] H. unfold CudaUtils.forEach in H. cbv zeta in H.
    apply forEach_loop_spec in H. destruct H as (k & _ & -> & _ & _).
    cbn [fst]. apply Z.mod_add. nia. }
  unfold CudaUtils.forEach_grid.
  apply NoDup_flat_map; [apply NoDup_zseq | |].
  - intros b Hb. apply NoDup_flat_map; [apply NoDup_zseq | |].
    + intros t _. unfold CudaUtils.forEach. cbv zeta.
      apply (NoDup_map_inv snd), forEach_loop_NoDup.
    + intros t t' x Ht Ht' Hx Hx'. apply in_zseq in Hb, Ht, Ht'.
      apply Hthread in Hx, Hx'. rewrite Hx in Hx'.
      rewrite !Z.mod_small in Hx' by nia. lia.
  - intros b b' x Hb Hb' Hx Hx'. apply in_zseq in Hb, Hb'.
    apply in_flat_map in Hx, Hx'.
    destruct Hx as (t & Ht & Hx). destruct Hx' as (t' & Ht' & Hx').
    apply in_zseq in Ht, Ht'.
    apply Hthread in Hx, Hx'. rewrite Hx in Hx'.
    rewrite !Z.mod_small in Hx' by nia.
    apply grid_thread_unique in Hx'; lia.
Qed.

(** ** [warpReduce] and [blockReduce] *)

Lemma lxor_below (n a b : Z) :
  0 <= n -> 0 <= a < 2 ^ n -> 0 <= b < 2 ^ n -> 0 <= Z.lxor a b < 2 ^ n.
Proof.
  intros Hn Ha Hb.
  destruct (Z.eq_dec a 0) as [-> | Ha0]; [rewrite Z.lxor_0_l; exact Hb |].
  destruct (Z.eq_dec b 0) as [-> | Hb0]; [rewrite Z.lxor_0_r; exact Ha |].
  assert (H0 : 0 <= Z.lxor a b) by (apply Z.lxor_nonneg; lia).
  split; [exact H0 |].
  destruct (Z.eq_dec (Z.lxor a b) 0) as [-> | Hne]; [lia |].
  apply Z.log2_lt_pow2; [lia |].
  pose proof (Z.log2_lxor a b ltac:(lia) ltac:(lia)) as Hl.
  assert (Hla : Z.log2 a < n) by (apply Z.log2_lt_pow2; lia).
  assert (Hlb : Z.log2 b < n) by (apply Z.log2_lt_pow2; lia).
  lia.
Qed.

(** The lanes that differ from a given one by a number below 32 are the
    32 lanes of the warp. *)
Lemma lxor_lanes (lane : Z) :
  0 <= lane < 32 ->
  Permutation (map (Z.lxor lane) (zseq 32)) (zseq 32).
Proof.
  intros Hl. apply NoDup_Permutation.
  - apply NoDup_map_NoDup_ForallPairs; [| apply NoDup_zseq].
    intros x y _ _ E.
    rewrite <- (Z.lxor_0_l x), <- (Z.lxor_nilpotent lane), Z.lxor_assoc, E.
    rewrite <- Z.lxor_assoc, Z.lxor_nilpotent. apply Z.lxor_0_l.
  - apply NoDup_zseq.
  - intros x. rewrite in_map_iff. split.
    + intros (c & <- & Hc). apply in_zseq in Hc. apply in_zseq.
      apply (lxor_below 5); lia.
    + intros Hx. apply in_zseq in Hx. exists (Z.lxor lane x). split.
      * rewrite <- Z.lxor_assoc, Z.lxor_nilpotent. apply Z.lxor_0_l.
      * apply in_zseq. apply (lxor_below 5); lia.
Qed.

Section Sums.

Variable T : Type.
Variable add : T -> T -> T.
Variable zero : T.
Hypothesis add_assoc : forall x y z, add x (add y z) = add (add x y) z.
Hypothesis add_comm : forall x y, add x y = add y x.
Hypothesis add_zero : forall x, add x zero = x.

Let fsum (l : list T) : T := fold_right add zero l.

Lemma fsum_app (l1 l2 : list T) : fsum (l1 ++ l2) = add (fsum l1) (fsum l2).
Proof.
  induction l1 as [|x l1 IH]; cbn.
  - rewrite add_comm. symmetry. apply add_zero.
  - fold (fsum (l1 ++ l2)) (fsum l1). rewrite IH. apply add_assoc.
Qed.

Lemma fsum_perm (l l' : list T) : Permutation l l' -> fsum l = fsum l'.
Proof.
  induction 1 as [| x l l' _ IH | x y l | l l' l'' _ IH1 _ IH2]; cbn.
  - reflexivity.
  - fold (fsum l) (fsum l'). rewrite IH. reflexivity.
  - fold (fsum l). rewrite !add_assoc, (add_comm y x). reflexivity.
  - rewrite IH1. exact IH2.
Qed.

Lemma fsum_add {A : Type} (f g : A -> T) (l : list A) :
  fsum (map (fun x => add (f x) (g x)) l) = add (fsum (map f l)) (fsum (map g l)).
Proof.
  induction l as [|x l IH]; cbn.
  - symmetry. apply add_zero.
  - fold (fsum (map (fun x => add (f x) (g x)) l)) (fsum (map f l)) (fsum (map g l)).
    rewrite IH. rewrite !add_assoc. f_equal.
    rewrite <- !add_assoc. f_equal. apply add_comm.
Qed.

Lemma fsum_ext {A : Type} (f g : A -> T) (l : list A) :
  (forall x, In x l -> f x = g x) -> fsum (map f l) = fsum (map g l).
Proof.
  intros H. f_equal. apply map_ext_in. exact H.
Qed.

Lemma fsum_zero {A : Type} (l : list A) : fsum (map (fun _ => zero) l) = zero.
Proof.
  induction l as [|x l IH]; cbn; [reflexivity |].
  fold (fsum (map (fun _ : A => zero) l)). rewrite IH. apply add_zero.
Qed.

(** One round of the butterfly. *)
Let round (i : Z) (v : Z -> T) : Z -> T :=
  fun lane => add (v lane) (CudaUtils.shfl_xor T v i lane).

Lemma round_sum (i : Z) (v : Z -> T) (lane : Z) (S : list Z) :
  fsum (map (fun c => round i v (Z.lxor lane c)) S) =
  fsum (map (fun c => v (Z.lxor lane c)) (S ++ map (fun c => Z.lxor c i) S)).
Proof.
  unfold round, CudaUtils.shfl_xor.
  rewrite fsum_add, map_app, fsum_app, map_map. f_equal.
  apply fsum_ext. intros c _. rewrite Z.lxor_assoc. reflexivity.
Qed.

Lemma warpReduce_rounds (val : Z -> T) :
  CudaUtils.warpReduce T add val = round 1 (round 2 (round 4 (round 8 (round 16 val)))).
Proof.
  unfold CudaUtils.warpReduce.
  change (Z.quot Raft.WarpSize 2) with 16.
  rewrite CudaUtils.warpReduce_loop_equation_1. cbn [Z_gt_le_dec]. 
  change (Z.shiftr 16 1) with 8.
  rewrite CudaUtils.warpReduce_loop_equation_1.
  change (Z.shiftr 8 1) with 4.
  rewrite CudaUtils.warpReduce_loop_equation_1.
  change (Z.shiftr 4 1) with 2.
  rewrite CudaUtils.warpReduce_loop_equation_1.
  change (Z.shiftr 2 1) with 1.
  rewrite CudaUtils.warpReduce_loop_equation_1.
  change (Z.shiftr 1 1) with 0.
  rewrite CudaUtils.warpReduce_loop_equation_1.
  reflexivity.
Qed.

Lemma warpReduce_sum (val : Z -> T) (lane : Z) :
  0 <= lane < 32 ->
  CudaUtils.warpReduce T add val lane = CudaUtils.sum_upto T add zero 32 val.
Proof.
  intros Hl. rewrite warpReduce_rounds.
  transitivity (fsum (map (fun c => round 1 (round 2 (round 4 (round 8 (round 16 val))))
                                      (Z.lxor lane c)) [0])).
  { cbn. rewrite Z.lxor_0_r. symmetry. apply add_zero. }
  rewrite !round_sum.
  unfold CudaUtils.sum_upto. fold (fsum (map val (zseq 32))).
  rewrite <- (fsum_perm _ _ (Permutation_map val (lxor_lanes lane Hl))).
  rewrite map_map. reflexivity.
Qed.


Lemma sum_upto_nested (val : Z -> T) (w n : Z) :
  0 <= w -> 0 <= n ->
  CudaUtils.sum_upto T add zero (w * n) val =
  fsum (map (fun q => CudaUtils.sum_upto T add zero w (fun r => val (q * w + r)))
          (zseq n)).
Proof.
  intros Hw Hn. pattern n. apply natlike_ind; [| | exact Hn].
  - rewrite Z.mul_0_r. reflexivity.
  - clear n Hn. intros k Hk IH.
    replace (w * Z.succ k) with (w * k + w) by lia.
    unfold Z.succ. unfold CudaUtils.sum_upto at 1.
    rewrite !zseq_app, !map_app, !fsum_app by nia.
    change (fsum (map val (zseq (w * k)))) with (CudaUtils.sum_upto T add zero (w * k) val).
    rewrite IH. f_equal.
    change (zseq 1) with [0]. cbn [map fsum fold_right]. rewrite add_zero.
    unfold CudaUtils.sum_upto. rewrite map_map. apply fsum_ext.
    intros r _. f_equal. lia.
Qed.

Lemma blockReduce_sum (nW : Z) (val smem : Z -> T) (t : Z) :
  1 <= nW <= 32 -> 0 <= t < 32 * nW ->
  CudaUtils.blockReduce T add zero (32 * nW) val smem t =
  CudaUtils.sum_upto T add zero (32 * nW) val.
Proof.
  intros HnW Ht. unfold CudaUtils.blockReduce. cbv zeta.
  change Raft.WarpSize with 32.
  assert (EnW : Z.quot (32 * nW + 32 - 1) 32 = nW).
  { rewrite Z.quot_div_nonneg by lia. symmetry.
    apply Z.div_unique with (r := 31); lia. }
  rewrite EnW.
  assert (Hlid : 0 <= Z.rem t 32 < 32).
  { rewrite Z.rem_mod_nonneg by lia. apply Z.mod_pos_bound. lia. }
  rewrite (warpReduce_sum _ _ Hlid).
  rewrite (sum_upto_nested val 32 nW) by lia.
  unfold CudaUtils.sum_upto at 1.
  replace 32 with (nW + (32 - nW)) at 1 by lia.
  rewrite zseq_app, map_app, fsum_app by lia.
  rewrite map_map.
  rewrite (fsum_ext _ (fun _ => zero) (zseq (32 - nW))).
  2:{ intros x Hx. apply in_zseq in Hx.
      destruct (Z.ltb_spec (nW + x) nW); [lia | reflexivity]. }
  rewrite fsum_zero, add_zero.
  apply fsum_ext. intros w Hw. apply in_zseq in Hw.
  destruct (Z.ltb_spec w nW) as [_ | ?]; [| lia].
  (* the slot of warp [w] holds what lane 0 of that warp stored *)
  apply store_all_determined.
  - intros v Hv. apply in_map_iff in Hv. destruct Hv as (t' & E & Ht').
    apply filter_In in Ht'. destruct Ht' as [Ht' Hl0].
    apply in_zseq in Ht'. apply Z.eqb_eq in Hl0.
    injection E as Ew <-.
    rewrite Ew, Hl0. apply warpReduce_sum. lia.
  - rewrite map_map. cbn [fst]. apply in_map_iff. exists (32 * w). split.
    + rewrite Z.mul_comm, Z.quot_mul by lia. reflexivity.
    + apply filter_In. split; [apply in_zseq; lia |].
      apply Z.eqb_eq. rewrite Z.mul_comm. apply Z.rem_mul. lia.
Qed.


(** ** Sums with a condition, sums of sums *)

Lemma add_zero_l (x : T) : add zero x = x.
Proof. rewrite add_comm. apply add_zero. Qed.

Lemma fold_left_add (l : list T) (acc : T) : fold_left add l acc = add acc (fsum l).
Proof.
  revert acc. induction l as [|x l IH]; intros acc; cbn.
  - symmetry. apply add_zero.
  - rewrite IH. fold (fsum l). symmetry. apply add_assoc.
Qed.

Lemma fsum_if (b : bool) {A : Type} (f : A -> T) (l : list A) :
  fsum (map (fun x => if b then f x else zero) l) = if b then fsum (map f l) else zero.
Proof. destruct b; [reflexivity | apply fsum_zero]. Qed.

(** Of the terms of a sum the condition [x = x0] keeps one, if any. *)
Lemma fsum_single (n x0 : Z) (v : Z -> T) :
  fsum (map (fun x => if x =? x0 then v x else zero) (zseq n)) =
  if (0 <=? x0) && (x0 <? n) then v x0 else zero.
Proof.
  assert (G : forall l, NoDup l ->
            fsum (map (fun x => if x =? x0 then v x else zero) l) =
            if in_dec Z.eq_dec x0 l then v x0 else zero).
  { induction l as [|y l IH]; intros Hnd; [reflexivity|].
    inversion Hnd as [|y' l' Hny Hnd']; subst. cbn [map fsum fold_right].
    fold (fsum (map (fun x => if x =? x0 then v x else zero) l)).
    rewrite (IH Hnd').
    destruct (Z.eqb_spec y x0) as [-> | Hne].
    - destruct (in_dec Z.eq_dec x0 l) as [Hin | _]; [contradiction|].
      destruct (in_dec Z.eq_dec x0 (x0 :: l)) as [_ | N];
        [apply add_zero | exfalso; apply N; left; reflexivity].
    - rewrite add_zero_l.
      destruct (in_dec Z.eq_dec x0 l) as [Hin | Hnin];
        destruct (in_dec Z.eq_dec x0 (y :: l)) as [Hin' | Hnin']; try reflexivity.
      + exfalso. apply Hnin'. right. exact Hin.
      + exfalso. destruct Hin' as [E | Hin']; [exact (Hne E) | exact (Hnin Hin')]. }
  rewrite (G (zseq n) (NoDup_zseq n)).
  destruct (in_dec Z.eq_dec x0 (zseq n)) as [Hin | Hnin].
  - apply in_zseq in Hin.
    destruct (Z.leb_spec 0 x0), (Z.ltb_spec x0 n); try lia. reflexivity.
  - destruct (Z.leb_spec 0 x0), (Z.ltb_spec x0 n); try reflexivity.
    exfalso. apply Hnin, in_zseq. lia.
Qed.

Lemma fsum_swap {A B : Type} (f : A -> B -> T) (la : list A) (lb : list B) :
  fsum (map (fun x => fsum (map (fun y => f x y) lb)) la) =
  fsum (map (fun y => fsum (map (fun x => f x y) la)) lb).
Proof.
  induction la as [|x la IH]; cbn [map fsum fold_right].
  - symmetry. apply fsum_zero.
  - fold (fsum (map (fun x => fsum (map (fun y => f x y) lb)) la)).
    rewrite IH, <- fsum_add. apply fsum_ext. intros y _. reflexivity.
Qed.

Lemma fsum_flat_map {A B : Type} (f : B -> T) (g : A -> list B) (l : list A) :
  fsum (map f (flat_map g l)) = fsum (map (fun x => fsum (map f (g x))) l).
Proof.
  induction l as [|x l IH]; cbn [flat_map map fsum fold_right]; [reflexivity|].
  rewrite map_app, fsum_app. fold (fsum (map (fun x => fsum (map f (g x))) l)).
  rewrite IH. reflexivity.
Qed.

(** The terms of a sum over [0, n) at the indices [i0], [i0 + stride],
    ..., each taken once by the thread of the remainder [i0]. *)
Lemma fsum_strided_all (stride n : Z) (g : Z -> T) :
  0 < stride ->
  fsum (map (fun q => fsum (map (fun x => if x mod stride =? q then g x else zero)
                              (zseq n)))
          (zseq stride)) =
  fsum (map g (zseq n)).
Proof.
  intros Hs. rewrite fsum_swap. apply fsum_ext. intros x Hx. apply in_zseq in Hx.
  rewrite (fsum_ext _ (fun q => if q =? x mod stride then g x else zero)).
  2:{ intros q _. rewrite Z.eqb_sym. reflexivity. }
  rewrite (fsum_single stride (x mod stride) (fun _ => g x)).
  pose proof (Z.mod_pos_bound x stride Hs).
  destruct (Z.leb_spec 0 (x mod stride)), (Z.ltb_spec (x mod stride) stride);
    try lia. reflexivity.
Qed.

(** ** [sum.cuh]: gathered values, atomic additions *)

Lemma gather_ok {A : Type} (f : Z -> result A) (g : Z -> A) (l : list Z) :
  (forall t, In t l -> f t = Ok (g t)) ->
  Stats.gather (map f l) = Ok (map g l).
Proof.
  induction l as [|t l IH]; intros H; cbn [map Stats.gather]; [reflexivity|].
  rewrite (H t (or_introl eq_refl)). cbn [bind].
  rewrite IH by (intros t' Ht'; apply H; right; exact Ht'). reflexivity.
Qed.

Lemma nth_zseq_map {A : Type} (g : Z -> A) (d : A) (n t : Z) :
  0 <= t < n -> nth (Z.to_nat t) (map g (zseq n)) d = g t.
Proof.
  intros Ht. unfold zseq. rewrite map_map.
  rewrite (nth_indep _ d (g (Z.of_nat 0))) by (rewrite length_map, length_seq; lia).
  rewrite (map_nth (fun i => g (Z.of_nat i)) (seq 0 (Z.to_nat n)) 0%nat).
  rewrite seq_nth by lia. f_equal. lia.
Qed.

(** What a cell holds after atomic additions, in whatever order they
    came: what it held before and the sum of what was added to it. *)
Lemma atomic_fold {A : Type} (h : A -> Z) (v : A -> T) (l : list A) (m : Z -> T) (a : Z) :
  fold_left (fun m' x => Stats.myAtomicAdd T add m' (h x) (v x)) l m a =
  add (m a) (fsum (map (fun x => if a =? h x then v x else zero) l)).
Proof.
  revert m. induction l as [|x l IH]; intros m; cbn [fold_left map fsum fold_right].
  - symmetry. apply add_zero.
  - rewrite IH. fold (fsum (map (fun x => if a =? h x then v x else zero) l)).
    unfold Stats.myAtomicAdd.
    destruct (a =? h x).
    + symmetry. apply add_assoc.
    + rewrite add_zero_l. reflexivity.
Qed.

Lemma apply_effects_atomic (reqs : list (Z * T)) (m : Z -> T) :
  Stats.apply_effects T add (map (fun r => Stats.AtomicAdd T (fst r) (snd r)) reqs) m =
  fold_left (fun m' r => Stats.myAtomicAdd T add m' (fst r) (snd r)) reqs m.
Proof.
  unfold Stats.apply_effects. revert m.
  induction reqs as [|r reqs IH]; intros m; [reflexivity|].
  cbn [map fold_left]. apply IH.
Qed.


(** ** [sum.cuh]: the loops of the threads *)

Lemma strided_step (g : Z -> T) (stride N i0 i : Z) :
  0 < stride -> 0 <= i0 -> i0 <= i < N -> i mod stride = i0 ->
  fsum (map (fun x => if (i <=? x) && (x mod stride =? i0) then g x else zero) (zseq N)) =
  add (g i)
      (fsum (map (fun x => if (i + stride <=? x) && (x mod stride =? i0) then g x else zero)
               (zseq N))).
Proof.
  intros Hs Hi0 Hi Hmod.
  rewrite (fsum_ext _ (fun x => add (if x =? i then g x else zero)
                                    (if (i + stride <=? x) && (x mod stride =? i0)
                                     then g x else zero))).
  - rewrite fsum_add, (fsum_single N i g).
    destruct (Z.leb_spec 0 i), (Z.ltb_spec i N); try lia. reflexivity.
  - intros x _.
    destruct (Z.eqb_spec x i) as [-> | Hne].
    + destruct (Z.leb_spec i i); [| lia].
      destruct (Z.eqb_spec (i mod stride) i0); [| lia].
      destruct (Z.leb_spec (i + stride) i); [lia |].
      cbn [andb]. symmetry. apply add_zero.
    + rewrite add_zero_l.
      destruct (Z.eqb_spec (x mod stride) i0) as [Hx | Hx];
        [| rewrite !andb_false_r; reflexivity].
      rewrite !andb_true_r.
      pose proof (Z.div_mod x stride ltac:(lia)) as Dx.
      pose proof (Z.div_mod i stride ltac:(lia)) as Di.
      rewrite Hx in Dx. rewrite Hmod in Di.
      destruct (Z.leb_spec i x), (Z.leb_spec (i + stride) x); try reflexivity;
        exfalso; [| lia].
      destruct (Z.lt_trichotomy (x / stride) (i / stride)) as [L | [E | L]]; nia.
Qed.

Lemma strided_done (g : Z -> T) (stride N i0 i : Z) :
  N <= i ->
  fsum (map (fun x => if (i <=? x) && (x mod stride =? i0) then g x else zero) (zseq N)) =
  zero.
Proof.
  intros Hi. rewrite (fsum_ext _ (fun _ => zero)); [apply fsum_zero |].
  intros x Hx. apply in_zseq in Hx.
  destruct (Z.leb_spec i x); [lia | reflexivity].
Qed.

Lemma strided_start (g : Z -> T) (stride N i0 : Z) :
  0 < stride ->
  fsum (map (fun x => if (i0 <=? x) && (x mod stride =? i0) then g x else zero) (zseq N)) =
  fsum (map (fun x => if x mod stride =? i0 then g x else zero) (zseq N)).
Proof.
  intros Hs. apply fsum_ext. intros x Hx. apply in_zseq in Hx.
  destruct (Z.eqb_spec (x mod stride) i0) as [E | E];
    [| rewrite andb_false_r; reflexivity].
  pose proof (Z.mod_le x stride ltac:(lia) Hs).
  destruct (Z.leb_spec i0 x); [reflexivity | lia].
Qed.

Lemma sumKernelRowMajor_loop_spec (fuel : nat) (data : Z -> T)
    (D N colId stride i0 i : Z) (acc : T) :
  0 < stride -> 0 <= i0 -> i0 <= i -> i mod stride = i0 ->
  (Z.to_nat (N - i) < fuel)%nat ->
  Stats.sumKernelRowMajor_loop T add zero fuel data D N colId stride i acc =
  Ok (add acc
        (fsum (map (fun x => if (i <=? x) && (x mod stride =? i0)
                             then (if colId <? D then data (x * D + colId) else zero)
                             else zero)
                 (zseq N)))).
Proof.
  intros Hs Hi0. revert i acc.
  induction fuel as [|fuel IH]; intros i acc Hi Hmod Hfuel; [lia|].
  cbn [Stats.sumKernelRowMajor_loop].
  destruct (Z.ltb_spec i N) as [Hlt | Hge].
  - rewrite IH; [| lia | | lia].
    2:{ replace (i + stride) with (i + 1 * stride) by ring.
        rewrite Z.mod_add by lia. exact Hmod. }
    rewrite (strided_step (fun x => if colId <? D then data (x * D + colId) else zero)
               stride N i0 i) by (assumption || lia).
    f_equal. symmetry. apply add_assoc.
  - rewrite strided_done by lia. rewrite add_zero. reflexivity.
Qed.


(** ** [sum.cuh]: the row-major kernel *)

(** The term of row [x] in the sum of column [c]. *)
Let col_term (data : Z -> T) (D c x : Z) : T :=
  if c <? D then data (x * D + c) else zero.

(** What block [bx] of [gx] adds to the sum of column [c]: the rows
    [r + bx * 8], [r + bx * 8 + 8 * gx], ... for [r] from 0 to 7. *)
Let block_sum (data : Z -> T) (D N gx bx c : Z) : T :=
  fsum (map (fun r =>
               fsum (map (fun x => if x mod (8 * gx) =? r + bx * 8
                                   then col_term data D c x else zero)
                        (zseq N)))
          (zseq 8)).

Lemma sumKernelRowMajor_block (sched : list Z) (smu0 data : Z -> T)
    (D N gx bx by_ : Z) :
  0 <= bx < gx ->
  Permutation sched (zseq 256) ->
  Stats.sumKernelRowMajor T add zero 256 32 sched smu0 data D N gx bx by_ =
  Ok (map (fun s => (s + by_ * 32, block_sum data D N gx bx (s + by_ * 32))) (zseq 32)).
Proof.
  intros Hbx Hperm. unfold Stats.sumKernelRowMajor. cbv zeta.
  change (Z.quot 256 32) with 8.
  set (td := fun t =>
         fsum (map (fun x => if x mod (8 * gx) =? t / 32 + bx * 8
                             then col_term data D (t mod 32 + by_ * 32) x else zero)
                  (zseq N))).
  rewrite (gather_ok _ td).
  2:{ intros t Ht. apply in_zseq in Ht.
      rewrite Z.quot_div_nonneg, Z.rem_mod_nonneg by lia.
      assert (Hq : 0 <= t / 32 < 8).
      { split; [apply Z.div_pos; lia | apply Z.div_lt_upper_bound; lia]. }
      rewrite (sumKernelRowMajor_loop_spec _ data D N _ (8 * gx) (t / 32 + bx * 8));
        [| lia | lia | lia | apply Z.mod_small; lia | lia].
      rewrite add_zero_l, strided_start by lia. reflexivity. }
  cbn [bind].
  replace (filter (fun threadIdx => threadIdx <? 32) (zseq 256)) with (zseq 32)
    by reflexivity.
  f_equal. apply map_ext_in. intros s Hs. apply in_zseq in Hs.
  rewrite Z.rem_mod_nonneg, Z.mod_small by lia. f_equal.
  rewrite (atomic_fold (fun t => Z.rem t 32)
             (fun t => nth (Z.to_nat t) (map td (zseq 256)) zero)).
  (* the slot was set to zero before the barrier *)
  rewrite (store_all_determined _ smu0 s zero).
  2:{ intros v Hv. apply in_map_iff in Hv. destruct Hv as (t & E & _).
      injection E as _ <-. reflexivity. }
  2:{ rewrite map_map. cbn [fst]. rewrite map_id. apply in_zseq. exact Hs. }
  rewrite add_zero_l.
  (* the additions in the order of the threads *)
  rewrite (fsum_perm _ _ (Permutation_map _ Hperm)).
  rewrite (fsum_ext _ (fun t => if t mod 32 =? s then td t else zero)).
  2:{ intros t Ht. apply in_zseq in Ht.
      rewrite Z.rem_mod_nonneg, nth_zseq_map, Z.eqb_sym by lia. reflexivity. }
  change (fsum (map (fun t => if t mod 32 =? s then td t else zero) (zseq 256)))
    with (CudaUtils.sum_upto T add zero (32 * 8)
            (fun t => if t mod 32 =? s then td t else zero)).
  rewrite sum_upto_nested by lia.
  unfold block_sum. apply fsum_ext. intros r Hr. apply in_zseq in Hr.
  unfold CudaUtils.sum_upto.
  rewrite (fsum_ext _ (fun l => if l =? s then td (r * 32 + s) else zero)).
  2:{ intros l Hl. apply in_zseq in Hl.
      rewrite Z.add_comm, Z.mod_add, Z.mod_small by lia.
      destruct (Z.eqb_spec l s) as [-> | _]; [| reflexivity].
      f_equal. ring. }
  rewrite (fsum_single 32 s (fun _ => td (r * 32 + s))).
  destruct (Z.leb_spec 0 s), (Z.ltb_spec s 32); try lia. cbn [andb].
  unfold td.
  replace ((r * 32 + s) / 32) with r
    by (apply Z.div_unique with (r := s); lia).
  replace ((r * 32 + s) mod 32) with s
    by (apply Z.mod_unique with (q := r); lia).
  reflexivity.
Qed.

(** The atomic additions to [mu] of a grid of [gx] by [gy] blocks. *)
Let row_requests (data : Z -> T) (D N gx gy : Z) : list (Z * T) :=
  flat_map (fun by_ =>
    flat_map (fun bx =>
      map (fun s => (s + by_ * 32, block_sum data D N gx bx (s + by_ * 32))) (zseq 32))
      (zseq gx))
    (zseq gy).

Lemma sum_rowMajor_launch (sched : Z -> Z -> list Z) (smu0 output input : Z -> T)
    (D N : Z) :
  (forall bx by_, Permutation (sched bx by_) (zseq 256)) ->
  Stats.sum T add zero sched smu0 output input D N true =
  Ok (Stats.memset_zero T zero output D,
      map (fun r => Stats.AtomicAdd T (fst r) (snd r))
          (row_requests input D N (Raft.ceildiv (fun x => x) N 32)
                                  (Raft.ceildiv (fun x => x) D 32))).
Proof.
  intros Hsched. unfold Stats.sum. cbv zeta.
  change (Z.quot 256 32 * 4) with 32.
  set (gx := Raft.ceildiv (fun x => x) N 32).
  set (gy := Raft.ceildiv (fun x => x) D 32).
  rewrite (collect_ok _
             (fun by_ => flat_map (fun bx =>
                map (fun s => (s + by_ * 32, block_sum input D N gx bx (s + by_ * 32)))
                    (zseq 32)) (zseq gx))).
  - reflexivity.
  - intros by_ _. apply collect_ok. intros bx Hbx. apply in_zseq in Hbx.
    apply sumKernelRowMajor_block; [exact Hbx | apply Hsched].
Qed.

(** What all the blocks together add to the cell [c] of [mu]. *)
Lemma row_requests_sum (data : Z -> T) (D N gx gy c : Z) :
  1 <= gx -> 0 <= gy ->
  fsum (map (fun r : Z * T => if c =? fst r then snd r else zero)
          (row_requests data D N gx gy)) =
  if (0 <=? c) && (c <? gy * 32)
  then fsum (map (col_term data D c) (zseq N)) else zero.
Proof.
  intros Hgx Hgy. unfold row_requests.
  rewrite fsum_flat_map.
  rewrite (fsum_ext _ (fun by_ => if by_ =? c / 32
                                  then fsum (map (col_term data D c) (zseq N))
                                  else zero)).
  - rewrite (fsum_single gy (c / 32) (fun _ => fsum (map (col_term data D c) (zseq N)))).
    pose proof (Z.div_mod c 32 ltac:(lia)) as Dc.
    pose proof (Z.mod_pos_bound c 32 ltac:(lia)) as Mc.
    destruct (Z.leb_spec 0 (c / 32)), (Z.ltb_spec (c / 32) gy),
             (Z.leb_spec 0 c), (Z.ltb_spec c (gy * 32));
      cbn [andb]; try reflexivity; exfalso; lia.
  - intros by_ _. rewrite fsum_flat_map.
    rewrite (fsum_ext _ (fun bx => if (0 <=? c - by_ * 32) && (c - by_ * 32 <? 32)
                                   then block_sum data D N gx bx c else zero)).
    2:{ intros bx _. rewrite map_map. cbn [fst snd].
        rewrite (fsum_ext _ (fun s => if s =? c - by_ * 32
                                      then block_sum data D N gx bx c else zero)).
        - apply (fsum_single 32 (c - by_ * 32) (fun _ => block_sum data D N gx bx c)).
        - intros s _.
          destruct (Z.eqb_spec c (s + by_ * 32)) as [E | E];
            destruct (Z.eqb_spec s (c - by_ * 32)) as [E' | E']; try lia;
            [rewrite <- E |]; reflexivity. }
    rewrite fsum_if.
    pose proof (Z.div_mod c 32 ltac:(lia)) as Dc.
    pose proof (Z.mod_pos_bound c 32 ltac:(lia)) as Mc.
    destruct (Z.eqb_spec by_ (c / 32)) as [E | E].
    + destruct (Z.leb_spec 0 (c - by_ * 32)), (Z.ltb_spec (c - by_ * 32) 32);
        try lia. cbn [andb].
      (* the rows, block by block and thread by thread *)
      unfold block_sum.
      rewrite <- (fsum_strided_all (8 * gx) N (col_term data D c)) by lia.
      change (fsum (map (fun q => fsum (map (fun x => if x mod (8 * gx) =? q
                                                     then col_term data D c x else zero)
                                          (zseq N)))
                      (zseq (8 * gx))))
        with (CudaUtils.sum_upto T add zero (8 * gx)
                (fun q => fsum (map (fun x => if x mod (8 * gx) =? q
                                              then col_term data D c x else zero)
                                   (zseq N)))).
      rewrite sum_upto_nested by lia.
      apply fsum_ext. intros bx _. unfold CudaUtils.sum_upto.
      apply fsum_ext. intros r _.
      apply fsum_ext. intros x _.
      replace (bx * 8 + r) with (r + bx * 8) by ring. reflexivity.
    + destruct (Z.leb_spec 0 (c - by_ * 32)), (Z.ltb_spec (c - by_ * 32) 32);
        cbn [andb]; try reflexivity.
      exfalso. apply E. apply Z.div_unique with (r := c - by_ * 32); lia.
Qed.

Lemma apply_effects_atomic_any (reqs : list (Z * T)) (ws : list (Stats.effect T))
    (m : Z -> T) (c : Z) :
  Permutation (map (fun r => Stats.AtomicAdd T (fst r) (snd r)) reqs) ws ->
  Stats.apply_effects T add ws m c =
  add (m c) (fsum (map (fun r : Z * T => if c =? fst r then snd r else zero) reqs)).
Proof.
  intros Hperm.
  destruct (Permutation_map_inv _ _ (Permutation_sym Hperm)) as (reqs' & -> & Hperm').
  rewrite apply_effects_atomic, (atomic_fold fst snd).
  f_equal. apply fsum_perm. apply Permutation_map. apply Permutation_sym. exact Hperm'.
Qed.

Lemma sum_rowMajor_spec (sched : Z -> Z -> list Z) (smu0 output input : Z -> T)
    (D N : Z) :
  1 <= D -> 1 <= N ->
  (forall bx by_, Permutation (sched bx by_) (zseq 256)) ->
  exists out1 es,
    Stats.sum T add zero sched smu0 output input D N true = Ok (out1, es) /\
    (forall ws c, Permutation es ws ->
       Stats.apply_effects T add ws out1 c =
       if (0 <=? c) && (c <? D)
       then CudaUtils.sum_upto T add zero N (fun i => input (i * D + c))
       else output c) /\
    (forall a v, In (Stats.AtomicAdd T a v) es ->
       0 <= a < 32 * ((D + 31) / 32) /\ (D <= a -> v = zero)) /\
    (forall a, 0 <= a < 32 * ((D + 31) / 32) -> exists v, In (Stats.AtomicAdd T a v) es) /\
    (forall a v, ~ In (Stats.Store T a v) es).
Proof.
  intros HD HN Hsched.
  rewrite (sum_rowMajor_launch sched smu0 output input D N Hsched).
  set (gx := Raft.ceildiv (fun x => x) N 32).
  set (gy := Raft.ceildiv (fun x => x) D 32).
  assert (Hgx : 1 <= gx).
  { unfold gx, Raft.ceildiv. rewrite Z.quot_div_nonneg by lia.
    apply Z.div_le_lower_bound; lia. }
  assert (Hgy : gy = (D + 31) / 32).
  { unfold gy, Raft.ceildiv. rewrite Z.quot_div_nonneg by lia. f_equal. lia. }
  pose proof (Z.div_mod (D + 31) 32 ltac:(lia)) as Dd.
  pose proof (Z.mod_pos_bound (D + 31) 32 ltac:(lia)) as Md.
  do 2 eexists. split; [reflexivity|]. split; [| split; [| split]].
  - intros ws c Hperm.
    rewrite (apply_effects_atomic_any _ ws _ c Hperm).
    rewrite row_requests_sum by lia.
    unfold Stats.memset_zero.
    destruct (Z.leb_spec 0 c), (Z.ltb_spec c D); cbn [andb].
    + destruct (Z.ltb_spec c (gy * 32)); [| lia].
      rewrite add_zero_l. unfold CudaUtils.sum_upto. apply fsum_ext.
      intros x _. unfold col_term. destruct (Z.ltb_spec c D); [reflexivity | lia].
    + destruct (Z.ltb_spec c (gy * 32)); [| apply add_zero].
      rewrite (fsum_ext _ (fun _ => zero)).
      * rewrite fsum_zero. apply add_zero.
      * intros x _. unfold col_term. destruct (Z.ltb_spec c D); [lia | reflexivity].
    + apply add_zero.
    + apply add_zero.
  - intros a v Hin. apply in_map_iff in Hin. destruct Hin as ([a' v'] & E & Hin).
    cbn [fst snd] in E. injection E as -> ->.
    unfold row_requests in Hin.
    apply in_flat_map in Hin. destruct Hin as (by_ & Hby & Hin).
    apply in_flat_map in Hin. destruct Hin as (bx & Hbx & Hin).
    apply in_map_iff in Hin. destruct Hin as (s & E & Hs).
    injection E as <- <-. apply in_zseq in Hby, Hbx, Hs.
    split; [lia|]. intros Hpad. unfold block_sum.
    rewrite (fsum_ext _ (fun _ => zero)); [apply fsum_zero |].
    intros r _. rewrite (fsum_ext _ (fun _ => zero)); [apply fsum_zero |].
    intros x _. unfold col_term.
    destruct (Z.ltb_spec (s + by_ * 32) D); [lia |].
    destruct (x mod (8 * gx) =? r + bx * 8); reflexivity.
  - intros a Ha.
    pose proof (Z.div_mod a 32 ltac:(lia)) as Da.
    pose proof (Z.mod_pos_bound a 32 ltac:(lia)) as Ma.
    assert (Hq : 0 <= a / 32 < gy).
    { split; [apply Z.div_pos; lia | apply Z.div_lt_upper_bound; lia]. }
    exists (block_sum input D N gx 0 a).
    apply in_map_iff. exists (a, block_sum input D N gx 0 a). split; [reflexivity|].
    unfold row_requests. apply in_flat_map. exists (a / 32).
    split; [apply in_zseq; exact Hq|].
    apply in_flat_map. exists 0. split; [apply in_zseq; lia|].
    apply in_map_iff. exists (a mod 32). split; [| apply in_zseq; lia].
    replace (a mod 32 + a / 32 * 32) with a by lia. reflexivity.
  - intros a v Hin. apply in_map_iff in Hin. destruct Hin as (r & E & _). discriminate.
Qed.

(** ** [sum.cuh]: the column-major kernel *)




End Sums.

(** X11: [warpReduce] leaves in every lane of a full warp the sum of the
    values of all 32 lanes, for an addition that is associative and
    commutative with [zero] as its neutral element. *)
Theorem warpReduce_every_lane (T : Type) (add : T -> T -> T) (zero : T)
  (val : Z -> T) (lane : Z) :
  (forall x y z, add x (add y z) = add (add x y) z) ->
  (forall x y, add x y = add y x) ->
  (forall x, add x zero = x) ->
  0 <= lane < Raft.WarpSize ->
  CudaUtils.warpReduce T add val lane = CudaUtils.sum_upto T add zero Raft.WarpSize val.
Proof.
  intros Hassoc Hcomm Hzero Hl.
  exact (warpReduce_sum T add zero Hassoc Hcomm Hzero val lane Hl).
Qed.

(** X12: in a block of [nW] full warps, [1 <= nW <= 32], [blockReduce]
    returns the sum of the values of all the threads of the block, to
    thread 0 and to every other thread as well, whatever the shared
    memory held before. *)
Theorem blockReduce_block_sum (T : Type) (add : T -> T -> T) (zero : T)
  (blockDim nW : Z) (val smem : Z -> T) (t : Z) :
  (forall x y z, add x (add y z) = add (add x y) z) ->
  (forall x y, add x y = add y x) ->
  (forall x, add x zero = x) ->
  blockDim = Raft.WarpSize * nW -> 1 <= nW <= 32 ->
  0 <= t < blockDim ->
  CudaUtils.blockReduce T add zero blockDim val smem t =
  CudaUtils.sum_upto T add zero blockDim val.
Proof.
  intros Hassoc Hcomm Hzero -> HnW Ht.
  exact (blockReduce_sum T add zero Hassoc Hcomm Hzero nW val smem t HnW Ht).
Qed.

(** X18.  [sum] of a row-major matrix of [N >= 1] rows and [D >= 1]
    columns: after the kernel, whatever the order in which the atomic
    additions came, [output[c]] holds the sum of the column [c] for every
    [c] below [D], and every other cell holds what it held before. *)
Theorem sum_row_major_column_sums (T : Type) (add : T -> T -> T) (zero : T)
    (sched : Z -> Z -> list Z) (smu0 output input : Z -> T) (D N : Z) :
  (forall x y z, add x (add y z) = add (add x y) z) ->
  (forall x y, add x y = add y x) ->
  (forall x, add x zero = x) ->
  1 <= D -> 1 <= N ->
  (forall bx by_, Permutation (sched bx by_) (zseq 256)) ->
  exists out1 es,
    Stats.sum T add zero sched smu0 output input D N true = Ok (out1, es) /\
    forall ws, Permutation es ws ->
      (forall c, 0 <= c < D ->
         Stats.apply_effects T add ws out1 c =
         CudaUtils.sum_upto T add zero N (fun i => input (i * D + c))) /\
      (forall c, ~ 0 <= c < D -> Stats.apply_effects T add ws out1 c = output c).
Proof.
  intros Hassoc Hcomm Hzero HD HN Hsched.
  destruct (sum_rowMajor_spec T add zero Hassoc Hcomm Hzero sched smu0 output input
              D N HD HN Hsched) as (out1 & es & Hsum & Hval & _).
  exists out1, es. split; [exact Hsum|].
  intros ws Hperm. split; intros c Hc; rewrite (Hval ws c Hperm).
  - destruct (Z.leb_spec 0 c), (Z.ltb_spec c D); try lia. reflexivity.
  - destruct (Z.leb_spec 0 c), (Z.ltb_spec c D); try reflexivity. lia.
Qed.

(** X19.  The row-major kernel makes an atomic addition to [mu[a]] for
    every [a] below the number of columns rounded up to a multiple of 32,
    and to no other cell: when [D] is not a multiple of 32 the cells from
    [D] on, which are not part of [output], are read and written, with
    zero added to them. *)
Theorem sum_row_major_touches_padding (T : Type) (add : T -> T -> T) (zero : T)
    (sched : Z -> Z -> list Z) (smu0 output input : Z -> T) (D N : Z) :
  (forall x y z, add x (add y z) = add (add x y) z) ->
  (forall x y, add x y = add y x) ->
  (forall x, add x zero = x) ->
  1 <= D -> 1 <= N ->
  (forall bx by_, Permutation (sched bx by_) (zseq 256)) ->
  exists out1 es,
    Stats.sum T add zero sched smu0 output input D N true = Ok (out1, es) /\
    (forall a v, In (Stats.AtomicAdd T a v) es ->
       0 <= a < 32 * ((D + 31) / 32) /\ (D <= a -> v = zero)) /\
    (forall a, 0 <= a < 32 * ((D + 31) / 32) ->
       exists v, In (Stats.AtomicAdd T a v) es) /\
    (D mod 32 <> 0 -> In (Stats.AtomicAdd T D zero) es).
Proof.
  intros Hassoc Hcomm Hzero HD HN Hsched.
  destruct (sum_rowMajor_spec T add zero Hassoc Hcomm Hzero sched smu0 output input
              D N HD HN Hsched) as (out1 & es & Hsum & _ & Hin & Hall & _).
  exists out1, es. split; [exact Hsum|]. split; [exact Hin|]. split; [exact Hall|].
  intros Hmod.
  assert (Hpad : 0 <= D < 32 * ((D + 31) / 32)).
  { pose proof (Z.div_mod D 32 ltac:(lia)) as Dd.
    pose proof (Z.mod_pos_bound D 32 ltac:(lia)) as Md.
    assert ((D + 31) / 32 = D / 32 + 1).
    { symmetry. apply Z.div_unique with (r := D mod 32 - 1); lia. }
    lia. }
  destruct (Hall D Hpad) as (v & Hv).
  destruct (Hin D v Hv) as (_ & Hz). rewrite (Hz (Z.le_refl D)) in Hv. exact Hv.
Qed.


(** ** The further properties at concrete inputs *)

(** [transpose_in_place_any_order] on a 3 x 3 matrix, the indices taken
    from the last to the first. *)
Lemma transpose_in_place_any_order_witness :
  (forall i j, 0 <= i < 3 -> 0 <= j < 3 ->
     Linalg.transpose (rev (zseq (3 * 3))) Scenario.matrix 3 (i * 3 + j)
     = Scenario.matrix (j * 3 + i)) /\
  (forall p, ~ 0 <= p < 3 * 3 ->
     Linalg.transpose (rev (zseq (3 * 3))) Scenario.matrix 3 p = Scenario.matrix p).
Proof.
  apply (transpose_in_place_any_order Z 3 (rev (zseq (3 * 3))) Scenario.matrix);
    [lia | lia | apply Permutation_sym, Permutation_rev].
Defined.

(** [transpose_twice] on a 3 x 3 matrix, first backwards and then
    forwards. *)
Lemma transpose_twice_witness :
  Linalg.transpose (zseq (3 * 3))
    (Linalg.transpose (rev (zseq (3 * 3))) Scenario.matrix 3) 3 5
  = Scenario.matrix 5.
Proof.
  apply (transpose_twice Z 3 (rev (zseq (3 * 3))) (zseq (3 * 3)) Scenario.matrix 5);
    [lia | lia | apply Permutation_sym, Permutation_rev | reflexivity].
Defined.

(** [transpose_turns_disjoint] for the turns of the indices 3 and 6 of a
    3 x 3 matrix and the cell 1. *)
Lemma transpose_turns_disjoint_witness :
  (In 1 (Linalg.transpose_cells 3 3) -> 0 <= 1 < 3 * 3) /\
  (In 1 (Linalg.transpose_cells 3 3) -> ~ In 1 (Linalg.transpose_cells 3 6)) /\
  (~ In 1 (Linalg.transpose_cells 3 3) ->
   Linalg.transpose_body 3 Scenario.matrix 3 1 = Scenario.matrix 1).
Proof.
  apply (transpose_turns_disjoint Z 3 3 6 1 Scenario.matrix); lia.
Defined.

(** [alignTo_alignDown_nearest_multiples] in [uint], for 10 and 4. *)
Lemma alignTo_alignDown_nearest_multiples_witness :
  CudaUtils.alignTo Raft.uint 10 4 = Raft.ceildiv Raft.uint 10 4 * 4 /\
  10 <= CudaUtils.alignTo Raft.uint 10 4 < 10 + 4 /\
  (exists q, CudaUtils.alignDown Raft.uint 10 4 = q * 4) /\
  CudaUtils.alignDown Raft.uint 10 4 <= 10 < CudaUtils.alignDown Raft.uint 10 4 + 4.
Proof.
  apply (alignTo_alignDown_nearest_multiples Raft.uint 10 4); [lia | lia |].
  intros x Hx. unfold Raft.uint. apply Z.mod_small. lia.
Defined.

(** [ceildiv_uint_overflow] for the largest [uint] and 2. *)
Lemma ceildiv_uint_overflow_witness :
  Raft.ceildiv Raft.uint (2 ^ 32 - 1) 2 = 0 /\
  CudaUtils.alignTo Raft.uint (2 ^ 32 - 1) 2 = 0.
Proof.
  apply (ceildiv_uint_overflow (2 ^ 32 - 1) 2); lia.
Defined.

(** [log2_exact_iff_isPo2] at 64. *)
Lemma log2_exact_iff_isPo2_witness :
  2 ^ CudaUtils.log2 64 0 = 64 <-> CudaUtils.isPo2 64 = true.
Proof.
  apply (log2_exact_iff_isPo2 64). lia.
Defined.

(** [forEach_grid_calls] for two items per thread in two blocks of four
    threads, and twenty indices: four more than the grid takes. *)
Lemma forEach_grid_calls_witness :
  NoDup (CudaUtils.forEach_grid 2 4 2 20) /\
  forall idx itr,
    In (idx, itr) (CudaUtils.forEach_grid 2 4 2 20) <->
    0 <= idx < 20 /\ idx < 2 * (4 * 2) /\ itr = idx / (4 * 2).
Proof.
  apply (forEach_grid_calls 2 4 2 20); lia.
Defined.

(** [warpReduce_every_lane] for integers, lane [l] entering with [l]. *)
Lemma warpReduce_every_lane_witness :
  CudaUtils.warpReduce Z Z.add (fun l => l) 5
  = CudaUtils.sum_upto Z Z.add 0 Raft.WarpSize (fun l => l).
Proof.
  apply (warpReduce_every_lane Z Z.add 0 (fun l => l) 5);
    [intros; lia | intros; lia | intros; lia | unfold Raft.WarpSize; lia].
Defined.

(** [blockReduce_block_sum] for a block of two warps, thread [t] entering
    with [t]. *)
Lemma blockReduce_block_sum_witness :
  CudaUtils.blockReduce Z Z.add 0 64 (fun t => t) (fun _ => 7) 33
  = CudaUtils.sum_upto Z Z.add 0 64 (fun t => t).
Proof.
  apply (blockReduce_block_sum Z Z.add 0 64 2 (fun t => t) (fun _ => 7) 33);
    [intros; lia | intros; lia | intros; lia | reflexivity | lia | lia].
Defined.

(** [run_width_widest] for four-byte scalars and a configured width of 16
    bytes, [in] four bytes and [out] eight bytes past a 16-byte boundary. *)
Lemma run_width_widest_witness :
  exists m,
    0 <= m <= 2 /\
    run_width 4 4 8 (4 * 2 ^ 2) = Ok (4 * 2 ^ m) /\
    (0 < m -> 4 mod (4 * 2 ^ m) = 8 mod (4 * 2 ^ m)) /\
    (forall k, m < k <= 2 -> 4 mod (4 * 2 ^ k) <> 8 mod (4 * 2 ^ k)).
Proof.
  apply (run_width_widest 4 4 8 2); lia.
Defined.

(** [run_stores_within_matrix] on the scenario matrix, the vector along
    the rows, [in] and [out] four bytes past a 16-byte boundary. *)
Lemma run_stores_within_matrix_witness :
  exists W ls,
    run_width 4 4 4 16 = Ok W /\
    run 4 Scenario.subtract Scenario.matrix [Scenario.per_col]
        4 4 80 1024 Scenario.zeros 16 256 4 3 true = Ok ls /\
    0 <= alignedOff 4 4 W < VecElems 4 16 /\
    ((forall (a : Z) (v : Z), In (a, v) (all_writes ls) -> 0 <= a < 4 * 3) <->
     alignedOff 4 4 W <= 4 * 3).
Proof.
  apply (run_stores_within_matrix Z 4 Scenario.subtract Scenario.matrix
           [Scenario.per_col] 4 4 80 1024 Scenario.zeros 16 256 8 4 3 2 true);
    first [ reflexivity | lia | (vm_compute; discriminate) ].
Defined.

(** [run_launch_shapes] on the same call. *)
Lemma run_launch_shapes_witness :
  exists W ls,
    run_width 4 4 4 16 = Ok W /\
    run 4 Scenario.subtract Scenario.matrix [Scenario.per_col]
        4 4 80 1024 Scenario.zeros 16 256 4 3 true = Ok ls /\
    Forall (fun l => 1 <= l_grid l /\
                     (l_block l = 256 \/
                      l_grid l = 2 /\ l_block l = Z.max Raft.WarpSize W)) ls.
Proof.
  apply (run_launch_shapes Z 4 Scenario.subtract Scenario.matrix
           [Scenario.per_col] 4 4 80 1024 Scenario.zeros 16 256 8 4 3 2 true);
    first [ reflexivity | lia | (vm_compute; discriminate) ].
Defined.

(** [run_stores_each_element_once] on the scenario matrix, the vector
    across the rows, [in] and [out] eight bytes past a 16-byte boundary. *)
Lemma run_stores_each_element_once_witness :
  exists W ls,
    run_width 4 8 8 16 = Ok W /\
    run 4 Scenario.subtract Scenario.matrix [Scenario.per_row]
        8 8 80 1024 Scenario.zeros 16 256 4 3 false = Ok ls /\
    (alignedOff 4 8 W <= 4 * 3 ->
     Permutation (map fst (all_writes ls)) (zseq (4 * 3))).
Proof.
  apply (run_stores_each_element_once Z 4 Scenario.subtract Scenario.matrix
           [Scenario.per_row] 8 8 80 1024 Scenario.zeros 16 256 8 4 3 2 false);
    first [ reflexivity | lia | (vm_compute; discriminate) ].
Defined.

(** [loadVec_work_region] for a vector of three entries staged by a block
    of 32 threads in the region that starts at slot 128. *)
Lemma loadVec_work_region_witness :
  exists mem' chunk,
    loadVec Z 4 16 32 Scenario.zeros 128 Scenario.per_col 2 3 = Ok (mem', chunk) /\
    (forall q, 0 <= q < VecElems 4 16 * 32 ->
               mem' (128 + q) = Scenario.per_col ((2 + q) mod 3)) /\
    (forall a, ~ 128 <= a < 128 + VecElems 4 16 * 32 -> mem' a = Scenario.zeros a).
Proof.
  apply (loadVec_work_region Z 4 16 32 Scenario.zeros 128 Scenario.per_col 2 3); lia.
Defined.

(** [sum_row_major_column_sums] on the scenario matrix, three rows of four
    columns, the threads of every block taking their turn from the last
    to the first. *)
Lemma sum_row_major_column_sums_witness :
  exists out1 es,
    Stats.sum Z Z.add 0 (fun _ _ => rev (zseq 256)) (fun _ => 7) (fun _ => 5)
              Scenario.matrix 4 3 true = Ok (out1, es) /\
    forall ws, Permutation es ws ->
      (forall c, 0 <= c < 4 ->
         Stats.apply_effects Z Z.add ws out1 c =
         CudaUtils.sum_upto Z Z.add 0 3 (fun i => Scenario.matrix (i * 4 + c))) /\
      (forall c, ~ 0 <= c < 4 -> Stats.apply_effects Z Z.add ws out1 c = 5).
Proof.
  apply (sum_row_major_column_sums Z Z.add 0 (fun _ _ => rev (zseq 256))
           (fun _ => 7) (fun _ => 5) Scenario.matrix 4 3);
    [intros; lia | intros; lia | intros; lia | lia | lia |
     intros; apply Permutation_sym, Permutation_rev].
Defined.

(** [sum_row_major_touches_padding] on the same call: four columns, and
    atomic additions to the cells 0 to 31. *)
Lemma sum_row_major_touches_padding_witness :
  exists out1 es,
    Stats.sum Z Z.add 0 (fun _ _ => rev (zseq 256)) (fun _ => 7) (fun _ => 5)
              Scenario.matrix 4 3 true = Ok (out1, es) /\
    (forall a v, In (Stats.AtomicAdd Z a v) es ->
       0 <= a < 32 * ((4 + 31) / 32) /\ (4 <= a -> v = 0)) /\
    (forall a, 0 <= a < 32 * ((4 + 31) / 32) ->
       exists v, In (Stats.AtomicAdd Z a v) es) /\
    (4 mod 32 <> 0 -> In (Stats.AtomicAdd Z 4 0) es).
Proof.
  apply (sum_row_major_touches_padding Z Z.add 0 (fun _ _ => rev (zseq 256))
           (fun _ => 7) (fun _ => 5) Scenario.matrix 4 3);
    [intros; lia | intros; lia | intros; lia | lia | lia |
     intros; apply Permutation_sym, Permutation_rev].
Defined.

